(** * Endless Sky text engine: glyph resolution, width measurement, truncation

    A shallow embedding of [source/text/Font.cpp]: the codepoint resolver
    ([SubstituteUnsupported], [Font::GlyphForCodepoint]), the advance table
    computer ([Font::CalculateAdvances]), the measuring loop
    ([Font::WidthRawString]) and the truncation search
    ([Font::TruncateEndsOrMiddle] with its three policies).  Further
    parts embed the other members of [Font] (the byte resolver, the width
    of a layout, the drawing loop, the atlas that [Font::LoadFromTtf]
    builds), the reader and the look-up of [source/text/Translation.cpp]
    and the registry of [source/text/FontSet.cpp].

    Conventions.  A C++ [int] and a [uint32_t] are modelled as [Z].  Where
    a guard of the source keeps the values it computes on inside the range
    of the type, no wrap-around is written out; the sums and the product
    of the measuring loop have no such guard, and there the result is cut
    to 32 bits with [int32].  A [size_t] offset is a [Z] as well and
    [string::npos] is the value [2^64 - 1].  A [std::string] is its list
    of bytes. *)

From Equations Require Import Equations.
From Stdlib Require Import ZArith List Bool Lia.
From Stdlib.Strings Require Import Byte String.
Import ListNotations.

Local Open Scope Z_scope.

(** [inspect x] lets a definition match on [x] and keep the equation
    between [x] and the pattern, which its termination proof needs. *)
Definition inspect {A : Type} (x : A) : {y : A | x = y} := exist _ x eq_refl.

(** * Part I: the program *)

(** ** Strings as byte buffers *)

Definition bytes := list byte.

Definition size (str : bytes) : Z := Z.of_nat (List.length str).

Definition npos : Z := 2 ^ 64 - 1.

(** What an [int] holds after an operation whose exact result is [z]: the
    low 32 bits of [z] read as a signed number.  The language leaves a
    signed overflow undefined; the model takes the two's complement result
    that the compiled program shows. *)
Definition int32 (z : Z) : Z := (z + 2 ^ 31) mod 2 ^ 32 - 2 ^ 31.

(** [str[pos]] as an unsigned value, [None] outside the buffer. *)
Definition byte_at (str : bytes) (pos : Z) : option Z :=
  if (0 <=? pos) && (pos <? size str)
  then option_map (fun b => Z.of_N (Byte.to_N b)) (nth_error str (Z.to_nat pos))
  else None.

(** [str.substr(from, count)] for [0 <= from <= size str]. *)
Definition substr (str : bytes) (from count : Z) : bytes :=
  firstn (Z.to_nat count) (skipn (Z.to_nat from) str).

(** [str.substr(from)]: everything from [from] on. *)
Definition substr_from (str : bytes) (from : Z) : bytes :=
  skipn (Z.to_nat from) str.

Definition literal (s : string) : bytes := list_byte_of_string s.

Definition ellipsis : bytes := literal "...".

(** ** The UTF-8 collaborator *)

Module Utf8.

(** The sentinel scalar of a failed decode ([invalidCp] in Font.cpp). *)
Definition invalidCp : Z := 0xFFFFFFFF.

Definition is_continuation (b : Z) : bool := Z.land b 0xC0 =? 0x80.

(** Number of bytes announced by a lead byte; 0 for a byte that cannot
    start a sequence. *)
Definition sequence_length (b0 : Z) : Z :=
  if Z.land b0 0x80 =? 0x00 then 1
  else if Z.land b0 0xE0 =? 0xC0 then 2
  else if Z.land b0 0xF0 =? 0xE0 then 3
  else if Z.land b0 0xF8 =? 0xF0 then 4
  else 0.

(** Payload bits of the lead byte of an [n]-byte sequence. *)
Definition lead_payload (n b0 : Z) : Z :=
  if n =? 1 then Z.land b0 0x7F
  else if n =? 2 then Z.land b0 0x1F
  else if n =? 3 then Z.land b0 0x0F
  else Z.land b0 0x07.

(** Reads [n] continuation bytes from [pos] on, shifting their six
    payload bits into [acc]; [None] if one is missing or malformed. *)
Fixpoint continuation (str : bytes) (n : nat) (pos acc : Z) : option (Z * Z) :=
  match n with
  | O => Some (acc, pos)
  | S n' =>
      match byte_at str pos with
      | Some b =>
          if is_continuation b
          then continuation str n' (pos + 1) (Z.lor (Z.shiftl acc 6) (Z.land b 0x3F))
          else None
      | None => None
      end
  end.

(** Modelled from the spec: Utf8.cpp, which defines
    [Utf8::DecodeCodePoint], is missing.  Given a byte offset the decoder
    returns the scalar value at that position and the offset of the next
    scalar boundary, for sequences of one to four bytes; on malformed
    input it signals the failure sentinel, a scalar that is no valid
    codepoint together with the offset [npos], which the caller treats
    as end of string.  The result is the pair (scalar, new offset). *)
Definition DecodeCodePoint (str : bytes) (pos : Z) : Z * Z :=
  match byte_at str pos with
  | None => (invalidCp, npos)
  | Some b0 =>
      let n := sequence_length b0 in
      if n =? 0 then (invalidCp, npos)
      else
        match continuation str (Z.to_nat (n - 1)) (pos + 1) (lead_payload n b0) with
        | Some (cp, pos') => (cp, pos')
        | None => (invalidCp, npos)
        end
  end.

(** Scans forward from [pos] to the first byte that is not a
    continuation byte, stopping at the end of the buffer. *)
Fixpoint skip_continuations (fuel : nat) (str : bytes) (pos : Z) : Z :=
  match fuel with
  | O => pos
  | S fuel' =>
      match byte_at str pos with
      | Some b => if is_continuation b then skip_continuations fuel' str (pos + 1) else pos
      | None => pos
      end
  end.

(** Modelled from the spec: Utf8.cpp, which defines
    [Utf8::NextCodePoint], is missing.  It advances an offset to the next
    scalar boundary: the offset of the first byte after [pos] that starts
    a scalar, or the size of the string when there is none; at or past
    the end it answers [npos]. *)
Definition NextCodePoint (str : bytes) (pos : Z) : Z :=
  if (0 <=? pos) && (pos <? size str)
  then skip_continuations (List.length str) str (pos + 1)
  else npos.

End Utf8.

(** Progress of the collaborator: what the loops below need in order to
    terminate. *)

Lemma byte_at_in_bounds (str : bytes) (pos b : Z) :
  byte_at str pos = Some b -> 0 <= pos < size str.
Proof.
  unfold byte_at.
  destruct (0 <=? pos) eqn:Hlo; destruct (pos <? size str) eqn:Hhi; simpl; try discriminate.
  intros _. apply Z.leb_le in Hlo. apply Z.ltb_lt in Hhi. lia.
Qed.

Lemma continuation_offset (str : bytes) (n : nat) :
  forall pos acc cp pos',
    Utf8.continuation str n pos acc = Some (cp, pos') ->
    pos' = pos + Z.of_nat n /\ (n <> O -> 0 <= pos /\ pos' <= size str).
Proof.
  induction n as [| n IH]; intros pos acc cp pos' H; simpl in H.
  - inversion H; subst. split; [lia | congruence].
  - destruct (byte_at str pos) as [b |] eqn:Hb; [| discriminate].
    destruct (Utf8.is_continuation b); [| discriminate].
    apply byte_at_in_bounds in Hb.
    apply IH in H. destruct H as [Hpos' Hin]. split; [lia |].
    intros _. destruct n as [| n']; [simpl in Hpos'; lia |].
    assert (S n' <> O) as Hn by discriminate. specialize (Hin Hn). lia.
Qed.

Lemma sequence_length_range (b0 : Z) : 0 <= Utf8.sequence_length b0 <= 4.
Proof.
  unfold Utf8.sequence_length.
  repeat match goal with
         | |- context [if ?b then _ else _] => destruct b
         end; lia.
Qed.

(** A decode from inside the buffer either fails, leaving [npos], or moves
    the offset forward and not past the end. *)
Lemma DecodeCodePoint_progress (str : bytes) (pos cp pos' : Z) :
  Utf8.DecodeCodePoint str pos = (cp, pos') ->
  pos' = npos \/ (0 <= pos /\ pos < pos' /\ pos' <= size str).
Proof.
  unfold Utf8.DecodeCodePoint.
  destruct (byte_at str pos) as [b0 |] eqn:Hb; [| intros H; inversion H; auto].
  apply byte_at_in_bounds in Hb.
  pose proof (sequence_length_range b0) as Hn.
  destruct (Z.eqb_spec (Utf8.sequence_length b0) 0) as [E | E]; [intros H; inversion H; auto |].
  destruct (Utf8.continuation str _ (pos + 1) _) as [[c p] |] eqn:Hc;
    [| intros H; inversion H; auto].
  intros H; inversion H; subst. right.
  apply continuation_offset in Hc. destruct Hc as [Hpos' Hin].
  destruct (Z.to_nat (Utf8.sequence_length b0 - 1)) as [| k] eqn:Hk.
  - simpl in Hpos'. lia.
  - assert (S k <> O) as Hne by discriminate. specialize (Hin Hne). lia.
Qed.

Lemma skip_continuations_forward (fuel : nat) (str : bytes) :
  forall pos, pos <= Utf8.skip_continuations fuel str pos.
Proof.
  induction fuel as [| fuel IH]; intros pos; simpl; [lia |].
  destruct (byte_at str pos) as [b |]; [| lia].
  destruct (Utf8.is_continuation b); [| lia].
  specialize (IH (pos + 1)). lia.
Qed.

Lemma NextCodePoint_progress (str : bytes) (pos : Z) :
  pos < size str -> pos < Utf8.NextCodePoint str pos.
Proof.
  intros Hpos. unfold Utf8.NextCodePoint.
  destruct (0 <=? pos) eqn:Hlo; simpl.
  - apply Z.ltb_lt in Hpos. rewrite Hpos.
    pose proof (skip_continuations_forward (List.length str) str (pos + 1)). lia.
  - apply Z.leb_gt in Hlo. unfold npos. lia.
Qed.

(** ** The font object *)

(** Modelled from the spec: Font.h, which declares the two roster sizes, is
    missing.  The extended roster has the 167 glyphs that [LoadFromTtf]
    lists.  The basic Latin roster has the first 98 of them: the 95
    printable ASCII glyphs in the slots 0 to 94, a placeholder, and the two
    opening quotes in the slots 96 and 97 that the resolver answers. *)
Definition GLYPHS : Z := 98.
Definition GLYPHS_EXTENDED : Z := 167.

(** The members of [Font] that the advance table computer writes and that
    measuring reads. *)
Record Font : Type := mkFont {
  glyphCount : Z;
  advance : list Z;
  height : Z;
  space : Z
}.

(** Modelled from the spec: Preferences.h is missing.  Measuring reads two
    plain values of the preferences: a constant letter spacing added per
    glyph, and a font scale, a percentage taken here as an integer. *)
Record Preferences : Type := mkPreferences {
  LetterSpacing : Z;
  FontScale : Z
}.

(** ** The codepoint resolver *)

Definition SubstituteUnsupported (codepoint : Z) : Z :=
  if codepoint =? 0x00A0 then 0x0020
  else if codepoint =? 0x2009 then 0x0020
  else if (codepoint =? 0x2010) || (codepoint =? 0x2011)
          || (codepoint =? 0x2012) || (codepoint =? 0x2013) then 0x002D
  else if (codepoint =? 0x2019) || (codepoint =? 0x201A) || (codepoint =? 0x201B) then 0x0027
  else if (codepoint =? 0x201D) || (codepoint =? 0x201E) || (codepoint =? 0x201F) then 0x0022
  else if (codepoint =? 0x2026) || (codepoint =? 0x2033) || (codepoint =? 0x2036) then 0x0020
  else 0.

(** The block guarded by [glyphCount == GLYPHS_EXTENDED]; [None] when no
    [return] of the block is taken and control falls through. *)
Definition extended_glyph (codepoint : Z) : option Z :=
  if (0x0410 <=? codepoint) && (codepoint <=? 0x042F) then Some (98 + (codepoint - 0x0410))
  else if codepoint =? 0x0401 then Some 130
  else if (0x0430 <=? codepoint) && (codepoint <=? 0x044F) then Some (131 + (codepoint - 0x0430))
  else if codepoint =? 0x0451 then Some 163
  else if codepoint =? 0x2014 then Some 164
  else if codepoint =? 0x00AB then Some 165
  else if codepoint =? 0x00BB then Some 166
  else None.

(** How many substitutions a codepoint can still go through. *)
Definition substitution_depth (codepoint : Z) : nat :=
  if SubstituteUnsupported codepoint =? 0 then 0%nat else 1%nat.

Lemma SubstituteUnsupported_is_ascii (codepoint : Z) :
  SubstituteUnsupported codepoint = 0 \/
  SubstituteUnsupported codepoint = 0x20 \/
  SubstituteUnsupported codepoint = 0x2D \/
  SubstituteUnsupported codepoint = 0x27 \/
  SubstituteUnsupported codepoint = 0x22.
Proof.
  unfold SubstituteUnsupported.
  repeat match goal with
         | |- context [if ?b then _ else _] => destruct b
         end; auto.
Qed.

Lemma substitution_depth_decreases (codepoint : Z) :
  SubstituteUnsupported codepoint <> 0 ->
  (substitution_depth (SubstituteUnsupported codepoint) < substitution_depth codepoint)%nat.
Proof.
  intros Hsub. unfold substitution_depth at 2.
  destruct (Z.eqb_spec (SubstituteUnsupported codepoint) 0) as [E | _]; [contradiction |].
  destruct (SubstituteUnsupported_is_ascii codepoint) as [E | [E | [E | [E | E]]]];
    rewrite E in *; try contradiction; vm_compute; lia.
Qed.

Equations GlyphForCodepoint (f : Font) (codepoint : Z) (isAfterSpace : bool) : Z
  by wf (substitution_depth codepoint) lt :=
GlyphForCodepoint f codepoint isAfterSpace :=
  if ((codepoint =? 0x27) || (codepoint =? 0x2018)) && isAfterSpace then 96
  else if ((codepoint =? 0x22) || (codepoint =? 0x201C)) && isAfterSpace then 97
  else if (32 <=? codepoint) && (codepoint <=? 126)
  then Z.max 0 (Z.min (glyphCount f - 3) (codepoint - 32))
  else
    match (if glyphCount f =? GLYPHS_EXTENDED then extended_glyph codepoint else None) with
    | Some glyph => glyph
    | None =>
        if negb (codepoint =? Utf8.invalidCp)
        then
          match Z.eq_dec (SubstituteUnsupported codepoint) 0 with
          | left _ => 0
          | right Hsub => GlyphForCodepoint f (SubstituteUnsupported codepoint) isAfterSpace
          end
        else 0
    end.
Next Obligation.
  apply substitution_depth_decreases; assumption.
Qed.

(** ** Measuring: [Font::WidthRawString] *)

(** [advance[i]]; the model answers 0 outside the table, where the source
    has no defined behaviour. *)
Definition advance_at (f : Font) (i : Z) : Z :=
  if (0 <=? i) && (i <? Z.of_nat (List.length (advance f)))
  then nth (Z.to_nat i) (advance f) 0
  else 0.

(** The index [previous * glyphCount + glyph] of a table access. *)
Definition advance_index (f : Font) (previous glyph : Z) : Z :=
  previous * glyphCount f + glyph.

(** The flag update shared by the measuring and the drawing loop: unless
    [cp] is the ASCII double quote 0x22 or the ASCII apostrophe 0x27, the
    flag becomes [!glyph]. *)
Definition track_isAfterSpace (cp glyph : Z) (isAfterSpace : bool) : bool :=
  if negb (cp =? 0x22) && negb (cp =? 0x27) then (glyph =? 0) else isAfterSpace.

(** The local variables of the measuring loop. *)
Record MeasureState : Type := mkMeasureState {
  m_width : Z;
  m_previous : Z;
  m_isAfterSpace : bool;
  m_pos : Z
}.

Definition WidthRawString_init : MeasureState := mkMeasureState 0 0 true 0.

(** The loop body after a successful decode of [cp] that left the offset
    at [pos]. *)
Definition WidthRawString_body (f : Font) (prefs : Preferences)
    (st : MeasureState) (cp pos : Z) : MeasureState :=
  if cp =? 0x5F then mkMeasureState (m_width st) (m_previous st) (m_isAfterSpace st) pos
  else
    let glyph := GlyphForCodepoint f cp (m_isAfterSpace st) in
    let isAfterSpace := track_isAfterSpace cp glyph (m_isAfterSpace st) in
    if glyph =? 0
    then mkMeasureState (int32 (m_width st + space f)) (m_previous st) isAfterSpace pos
    else mkMeasureState
           (int32 (m_width st
                   + int32 (advance_at f (advance_index f (m_previous st) glyph)
                            + LetterSpacing prefs)))
           glyph isAfterSpace pos.

(** One turn of [while(pos < str.size())]: [None] when the loop is left,
    by its test or by the [break] on a failed decode. *)
Definition WidthRawString_step (f : Font) (prefs : Preferences) (str : bytes)
    (st : MeasureState) : option MeasureState :=
  if m_pos st <? size str
  then
    let '(cp, pos) := Utf8.DecodeCodePoint str (m_pos st) in
    if pos =? npos then None else Some (WidthRawString_body f prefs st cp pos)
  else None.

Lemma WidthRawString_body_pos f prefs st cp pos :
  m_pos (WidthRawString_body f prefs st cp pos) = pos.
Proof.
  unfold WidthRawString_body.
  destruct (cp =? 0x5F); [reflexivity |].
  destruct (GlyphForCodepoint f cp (m_isAfterSpace st) =? 0); reflexivity.
Qed.

Lemma WidthRawString_step_progress f prefs str st st' :
  WidthRawString_step f prefs str st = Some st' ->
  0 <= m_pos st /\ m_pos st < m_pos st' /\ m_pos st' <= size str.
Proof.
  unfold WidthRawString_step.
  destruct (m_pos st <? size str); [| discriminate].
  destruct (Utf8.DecodeCodePoint str (m_pos st)) as [cp pos] eqn:Hd.
  destruct (Z.eqb_spec pos npos) as [E | E]; [discriminate |].
  intros H; inversion H; subst. rewrite WidthRawString_body_pos.
  apply DecodeCodePoint_progress in Hd. destruct Hd as [Hd | Hd]; [contradiction | exact Hd].
Qed.

Equations WidthRawString_loop (f : Font) (prefs : Preferences) (str : bytes)
    (st : MeasureState) : MeasureState
  by wf (Z.to_nat (size str - m_pos st)) lt :=
WidthRawString_loop f prefs str st with inspect (WidthRawString_step f prefs str st) := {
  | exist _ (Some st') Hstep => WidthRawString_loop f prefs str st';
  | exist _ None _ => st }.
Next Obligation.
  apply WidthRawString_step_progress in Hstep. lia.
Qed.

(** The scaling [static_cast<int>(width * FontScale() / 100.)].  The
    product is one of two [int]s; the division is a floating-point one and
    the cast drops the fraction: for an integer of the size of an [int] the
    result is the exact quotient rounded toward zero. *)
Definition scale_width (prefs : Preferences) (width : Z) : Z :=
  Z.quot (int32 (width * FontScale prefs)) 100.

Definition WidthRawString (f : Font) (prefs : Preferences) (str : bytes) (after : Z) : Z :=
  let st := WidthRawString_loop f prefs str WidthRawString_init in
  let afterGlyph := if (32 <=? after) && (after <=? 126) then after - 32 else 0 in
  let width :=
    int32 (m_width st
           + advance_at f (advance_index f (m_previous st)
                             (Z.max 0 (Z.min (glyphCount f - 1) afterGlyph)))) in
  scale_width prefs width.

(** ** Drawing: the loop of [Font::DrawAliased]

    The text position is a float and the draw calls go to the GPU; the
    model keeps the integer and boolean locals and lists, in [d_drawn], the
    glyph index of every quad submitted. *)

Record DrawState : Type := mkDrawState {
  d_previous : Z;
  d_isAfterSpace : bool;
  d_underlineChar : bool;
  d_pos : Z;
  d_drawn : list Z
}.

Definition DrawAliased_init : DrawState := mkDrawState 0 true false 0 [].

Definition DrawAliased_body (f : Font) (showUnderlines : bool)
    (st : DrawState) (cp pos : Z) : DrawState :=
  let underscoreGlyph := Z.max 0 (Z.min (glyphCount f - 1) (0x5F - 32)) in
  if cp =? 0x5F
  then mkDrawState (d_previous st) (d_isAfterSpace st) showUnderlines pos (d_drawn st)
  else
    let glyph := GlyphForCodepoint f cp (d_isAfterSpace st) in
    let isAfterSpace := track_isAfterSpace cp glyph (d_isAfterSpace st) in
    if glyph =? 0
    then mkDrawState (d_previous st) isAfterSpace (d_underlineChar st) pos (d_drawn st)
    else
      if d_underlineChar st
      then mkDrawState glyph isAfterSpace false pos (d_drawn st ++ [glyph; underscoreGlyph])
      else mkDrawState glyph isAfterSpace false pos (d_drawn st ++ [glyph]).

Definition DrawAliased_step (f : Font) (showUnderlines : bool) (str : bytes)
    (st : DrawState) : option DrawState :=
  if d_pos st <? size str
  then
    let '(cp, pos) := Utf8.DecodeCodePoint str (d_pos st) in
    if pos =? npos then None else Some (DrawAliased_body f showUnderlines st cp pos)
  else None.

(** ** Counting and cutting by code points *)

(** The loop of [CountCodePoints], from the state [(count, pos)]. *)
Equations CountCodePoints_loop (str : bytes) (count pos : Z) : Z
  by wf (Z.to_nat (size str - pos)) lt :=
CountCodePoints_loop str count pos with inspect ((pos <? size str) && negb (pos =? npos)) := {
  | exist _ true Htest => CountCodePoints_loop str (count + 1) (Utf8.NextCodePoint str pos);
  | exist _ false _ => count }.
Next Obligation.
  apply andb_prop in Htest. destruct Htest as [Hlt _]. apply Z.ltb_lt in Hlt.
  pose proof (NextCodePoint_progress str pos Hlt). lia.
Qed.

Definition CountCodePoints (str : bytes) : Z := CountCodePoints_loop str 0 0.

(** The [for] loop of [ByteOffsetAfterCodePoints] with [todo] turns left. *)
Fixpoint ByteOffset_loop (str : bytes) (todo : nat) (pos : Z) : Z :=
  match todo with
  | O => pos
  | S todo' =>
      if negb (pos =? npos) && (pos <? size str)
      then ByteOffset_loop str todo' (Utf8.NextCodePoint str pos)
      else pos
  end.

Definition ByteOffsetAfterCodePoints (str : bytes) (n : Z) : Z :=
  let pos := ByteOffset_loop str (Z.to_nat n) 0 in
  if (pos =? npos) || (pos >? size str) then size str else pos.

Definition SubstringFirstCodePoints (str : bytes) (n : Z) : bytes :=
  substr str 0 (ByteOffsetAfterCodePoints str n).

Definition SubstringLastCodePoints (str : bytes) (n : Z) : bytes :=
  let total := CountCodePoints str in
  if total <=? n then str
  else substr_from str (ByteOffsetAfterCodePoints str (total - n)).

(** ** Truncation *)

(** The three [getResultString] closures. *)
Definition TruncateBack_result (str : bytes) (charCount : Z) : bytes :=
  SubstringFirstCodePoints str charCount ++ ellipsis.

Definition TruncateFront_result (str : bytes) (charCount : Z) : bytes :=
  ellipsis ++ SubstringLastCodePoints str charCount.

Definition TruncateMiddle_result (str : bytes) (charCount : Z) : bytes :=
  SubstringFirstCodePoints str (Z.quot (charCount + 1) 2) ++ ellipsis
    ++ SubstringLastCodePoints str (Z.quot charCount 2).

(** The local variables of the search loop. *)
Record SearchState : Type := mkSearchState {
  workingChars : Z;
  workingWidth : Z;
  low : Z;
  high : Z
}.

(** One turn of [while(low <= high)], with [trialWidth nextChars] standing
    for [WidthRawString(getResultString(str, nextChars))]; [None] when the
    loop is left. *)
Definition search_step (trialWidth : Z -> Z) (width : Z) (s : SearchState)
    : option SearchState :=
  if low s <=? high s
  then
    let nextChars := Z.quot (low s + high s) 2 in
    let nextWidth := trialWidth nextChars in
    if nextWidth <=? width
    then
      let lowNext := nextChars + (if nextChars =? low s then 1 else 0) in
      if nextChars >? workingChars s
      then Some (mkSearchState nextChars nextWidth lowNext (high s))
      else Some (mkSearchState (workingChars s) (workingWidth s) lowNext (high s))
    else Some (mkSearchState (workingChars s) (workingWidth s) (low s) (nextChars - 1))
  else None.

Lemma midpoint_between (lo hi : Z) : lo <= hi -> lo <= Z.quot (lo + hi) 2 <= hi.
Proof.
  intros H.
  pose proof (Z.quot_rem' (lo + hi) 2) as E.
  destruct (Z_le_gt_dec 0 (lo + hi)) as [Hs | Hs].
  - pose proof (Z.rem_bound_pos (lo + hi) 2 Hs ltac:(lia)). lia.
  - pose proof (Z.rem_bound_pos_neg (lo + hi) 2 ltac:(lia) ltac:(lia)). lia.
Qed.

Lemma search_step_bracket trialWidth width s s' :
  search_step trialWidth width s = Some s' ->
  low s <= high s /\ low s <= low s' /\ high s' <= high s /\
  (low s < low s' \/ high s' < high s) /\ low s' <= high s' + 1.
Proof.
  unfold search_step.
  destruct (Z.leb_spec (low s) (high s)) as [Hle | Hgt]; [| discriminate].
  pose proof (midpoint_between _ _ Hle) as Hmid.
  destruct (trialWidth _ <=? width).
  - destruct (Z.eqb_spec (Z.quot (low s + high s) 2) (low s)) as [E | E];
      destruct (_ >? workingChars s); intros H; inversion H; subst; simpl; lia.
  - intros H; inversion H; subst; simpl; lia.
Qed.

Equations search_loop (trialWidth : Z -> Z) (width : Z) (s : SearchState) : SearchState
  by wf (Z.to_nat (high s - low s + 1)) lt :=
search_loop trialWidth width s with inspect (search_step trialWidth width s) := {
  | exist _ (Some s') Hstep => search_loop trialWidth width s';
  | exist _ None _ => s }.
Next Obligation.
  apply search_step_bracket in Hstep. lia.
Qed.

(** Modelled from the spec: Truncate.h, Alignment.h and DisplayText.h are
    missing.  A layout request is a string plus a layout descriptor: a
    signed width budget (negative means unconstrained), a horizontal
    alignment and a truncation policy among NONE, FRONT, MIDDLE and BACK.
    The alignments are the three that Font.cpp names. *)
Inductive Truncate : Type := NONE | FRONT | MIDDLE | BACK.

Inductive Alignment : Type := LEFT | CENTER | RIGHT.

Module Layout.
Record t : Type := mk {
  width : Z;
  align : Alignment;
  truncate : Truncate
}.
End Layout.

Record DisplayText : Type := mkDisplayText {
  GetText : bytes;
  GetLayout : Layout.t
}.

Definition is_LEFT (a : Alignment) : bool :=
  match a with LEFT => true | _ => false end.

Definition is_NONE (p : Truncate) : bool :=
  match p with NONE => true | _ => false end.

Section Truncation.

Variable f : Font.
Variable prefs : Preferences.

(** The default value of the parameter [after] of [WidthRawString], which
    Font.h declares; the header is missing, so it stays a parameter. *)
Variable after : Z.

Definition TruncateEndsOrMiddle (str : bytes) (width : Z)
    (getResultString : bytes -> Z -> bytes) : bytes * Z :=
  let firstWidth := WidthRawString f prefs str after in
  if firstWidth <=? width then (str, firstWidth)
  else
    let codePointCount := CountCodePoints str in
    let s := search_loop
               (fun nextChars => WidthRawString f prefs (getResultString str nextChars) after)
               width (mkSearchState 0 0 0 codePointCount) in
    (getResultString str (workingChars s), workingWidth s).

Definition TruncateBack (str : bytes) (width : Z) : bytes * Z :=
  TruncateEndsOrMiddle str width TruncateBack_result.

Definition TruncateFront (str : bytes) (width : Z) : bytes * Z :=
  TruncateEndsOrMiddle str width TruncateFront_result.

Definition TruncateMiddle (str : bytes) (width : Z) : bytes * Z :=
  TruncateEndsOrMiddle str width TruncateMiddle_result.

(** [Font::TruncateText]: the string and the value left in [width]. *)
Definition TruncateText (text : DisplayText) : bytes * Z :=
  let layout := GetLayout text in
  let str := GetText text in
  if (Layout.width layout <? 0)
     || (is_LEFT (Layout.align layout) && is_NONE (Layout.truncate layout))
  then (str, -1)
  else
    match Layout.truncate layout with
    | NONE => (str, WidthRawString f prefs str after)
    | FRONT => TruncateFront str (Layout.width layout)
    | MIDDLE => TruncateMiddle str (Layout.width layout)
    | BACK => TruncateBack str (Layout.width layout)
    end.

End Truncation.

(** ** The advance table computer: [Font::CalculateAdvances] *)

Record ImageBuffer : Type := mkImageBuffer {
  Width : Z;
  Height : Z;
  Pixels : list Z
}.

(** [image.Pixels()[i]]; the model answers 0 outside the buffer. *)
Definition pixel_at (image : ImageBuffer) (i : Z) : Z :=
  if 0 <=? i then nth (Z.to_nat i) (Pixels image) 0 else 0.

Definition mask : Z := 0xFF000000.
Definition half : Z := 0xC0000000.

Definition empty_pixel (image : ImageBuffer) (i : Z) : bool :=
  Z.land (pixel_at image i) mask <? half.

(** The scan for the last inked pixel of a cell: while [pit != pend],
    step [pit] back and stop on a pixel whose masked value reaches [half].
    [pit] starts [todo] pixels after [pend]; the result is [pit - pend] at
    the exit. *)
Fixpoint last_ink (image : ImageBuffer) (pend : Z) (todo : nat) : Z :=
  match todo with
  | O => 0
  | S todo' =>
      if empty_pixel image (pend + Z.of_nat todo')
      then last_ink image pend todo'
      else Z.of_nat todo'
  end.

(** The scan for the first inked pixel of a cell: while [nit != nend],
    read the pixel at [nit], step [nit] forward and stop if the masked
    value reaches [half].  [nit] is at [start + off] with [todo] pixels
    before [nend]; the result is [nit - start] at the exit. *)
Fixpoint first_ink (image : ImageBuffer) (start : Z) (todo : nat) (off : Z) : Z :=
  match todo with
  | O => off
  | S todo' =>
      if empty_pixel image (start + off)
      then first_ink image start todo' (off + 1)
      else off + 1
  end.

(** The integers [lo, lo + 1, ..., hi - 1] a [for] loop runs through. *)
Definition Zrange (lo hi : Z) : list Z :=
  map (fun i => lo + Z.of_nat i) (seq 0 (Z.to_nat (hi - lo))).

(** The locals [maxD], [glyphWidth] and [begin] of the loop over rows. *)
Record RowState : Type := mkRowState {
  maxD : Z;
  glyphWidth : Z;
  begin : Z
}.

(** One row of the scan of the pair ([previous], [next]). *)
Definition scan_row (image : ImageBuffer) (width pitch previous next : Z)
    (r : RowState) : RowState :=
  let pend := begin r + previous * width in
  let distance := last_ink image pend (Z.to_nat width) + 1 in
  let glyphWidth' := Z.max distance (glyphWidth r) in
  let distance' :=
    if negb (next =? 0)
    then distance + (1 - first_ink image (begin r + next * width) (Z.to_nat width) 0)
    else distance in
  mkRowState (Z.max (maxD r) distance') glyphWidth' (begin r + pitch).

(** The value stored for the pair ([previous], [next]). *)
Definition pair_advance (image : ImageBuffer) (width previous next : Z) : Z :=
  let r := fold_left (fun r _ => scan_row image width (Width image) previous next r)
             (Zrange 0 (Height image)) (mkRowState 0 0 0) in
  Z.quot (Z.max (maxD r) (glyphWidth r - 4)) 2.

(** [v[i] = x]; nothing is stored outside the vector. *)
Fixpoint vector_set (v : list Z) (i : nat) (x : Z) : list Z :=
  match v, i with
  | [], _ => []
  | _ :: v', O => x :: v'
  | y :: v', S i' => y :: vector_set v' i' x
  end.

Definition fill_row (image : ImageBuffer) (width glyphCountParam : Z)
    (table : list Z) (previous : Z) : list Z :=
  fold_left
    (fun table next =>
       vector_set table (Z.to_nat (previous * glyphCountParam + next))
         (pair_advance image width previous next))
    (Zrange 0 glyphCountParam) table.

(** [CalculateAdvances] on a font whose other members are [font].  The
    division [image.Width() / glyphCountParam] has no defined result for a
    glyph count of zero, where the model answers [None]. *)
Definition CalculateAdvances (font : Font) (image : ImageBuffer) (glyphCountParam : Z)
    : option Font :=
  if glyphCountParam =? 0 then None
  else
    let width := Z.quot (Width image) glyphCountParam in
    let zeros := repeat 0 (Z.to_nat (glyphCountParam * glyphCountParam)) in
    let table := fold_left (fill_row image width glyphCountParam)
                   (Zrange 1 glyphCountParam) zeros in
    let width' := Z.quot width 2 in
    Some (mkFont (glyphCount font) table
            (Z.quot (Height image) 2) (Z.quot (width' + 3) 6 + 1)).

(** [Font::Load] once the image has been read. *)
Definition Load (font : Font) (image : ImageBuffer) : option Font :=
  CalculateAdvances (mkFont GLYPHS (advance font) (height font) (space font)) image GLYPHS.

(** ** Further members of [Font]

    The resolver for a single [char], the roster that [LoadFromTtf]
    rasterizes, the width of a layout, the alignment and the drawing loop. *)

(** [Font::Glyph], the resolver for a single [char]. *)
Definition Glyph (c : Z) (isAfterSpace : bool) : Z :=
  if (c =? 0x27) && isAfterSpace then 96
  else if (c =? 0x22) && isAfterSpace then 97
  else Z.max 0 (Z.min (GLYPHS - 3) (c - 32)).

(** The vector [codepoints] that [Font::LoadFromTtf] fills: the codepoint
    rasterized into each slot of the extended atlas. *)
Definition codepoints : list Z :=
  Zrange 32 127 ++ [63; 0x2018; 0x201C]
    ++ Zrange 0x0410 0x0430 ++ [0x0401]
    ++ Zrange 0x0430 0x0450 ++ [0x0451; 0x2014; 0x00AB; 0x00BB].

(** [Font::FormattedWidth].  [after] is the default that [TruncateText]
    measures with and [after'] the argument of the call. *)
Definition FormattedWidth (f : Font) (prefs : Preferences) (after : Z)
    (text : DisplayText) (after' : Z) : Z :=
  let '(truncText, width) := TruncateText f prefs after text in
  if width <? 0 then WidthRawString f prefs truncText after' else width.

(** The amount that [Font::DrawAliased] adds to [x] for a layout whose
    truncation has left [width]. *)
Definition alignment_shift (layout : Layout.t) (width : Z) : Z :=
  if width >=? 0
  then
    match Layout.align layout with
    | CENTER => Z.quot (Layout.width layout - width) 2
    | RIGHT => Layout.width layout - width
    | LEFT => 0
    end
  else 0.

Lemma DrawAliased_body_pos f showUnderlines st cp pos :
  d_pos (DrawAliased_body f showUnderlines st cp pos) = pos.
Proof.
  unfold DrawAliased_body. cbv zeta.
  destruct (cp =? 0x5F); [reflexivity |].
  destruct (GlyphForCodepoint f cp (d_isAfterSpace st) =? 0); [reflexivity |].
  destruct (d_underlineChar st); reflexivity.
Qed.

Lemma DrawAliased_step_progress f showUnderlines str st st' :
  DrawAliased_step f showUnderlines str st = Some st' ->
  0 <= d_pos st /\ d_pos st < d_pos st' /\ d_pos st' <= size str.
Proof.
  unfold DrawAliased_step.
  destruct (d_pos st <? size str); [| discriminate].
  destruct (Utf8.DecodeCodePoint str (d_pos st)) as [cp pos] eqn:Hd.
  destruct (Z.eqb_spec pos npos) as [E | E]; [discriminate |].
  intros H; inversion H; subst. rewrite DrawAliased_body_pos.
  apply DecodeCodePoint_progress in Hd. destruct Hd as [Hd | Hd]; [contradiction | exact Hd].
Qed.

(** The [while] loop of [Font::DrawAliased] from the state [st]. *)
Equations DrawAliased_loop (f : Font) (showUnderlines : bool) (str : bytes)
    (st : DrawState) : DrawState
  by wf (Z.to_nat (size str - d_pos st)) lt :=
DrawAliased_loop f showUnderlines str st with inspect (DrawAliased_step f showUnderlines str st) := {
  | exist _ (Some st') Hstep => DrawAliased_loop f showUnderlines str st';
  | exist _ None _ => st }.
Next Obligation.
  apply DrawAliased_step_progress in Hstep. lia.
Qed.

(** ** The atlas that [Font::LoadFromTtf] builds

    The rasterizer is a library: the box and the coverage bitmap that it
    answers for a glyph are inputs of the model. *)

Module VerticalPlacement.
Inductive t : Type := BOTTOM | MIDDLE | TOP.
End VerticalPlacement.

(** [GlyphVerticalPlacement]: the [switch] over the codepoint. *)
Definition GlyphVerticalPlacement (codepoint : Z) : VerticalPlacement.t :=
  if existsb (Z.eqb codepoint)
       [0x002B; 0x003D; 0x002A; 0x002F; 0x005C; 0x007C; 0x003C; 0x003E; 0x007E; 0x002D;
        0x2010; 0x2011; 0x2012; 0x2013; 0x2014; 0x00AB; 0x00BB; 0x2039; 0x203A; 0x00B7;
        0x2022; 0x2219]
  then VerticalPlacement.MIDDLE
  else if existsb (Z.eqb codepoint)
       [0x0027; 0x0022; 0x0060; 0x005E; 0x00B4; 0x00A8; 0x00AF; 0x02BC; 0x02C7; 0x02CA;
        0x02CB; 0x02DC; 0x2018; 0x2019; 0x201A; 0x201B; 0x201C; 0x201D; 0x201E; 0x201F;
        0x2032; 0x2033]
  then VerticalPlacement.TOP
  else VerticalPlacement.BOTTOM.

(** [round(n / 2.)] for an integer [n]: halves go away from zero. *)
Definition round_half (n : Z) : Z := Z.quot (n + Z.sgn n) 2.

(** The locals [w], [h], [dx] and [dy] with which a glyph is copied. *)
Record Placement : Type := mkPlacement {
  p_w : Z;
  p_h : Z;
  p_dx : Z;
  p_dy : Z
}.

Definition cellW (pixelHeight : Z) : Z := pixelHeight * 2.
Definition cellH (pixelHeight : Z) : Z := pixelHeight * 2.
Definition atlasW (pixelHeight : Z) : Z := GLYPHS_EXTENDED * cellW pixelHeight.
Definition atlasH (pixelHeight : Z) : Z := cellH pixelHeight.

(** The body of the loop over the roster up to the copy, for the glyph of
    slot [i] whose bitmap box is [boxW] wide and [boxH] high; [None] is the
    [continue] on an empty box.  The source computes [dx] from the unsigned
    index [i]: the model follows it for a slot and a pixel height that are
    not negative, where nothing wraps around. *)
Definition place_glyph (pixelHeight i codepoint boxW boxH : Z) : option Placement :=
  if (boxW <=? 0) || (boxH <=? 0) then None
  else
    let w := if boxW >? cellW pixelHeight then cellW pixelHeight else boxW in
    let h := if boxH >? cellH pixelHeight then cellH pixelHeight else boxH in
    let dx := i * cellW pixelHeight + Z.quot (cellW pixelHeight - w) 2 in
    let bottomAnchor := cellH pixelHeight in
    let middleAnchor := bottomAnchor - Z.quot (cellH pixelHeight) 2 in
    let topAnchor := bottomAnchor - cellH pixelHeight in
    let dy :=
      match GlyphVerticalPlacement codepoint with
      | VerticalPlacement.BOTTOM => bottomAnchor - h
      | VerticalPlacement.MIDDLE => round_half (middleAnchor * 2 - h)
      | VerticalPlacement.TOP => topAnchor
      end in
    let dy' := dy - Z.quot (cellH pixelHeight) 2 in
    Some (mkPlacement w h dx (Z.max 0 (Z.min (cellH pixelHeight - h) dy'))).

(** The index read in [temp] and the index written in [pixels]. *)
Definition temp_index (pixelHeight x y : Z) : Z := y * cellW pixelHeight + x.

Definition pixel_index (pixelHeight : Z) (p : Placement) (x y : Z) : Z :=
  (p_dy p + y) * atlasW pixelHeight + (p_dx p + x).

(** The pixel stored for the coverage [a]. *)
Definition gray_pixel (a : Z) : Z :=
  Z.lor (Z.lor (Z.lor (Z.shiftl a 24) (Z.shiftl a 16)) (Z.shiftl a 8)) a.

(** [pixels[i] = x]; the model stores nothing for an index outside the
    buffer, where the source has no defined behaviour. *)
Definition store (pixels : list Z) (i x : Z) : list Z :=
  if 0 <=? i then vector_set pixels (Z.to_nat i) x else pixels.

(** The two nested loops that copy [temp] into the atlas. *)
Definition blit_row (pixelHeight : Z) (temp : list Z) (p : Placement)
    (pixels : list Z) (y : Z) : list Z :=
  fold_left
    (fun pixels x =>
       store pixels (pixel_index pixelHeight p x y)
         (gray_pixel (nth (Z.to_nat (temp_index pixelHeight x y)) temp 0)))
    (Zrange 0 (p_w p)) pixels.

Definition blit (pixelHeight : Z) (temp : list Z) (p : Placement) (pixels : list Z)
    : list Z :=
  fold_left (blit_row pixelHeight temp p) (Zrange 0 (p_h p)) pixels.

(** ** Translation.cpp: the reader of the string tables *)

(** [static_cast<char>(v)]: the low eight bits of [v]. *)
Definition char_of (v : Z) : byte :=
  match Byte.of_N (Z.to_N (v mod 256)) with
  | Some b => b
  | None => x00
  end.

(** [AppendUtf8FromCodePoint]: the string [out] after the call. *)
Definition AppendUtf8FromCodePoint (out : bytes) (cp : Z) : bytes :=
  if cp <=? 0x7F then out ++ [char_of cp]
  else if cp <=? 0x7FF
  then out ++ [char_of (Z.lor 0xC0 (Z.shiftr cp 6));
               char_of (Z.lor 0x80 (Z.land cp 0x3F))]
  else if cp <=? 0xFFFF
  then out ++ [char_of (Z.lor 0xE0 (Z.shiftr cp 12));
               char_of (Z.lor 0x80 (Z.land (Z.shiftr cp 6) 0x3F));
               char_of (Z.lor 0x80 (Z.land cp 0x3F))]
  else if cp <=? 0x10FFFF
  then out ++ [char_of (Z.lor 0xF0 (Z.shiftr cp 18));
               char_of (Z.lor 0x80 (Z.land (Z.shiftr cp 12) 0x3F));
               char_of (Z.lor 0x80 (Z.land (Z.shiftr cp 6) 0x3F));
               char_of (Z.lor 0x80 (Z.land cp 0x3F))]
  else out.

(** The value [d] of the character [h] read as a hexadecimal digit;
    [None] is the [break] of the loop over the four digits. *)
Definition hex_digit (h : Z) : option Z :=
  if (0x30 <=? h) && (h <=? 0x39) then Some (h - 0x30)
  else if (0x61 <=? h) && (h <=? 0x66) then Some (h - 0x61 + 10)
  else if (0x41 <=? h) && (h <=? 0x46) then Some (h - 0x41 + 10)
  else None.

(** The loop [for(int i = 0; i < 4 && pos < in.length(); ++i)] with [todo]
    turns left: the offset and the value [cp] at its exit. *)
Fixpoint hex_loop (input : bytes) (todo : nat) (pos cp : Z) : Z * Z :=
  match todo with
  | O => (pos, cp)
  | S todo' =>
      match byte_at input pos with
      | None => (pos, cp)
      | Some h =>
          match hex_digit h with
          | Some d => hex_loop input todo' (pos + 1) (Z.lor (Z.shiftl cp 4) d)
          | None => (pos, cp)
          end
      end
  end.

(** [DecodeEscapeSequence]: the offset and the string [out] after the
    call. *)
Definition DecodeEscapeSequence (input : bytes) (pos : Z) (out : bytes) : Z * bytes :=
  match byte_at input pos with
  | None => (pos, out)
  | Some c =>
      if c =? 0x22 then (pos + 1, out ++ [x22])
      else if c =? 0x5C then (pos + 1, out ++ [x5c])
      else if c =? 0x2F then (pos + 1, out ++ [x2f])
      else if c =? 0x62 then (pos + 1, out ++ [x08])
      else if c =? 0x66 then (pos + 1, out ++ [x0c])
      else if c =? 0x6E then (pos + 1, out ++ [x0a])
      else if c =? 0x72 then (pos + 1, out ++ [x0d])
      else if c =? 0x74 then (pos + 1, out ++ [x09])
      else if c =? 0x75
      then
        let '(pos', cp) := hex_loop input 4 (pos + 1) 0 in
        (pos', AppendUtf8FromCodePoint out cp)
      else (pos + 1, out ++ [char_of c])
  end.

Lemma hex_loop_pos (input : bytes) (todo : nat) :
  forall pos cp, pos <= fst (hex_loop input todo pos cp).
Proof.
  induction todo as [| todo IH]; intros pos cp; cbn [hex_loop fst]; [lia |].
  destruct (byte_at input pos) as [h |]; cbn [fst]; [| lia].
  destruct (hex_digit h) as [d |]; cbn [fst]; [| lia].
  specialize (IH (pos + 1) (Z.lor (Z.shiftl cp 4) d)). lia.
Qed.

Lemma DecodeEscapeSequence_pos (input : bytes) (pos : Z) (out : bytes) :
  pos <= fst (DecodeEscapeSequence input pos out).
Proof.
  unfold DecodeEscapeSequence.
  destruct (byte_at input pos) as [c |]; cbn [fst]; [| lia].
  repeat (match goal with |- context [if ?b then _ else _] => destruct b end;
          cbn [fst]; try lia).
  pose proof (hex_loop_pos input 4 (pos + 1) 0) as Hloop.
  destruct (hex_loop input 4 (pos + 1) 0) as [pos' cp]. cbn [fst] in *. lia.
Qed.

(** The four characters that the parser skips as white space. *)
Definition is_space (c : Z) : bool :=
  (c =? 0x20) || (c =? 0x09) || (c =? 0x0A) || (c =? 0x0D).

Definition is_space_or_comma (c : Z) : bool := is_space c || (c =? 0x2C).

(** Whether [while(pos < data.length() && skipped(data[pos]))] takes
    another turn. *)
Definition skip_test (skipped : Z -> bool) (data : bytes) (pos : Z) : bool :=
  match byte_at data pos with
  | Some c => skipped c
  | None => false
  end.

Lemma skip_test_progress (skipped : Z -> bool) (data : bytes) (pos : Z) :
  skip_test skipped data pos = true -> 0 <= pos < size data.
Proof.
  unfold skip_test. destruct (byte_at data pos) as [c |] eqn:Hc; [| discriminate].
  intros _. apply (byte_at_in_bounds data pos c Hc).
Qed.

(** The loops [while(... ) ++pos;]: the offset at the exit. *)
Equations skip_while (skipped : Z -> bool) (data : bytes) (pos : Z) : Z
  by wf (Z.to_nat (size data - pos)) lt :=
skip_while skipped data pos with inspect (skip_test skipped data pos) := {
  | exist _ true Htest => skip_while skipped data (pos + 1);
  | exist _ false _ => pos }.
Next Obligation.
  apply skip_test_progress in Htest. lia.
Qed.

(** What a turn of a parser loop does: it runs again from a new state, or
    the function returns. *)
Inductive Turn (State Result : Type) : Type :=
| Again (s : State)
| Return (r : Result).

Arguments Again {State Result} s.
Arguments Return {State Result} r.

(** One turn of the loop of [ParseJsonString] over the characters between
    the quotes; the result is the returned flag with [pos] and [out]. *)
Definition ParseJsonString_turn (data : bytes) (pos : Z) (out : bytes)
    : Turn (Z * bytes) (bool * Z * bytes) :=
  match byte_at data pos with
  | None => Return (false, pos, out)
  | Some c =>
      if c =? 0x22 then Return (true, pos + 1, out)
      else if c =? 0x5C then Again (DecodeEscapeSequence data (pos + 1) out)
      else Again (pos + 1, out ++ [char_of c])
  end.

Lemma ParseJsonString_turn_progress (data : bytes) (pos : Z) (out : bytes)
    (pos' : Z) (out' : bytes) :
  ParseJsonString_turn data pos out = Again (pos', out') ->
  0 <= pos < size data /\ pos < pos'.
Proof.
  unfold ParseJsonString_turn.
  destruct (byte_at data pos) as [c |] eqn:Hc; [| discriminate].
  pose proof (byte_at_in_bounds data pos c Hc) as Hpos.
  destruct (c =? 0x22); [discriminate |].
  destruct (c =? 0x5C); intros H; inversion H as [E]; clear H.
  - pose proof (DecodeEscapeSequence_pos data (pos + 1) out) as Hd.
    rewrite E in Hd. cbn [fst] in Hd. lia.
  - lia.
Qed.

Equations ParseJsonString_loop (data : bytes) (pos : Z) (out : bytes) : bool * Z * bytes
  by wf (Z.to_nat (size data - pos)) lt :=
ParseJsonString_loop data pos out with inspect (ParseJsonString_turn data pos out) := {
  | exist _ (Again (pos', out')) Hturn => ParseJsonString_loop data pos' out';
  | exist _ (Return r) _ => r }.
Next Obligation.
  apply ParseJsonString_turn_progress in Hturn. lia.
Qed.

(** [ParseJsonString]: the returned flag, the offset and the string [out]
    after the call. *)
Definition ParseJsonString (data : bytes) (pos : Z) : bool * Z * bytes :=
  let pos := skip_while is_space data pos in
  match byte_at data pos with
  | None => (false, pos, [])
  | Some c =>
      if c =? 0x22 then ParseJsonString_loop data (pos + 1) []
      else (false, pos, [])
  end.

Lemma skip_while_eq (skipped : Z -> bool) (data : bytes) (pos : Z) :
  skip_while skipped data pos =
  if skip_test skipped data pos then skip_while skipped data (pos + 1) else pos.
Proof.
  funelim (skip_while skipped data pos).
  - rewrite Htest. reflexivity.
  - rewrite e. reflexivity.
Qed.

Lemma skip_while_pos (skipped : Z -> bool) (data : bytes) (pos : Z) :
  pos <= skip_while skipped data pos.
Proof.
  funelim (skip_while skipped data pos); lia.
Qed.

Lemma ParseJsonString_loop_eq (data : bytes) (pos : Z) (out : bytes) :
  ParseJsonString_loop data pos out =
  match ParseJsonString_turn data pos out with
  | Again (pos', out') => ParseJsonString_loop data pos' out'
  | Return r => r
  end.
Proof.
  funelim (ParseJsonString_loop data pos out).
  - rewrite Hturn. reflexivity.
  - rewrite e. reflexivity.
Qed.

Lemma ParseJsonString_turn_return (data : bytes) (pos : Z) (out : bytes)
    (r : bool * Z * bytes) :
  ParseJsonString_turn data pos out = Return r -> pos <= snd (fst r).
Proof.
  unfold ParseJsonString_turn.
  destruct (byte_at data pos) as [c |]; [| intros [= <-]; cbn; lia].
  destruct (c =? 0x22); [intros [= <-]; cbn; lia |].
  destruct (c =? 0x5C); discriminate.
Qed.

Lemma ParseJsonString_loop_pos (data : bytes) (pos : Z) (out : bytes) :
  pos <= snd (fst (ParseJsonString_loop data pos out)).
Proof.
  funelim (ParseJsonString_loop data pos out).
  - pose proof (ParseJsonString_turn_progress _ _ _ _ _ Hturn). lia.
  - apply (ParseJsonString_turn_return data pos out r e).
Qed.

Lemma ParseJsonString_pos (data : bytes) (pos : Z) :
  pos <= snd (fst (ParseJsonString data pos)).
Proof.
  unfold ParseJsonString. cbv zeta.
  pose proof (skip_while_pos is_space data pos) as Hskip.
  destruct (byte_at data (skip_while is_space data pos)) as [c |]; [| cbn; lia].
  destruct (c =? 0x22); [| cbn; lia].
  pose proof (ParseJsonString_loop_pos data (skip_while is_space data pos + 1) []). lia.
Qed.

(** [std::map<string, string>] through the operations that the code uses:
    [find], the assignment [m[key] = value] and [clear] (the empty list).
    The pairs are kept in the order of their first assignment; no function
    embedded here depends on the order in which the container iterates. *)
Definition strings : Type := list (bytes * bytes).

Definition bytes_eqb (a b : bytes) : bool :=
  if list_eq_dec byte_eq_dec a b then true else false.

Fixpoint map_find (m : strings) (key : bytes) : option bytes :=
  match m with
  | [] => None
  | (k, v) :: m' => if bytes_eqb k key then Some v else map_find m' key
  end.

Fixpoint map_assign (m : strings) (key value : bytes) : strings :=
  match m with
  | [] => [(key, value)]
  | (k, v) :: m' =>
      if bytes_eqb k key then (k, value) :: m' else (k, v) :: map_assign m' key value
  end.

(** One turn of the loop [for(;;)] of [ParseFlatJson]; the result is the
    returned flag with the map [out]. *)
Definition ParseFlatJson_turn (data : bytes) (pos : Z) (out : strings)
    : Turn (Z * strings) (bool * strings) :=
  let pos1 := skip_while is_space_or_comma data pos in
  match byte_at data pos1 with
  | None => Return (false, out)
  | Some c =>
      if c =? 0x7D then Return (true, out)
      else
        let '(ok, pos2, key) := ParseJsonString data pos1 in
        if negb ok then Return (false, out)
        else
          let pos3 := skip_while is_space data pos2 in
          match byte_at data pos3 with
          | None => Return (false, out)
          | Some c' =>
              if negb (c' =? 0x3A) then Return (false, out)
              else
                let '(ok', pos4, value) := ParseJsonString data (pos3 + 1) in
                if negb ok' then Return (false, out)
                else Again (pos4, map_assign out key value)
          end
  end.

Lemma ParseFlatJson_turn_progress (data : bytes) (pos : Z) (out : strings)
    (pos' : Z) (out' : strings) :
  ParseFlatJson_turn data pos out = Again (pos', out') ->
  pos < size data /\ pos < pos'.
Proof.
  unfold ParseFlatJson_turn. cbv zeta.
  pose proof (skip_while_pos is_space_or_comma data pos) as H1.
  destruct (byte_at data (skip_while is_space_or_comma data pos)) as [c |]; [| discriminate].
  destruct (c =? 0x7D); [discriminate |].
  pose proof (ParseJsonString_pos data (skip_while is_space_or_comma data pos)) as H2.
  destruct (ParseJsonString data (skip_while is_space_or_comma data pos))
    as [[ok pos2] key]. cbn [fst snd] in H2.
  destruct ok; cbn [negb]; [| discriminate].
  pose proof (skip_while_pos is_space data pos2) as H3.
  destruct (byte_at data (skip_while is_space data pos2)) as [c' |] eqn:Hc'; [| discriminate].
  apply byte_at_in_bounds in Hc'.
  destruct (c' =? 0x3A); cbn [negb]; [| discriminate].
  pose proof (ParseJsonString_pos data (skip_while is_space data pos2 + 1)) as H4.
  destruct (ParseJsonString data (skip_while is_space data pos2 + 1))
    as [[ok' pos4] value]. cbn [fst snd] in H4.
  destruct ok'; cbn [negb]; [| discriminate].
  intros H; inversion H; subst. lia.
Qed.

Equations ParseFlatJson_loop (data : bytes) (pos : Z) (out : strings) : bool * strings
  by wf (Z.to_nat (size data - pos)) lt :=
ParseFlatJson_loop data pos out with inspect (ParseFlatJson_turn data pos out) := {
  | exist _ (Again (pos', out')) Hturn => ParseFlatJson_loop data pos' out';
  | exist _ (Return r) _ => r }.
Next Obligation.
  apply ParseFlatJson_turn_progress in Hturn. lia.
Qed.

(** [ParseFlatJson]: the returned flag and the map [out] after the call. *)
Definition ParseFlatJson (data : bytes) : bool * strings :=
  let pos := skip_while is_space data 0 in
  match byte_at data pos with
  | None => (false, [])
  | Some c =>
      if c =? 0x7B then ParseFlatJson_loop data (pos + 1) [] else (false, [])
  end.

(** [LoadInto]: the map [target] after the call.  The file system is an
    input: [files code] lists the contents of the [.json] files found
    under the directory of the language [code], none if there is no such
    directory.  The flag of [ParseFlatJson] is not read. *)
Definition LoadInto (files : bytes -> list bytes) (languageCode : bytes) : strings :=
  fold_left
    (fun target data =>
       fold_left (fun target p => map_assign target (fst p) (snd p))
         (snd (ParseFlatJson data)) target)
    (files languageCode) [].

(** The variables of the anonymous namespace of Translation.cpp. *)
Record Translation : Type := mkTranslation {
  currentLanguage : bytes;
  currentStrings : strings;
  fallbackStrings : strings;
  fallbackLoaded : bool
}.

(** The state in which the program starts. *)
Definition Translation_init : Translation := mkTranslation [] [] [] false.

(** [Translation::SetLanguage], which calls [Translation::Load]. *)
Definition SetLanguage (files : bytes -> list bytes) (t : Translation) (code : bytes)
    : Translation :=
  mkTranslation code (LoadInto files code) (fallbackStrings t) (fallbackLoaded t).

(** [Translation::Tr(key)]: the string returned and the variables after
    the call. *)
Definition Tr (files : bytes -> list bytes) (t : Translation) (key : bytes)
    : bytes * Translation :=
  match map_find (currentStrings t) key with
  | Some value => (value, t)
  | None =>
      let t' :=
        if negb (fallbackLoaded t) && negb (bytes_eqb (currentLanguage t) (literal "en"))
        then mkTranslation (currentLanguage t) (currentStrings t)
               (LoadInto files (literal "en")) true
        else t in
      match map_find (fallbackStrings t') key with
      | Some value => (value, t')
      | None => (key, t')
      end
  end.

(** The body shared by the functions that look a prefixed key up and
    answer [other] when [Tr] hands the key back. *)
Definition Tr_or (files : bytes -> list bytes) (t : Translation) (key other : bytes)
    : bytes * Translation :=
  let '(value, t') := Tr files t key in
  (if bytes_eqb value key then other else value, t').

(** The same with the test [value == key || value.empty()]. *)
Definition Tr_or_nonempty (files : bytes -> list bytes) (t : Translation)
    (key other : bytes) : bytes * Translation :=
  let '(value, t') := Tr files t key in
  (if bytes_eqb value key || (size value =? 0) then other else value, t').

Definition TrCategory files t (category : bytes) :=
  Tr_or files t (literal "category." ++ category) category.

Definition TrFormation files t (formationName : bytes) :=
  Tr_or files t (literal "formation." ++ formationName) formationName.

Definition TrGovernment files t (displayName : bytes) :=
  Tr_or files t (literal "government." ++ displayName) displayName.

Definition TrSeries files t (seriesName : bytes) :=
  Tr_or files t (literal "series." ++ seriesName) seriesName.

Definition TrStartName files t (identifier fallback : bytes) :=
  Tr_or files t (literal "start.name." ++ identifier) fallback.

Definition TrStartDescription files t (identifier fallback : bytes) :=
  Tr_or files t (literal "start.desc." ++ identifier) fallback.

Definition TrPhrase files t (phraseName fallback : bytes) :=
  Tr_or files t (literal "phrase." ++ phraseName) fallback.

Definition TrMissionDescription files t (identifier fallback : bytes) :=
  Tr_or files t (literal "mission.desc." ++ identifier) fallback.

Definition TrOutfitName files t (trueName fallback : bytes) :=
  Tr_or files t (literal "outfit.name." ++ trueName) fallback.

Definition TrOutfitDescription files t (trueName fallback : bytes) :=
  Tr_or files t (literal "outfit.desc." ++ trueName) fallback.

Definition TrOutfitPluralName files t (trueName fallback : bytes) :=
  Tr_or files t (literal "outfit.plural." ++ trueName) fallback.

Definition TrShipName files t (trueModelName fallback : bytes) :=
  Tr_or files t (literal "ship.name." ++ trueModelName) fallback.

Definition TrShipPluralName files t (trueModelName fallback : bytes) :=
  Tr_or files t (literal "ship.plural." ++ trueModelName) fallback.

Definition TrShipDescription files t (trueModelName fallback : bytes) :=
  Tr_or_nonempty files t (literal "ship.desc." ++ trueModelName) fallback.

Definition TrPlanetDescription files t (planetTrueName fallback : bytes) :=
  Tr_or_nonempty files t (literal "planet.desc." ++ planetTrueName) fallback.

Definition TrSpaceportDescription files t (planetTrueName fallback : bytes) :=
  Tr_or_nonempty files t (literal "planet.spaceport." ++ planetTrueName) fallback.

(** [Translation::TrSubstitutionValue]. *)
Definition TrSubstitutionValue files t (key value : bytes) : bytes * Translation :=
  if bytes_eqb key (literal "<commodity>")
  then Tr_or files t (literal "commodity." ++ value) value
  else if bytes_eqb key (literal "<government>")
  then TrGovernment files t value
  else if bytes_eqb key (literal "<home planet>") || bytes_eqb key (literal "<planet>")
  then Tr_or files t (literal "planet.name." ++ value) value
  else if bytes_eqb key (literal "<home system>") || bytes_eqb key (literal "<system>")
  then Tr_or files t (literal "system.name." ++ value) value
  else (value, t).

(** [a < b] for [std::string]: the first differing character decides, as
    an unsigned value, and a proper prefix comes first. *)
Fixpoint bytes_ltb (a b : bytes) : bool :=
  match a, b with
  | _, [] => false
  | [], _ :: _ => true
  | x :: a', y :: b' =>
      let vx := Z.of_N (Byte.to_N x) in
      let vy := Z.of_N (Byte.to_N y) in
      if vx <? vy then true else if vy <? vx then false else bytes_ltb a' b'
  end.

(** [std::sort] on a vector of strings, as the insertion of each element
    behind the elements that are not greater. *)
Fixpoint sort_insert (code : bytes) (sorted : list bytes) : list bytes :=
  match sorted with
  | [] => [code]
  | c :: sorted' =>
      if bytes_ltb code c then code :: sorted else c :: sort_insert code sorted'
  end.

Definition sort (codes : list bytes) : list bytes :=
  fold_right sort_insert [] codes.

(** [codes.erase(it)] for the iterator that [find] answers: the first
    occurrence is removed. *)
Fixpoint erase_first (code : bytes) (codes : list bytes) : list bytes :=
  match codes with
  | [] => []
  | c :: codes' => if bytes_eqb c code then codes' else c :: erase_first code codes'
  end.

(** [Translation::AvailableLanguageCodes] behind the listing of the
    directory: [present] says whether the directory of the languages
    exists, and [dirs] names its sub-directories with, for each, whether it
    holds a [.json] file. *)
Definition AvailableLanguageCodes (present : bool) (dirs : list (bytes * bool))
    : list bytes :=
  if negb present then []
  else
    let codes := sort (map fst (filter snd dirs)) in
    if negb (existsb (fun c => bytes_eqb c (literal "en")) codes)
    then literal "en" :: codes
    else
      match codes with
      | c :: _ =>
          if bytes_eqb c (literal "en") then codes
          else literal "en" :: erase_first (literal "en") codes
      | [] => codes
      end.

(** ** FontSet.cpp *)

(** The keys of the map [fonts]: a size and a language code, ordered by
    size first. *)
Definition FontKey : Type := (Z * bytes)%type.

Definition key_eqb (a b : FontKey) : bool :=
  (fst a =? fst b) && bytes_eqb (snd a) (snd b).

Definition key_ltb (a b : FontKey) : bool :=
  (fst a <? fst b) || ((fst a =? fst b) && bytes_ltb (snd a) (snd b)).

(** The map [fonts], its pairs in the order of the keys. *)
Definition Fonts : Type := list (FontKey * Font).

Fixpoint fonts_find (fonts : Fonts) (key : FontKey) : option Font :=
  match fonts with
  | [] => None
  | (k, f) :: fonts' => if key_eqb k key then Some f else fonts_find fonts' key
  end.

(** [fonts[key] = f]: the pair is replaced, or inserted at its place. *)
Fixpoint fonts_assign (fonts : Fonts) (key : FontKey) (f : Font) : Fonts :=
  match fonts with
  | [] => [(key, f)]
  | (k, g) :: fonts' =>
      if key_eqb k key then (k, f) :: fonts'
      else if key_ltb key k then (key, f) :: fonts
      else (k, g) :: fonts_assign fonts' key f
  end.

(** [FontSet::Add].  [blank] is the font that the map constructs for a new
    key, and [image] the atlas read from the path, if it could be read:
    [Font::Load] leaves the font as it is otherwise. *)
Definition Add (blank : Font) (fonts : Fonts) (image : option ImageBuffer)
    (size : Z) (languageCode : bytes) : Fonts :=
  let key := (size, languageCode) in
  match fonts_find fonts key with
  | Some _ => fonts
  | None =>
      let loaded :=
        match image with
        | Some image =>
            match Load blank image with
            | Some f => f
            | None => blank
            end
        | None => blank
        end in
      fonts_assign fonts key loaded
  end.

(** [FontSet::Get] for the language [lang] of the preferences; [None]
    where the source reads [fonts.begin()] of an empty map. *)
Definition Get (fonts : Fonts) (lang : bytes) (size : Z) : option Font :=
  match fonts_find fonts (size, lang) with
  | Some f => Some f
  | None =>
      match fonts_find fonts (size, literal "en") with
      | Some f => Some f
      | None =>
          match List.find (fun p => fst (fst p) =? size) fonts with
          | Some p => Some (snd p)
          | None =>
              match fonts with
              | p :: _ => Some (snd p)
              | [] => None
              end
          end
      end
  end.

(** * Part II: the vocabulary of the statements *)

(** The curly variants of the apostrophe and of the double quote: the
    quotation marks U+2018 to U+201F. *)
Definition curly_quote (cp : Z) : bool := (0x2018 <=? cp) && (cp <=? 0x201F).

(** The font is built with one of the two rosters, and its table is the
    square one that [CalculateAdvances] sizes. *)
Definition roster_font (f : Font) : Prop :=
  (glyphCount f = GLYPHS \/ glyphCount f = GLYPHS_EXTENDED) /\
  Z.of_nat (List.length (advance f)) = glyphCount f * glyphCount f.

(** The states the measuring loop goes through on [str]. *)
Inductive WidthRawString_reaches (f : Font) (prefs : Preferences) (str : bytes)
    : MeasureState -> Prop :=
| reaches_init : WidthRawString_reaches f prefs str WidthRawString_init
| reaches_step st st' :
    WidthRawString_reaches f prefs str st ->
    WidthRawString_step f prefs str st = Some st' ->
    WidthRawString_reaches f prefs str st'.


(** The trial string in the words of the specification: BACK keeps the
    first [k] code points and appends the ellipsis, FRONT prepends the
    ellipsis to the last [k], MIDDLE puts the ellipsis between the first
    ceil(k/2) and the last floor(k/2). *)
Definition floor_half (k : Z) : Z := k / 2.
Definition ceil_half (k : Z) : Z := k - k / 2.

Definition trial_string (policy : Truncate) (str : bytes) (k : Z) : bytes :=
  match policy with
  | NONE => str
  | FRONT => ellipsis ++ SubstringLastCodePoints str k
  | MIDDLE =>
      SubstringFirstCodePoints str (ceil_half k) ++ ellipsis
        ++ SubstringLastCodePoints str (floor_half k)
  | BACK => SubstringFirstCodePoints str k ++ ellipsis
  end.

(** The code points of the string that a trial string keeps, in the words
    of the specification.  [head] is the first [n] code points of [str]:
    the string is [head] followed by a rest, [head] counts [n] code points
    and the rest counts the others.  A cut inside a code point would count
    that code point on both sides.  [tail] is the last [n] code points in
    the same way. *)
Definition first_code_points (str : bytes) (n : Z) (head : bytes) : Prop :=
  exists rest, str = head ++ rest /\
    CountCodePoints head = n /\ CountCodePoints rest = CountCodePoints str - n.

Definition last_code_points (str : bytes) (n : Z) (tail : bytes) : Prop :=
  exists rest, str = rest ++ tail /\
    CountCodePoints tail = n /\ CountCodePoints rest = CountCodePoints str - n.

(** How many code points a policy keeps before and after the ellipsis. *)
Definition kept_first (policy : Truncate) (k : Z) : Z :=
  match policy with
  | BACK => k
  | MIDDLE => ceil_half k
  | _ => 0
  end.

Definition kept_last (policy : Truncate) (k : Z) : Z :=
  match policy with
  | FRONT => k
  | MIDDLE => floor_half k
  | _ => 0
  end.

(** The closure that [TruncateText] hands to the search for a policy,
    through [TruncateFront], [TruncateMiddle] or [TruncateBack]. *)
Definition policy_closure (policy : Truncate) : bytes -> Z -> bytes :=
  match policy with
  | FRONT => TruncateFront_result
  | MIDDLE => TruncateMiddle_result
  | _ => TruncateBack_result
  end.

(** The width of the trial string that keeps [k] code points. *)
Definition trial_width (f : Font) (prefs : Preferences) (after : Z)
    (policy : Truncate) (str : bytes) (k : Z) : Z :=
  WidthRawString f prefs (trial_string policy str k) after.

(** The monotonicity that the search relies on, for one string. *)
Definition trial_width_nondecreasing (f : Font) (prefs : Preferences) (after : Z)
    (policy : Truncate) (str : bytes) : Prop :=
  forall j k, 0 <= j -> j <= k -> k <= CountCodePoints str ->
    trial_width f prefs after policy str j <= trial_width f prefs after policy str k.

(** A table that is a well-sized vector of non-negative entries. *)
Definition table_ok (count : nat) (table : list Z) : Prop :=
  List.length table = count /\ Forall (fun a => 0 <= a) table.

(** The table that the nested loops of [CalculateAdvances] fill, entry by
    entry: row 0 is zero and the entry of the pair ([previous], [next])
    is [pair_advance]. *)
Definition advance_entries (image : ImageBuffer) (glyphCountParam : Z) : list Z :=
  map (fun i =>
         if i / glyphCountParam =? 0 then 0
         else pair_advance image (Z.quot (Width image) glyphCountParam)
                (i / glyphCountParam) (i mod glyphCountParam))
    (Zrange 0 (glyphCountParam * glyphCountParam)).

(** ** Sample inputs *)

(** A font of the basic roster and one of the extended roster, with flat
    advance tables: row 0 is zero, as [CalculateAdvances] leaves it, and
    every other advance is 2. *)
Definition flat_table (count : Z) : list Z :=
  repeat 0 (Z.to_nat count) ++ repeat 2 (Z.to_nat (count * (count - 1))).

Definition latin_font : Font := mkFont GLYPHS (flat_table GLYPHS) 10 3.

Definition extended_font : Font :=
  mkFont GLYPHS_EXTENDED (flat_table GLYPHS_EXTENDED) 10 3.

Definition plain_prefs : Preferences := mkPreferences 0 100.

(** The eight Cyrillic letters U+0430 to U+0437, two bytes each. *)
Definition cyrillic_text : bytes :=
  [xd0; xb0; xd0; xb1; xd0; xb2; xd0; xb3; xd0; xb4; xd0; xb5; xd0; xb6; xd0; xb7].

(** An atlas of the basic roster, two pixel rows of 98 cells of 8 pixels.
    Four cells have ink: the full stop (slot 14) at the left edge of both
    rows, [a] (slot 65) at the right edge of the upper row, [b] (slot 66)
    in the lower row, [c] (slot 67) at the left edge of the upper row. *)
Definition ink : Z := 0xFF000000.

Definition cell_row (glyph y : Z) : list Z :=
  if glyph =? 14 then [ink; 0; 0; 0; 0; 0; 0; 0]
  else if glyph =? 65 then (if y =? 0 then [0; 0; 0; 0; 0; 0; 0; ink] else repeat 0 8)
  else if glyph =? 66 then (if y =? 0 then repeat 0 8 else [0; 0; 0; 0; 0; ink; 0; 0])
  else if glyph =? 67 then (if y =? 0 then [ink; 0; 0; 0; 0; 0; 0; 0] else repeat 0 8)
  else repeat 0 8.

Definition kerned_atlas : ImageBuffer :=
  mkImageBuffer (GLYPHS * 8) 2
    (flat_map (fun y => flat_map (fun glyph => cell_row glyph y) (Zrange 0 GLYPHS))
       (Zrange 0 2)).

(** The font that [Load] builds from [kerned_atlas]. *)
Definition kerned_font : Font := mkFont GLYPHS (advance_entries kerned_atlas GLYPHS) 1 2.

(** ** Vocabulary for the further members of [Font] *)

(** The context in which slot [i] is answered: the two quote slots need a
    preceding space. *)
Definition slot_context (i : Z) : bool := (i =? 96) || (i =? 97).

(** The measuring and the drawing loop hold the same previous glyph, the
    same flag and the same offset. *)
Definition in_step (m : MeasureState) (d : DrawState) : Prop :=
  m_previous m = d_previous d /\
  m_isAfterSpace m = d_isAfterSpace d /\
  m_pos m = d_pos d.

(** The pixels of the box of a placement, in the order of the two loops. *)
Definition box_pixels (p : Placement) : list (Z * Z) :=
  flat_map (fun y => map (fun x => (x, y)) (Zrange 0 (p_w p))) (Zrange 0 (p_h p)).

(** ** Vocabulary for Translation.cpp *)

(** The value of a byte as an unsigned character. *)
Definition value (b : byte) : Z := Z.of_N (Byte.to_N b).

(** A string as a JSON writer escapes it: a backslash before every quote
    and every backslash, the other bytes as they are. *)
Definition escape_byte (b : byte) : bytes :=
  if (value b =? 0x22) || (value b =? 0x5C) then [x5c; b] else [b].

Definition escape (s : bytes) : bytes := flat_map escape_byte s.

(** The string between quotes. *)
Definition quote (s : bytes) : bytes := [x22] ++ escape s ++ [x22].

(** Bytes that a skipping loop passes over. *)
Definition all_skipped (skipped : Z -> bool) (gap : bytes) : Prop :=
  Forall (fun b => skipped (value b) = true) gap.

(** A member of a flat object: the separators before the key, the key and
    the value. *)
Record Member : Type := mkMember {
  m_gap : bytes;
  m_key : bytes;
  m_value : bytes
}.

(** A member as text, with [ws1] before the colon and [ws2] after it. *)
Definition member_text (ws1 ws2 : bytes) (m : Member) : bytes :=
  m_gap m ++ quote (m_key m) ++ ws1 ++ [x3a] ++ ws2 ++ quote (m_value m).

(** A flat object as text: the members between braces, [final] before the
    closing brace. *)
Definition object_text (ws1 ws2 : bytes) (members : list Member) (final : bytes) : bytes :=
  [x7b] ++ flat_map (member_text ws1 ws2) members ++ final ++ [x7d].

(** The map that assigning the members one after the other builds. *)
Definition assign_all (members : list Member) (out : strings) : strings :=
  fold_left (fun out m => map_assign out (m_key m) (m_value m)) members out.




(** The variables after a sequence of calls of [Tr]. *)
Definition Tr_all (files : bytes -> list bytes) (t : Translation) (keys : list bytes)
    : Translation :=
  fold_left (fun t key => snd (Tr files t key)) keys t.

(** The variables once the English table has been read. *)
Definition with_fallback (files : bytes -> list bytes) (t : Translation) : Translation :=
  mkTranslation (currentLanguage t) (currentStrings t) (LoadInto files (literal "en")) true.

(** * Part III: properties of the resolver *)

Ltac split_ifs :=
  repeat match goal with
         | |- context [if ?b then _ else _] => destruct b eqn:?
         end.

(** What the resolver answers on printable ASCII. *)
Lemma GlyphForCodepoint_ascii (f : Font) (codepoint : Z) (isAfterSpace : bool) :
  32 <= codepoint <= 126 ->
  GlyphForCodepoint f codepoint isAfterSpace =
    if (codepoint =? 0x27) && isAfterSpace then 96
    else if (codepoint =? 0x22) && isAfterSpace then 97
    else Z.max 0 (Z.min (glyphCount f - 3) (codepoint - 32)).
Proof.
  intros H. rewrite GlyphForCodepoint_equation_1.
  assert ((codepoint =? 0x2018) = false) as -> by lia.
  assert ((codepoint =? 0x201C) = false) as -> by lia.
  assert (((32 <=? codepoint) && (codepoint <=? 126)) = true) as -> by lia.
  rewrite !orb_false_r. reflexivity.
Qed.

(** The codepoints of the substitution table. *)
Lemma SubstituteUnsupported_domain (codepoint : Z) :
  SubstituteUnsupported codepoint <> 0 ->
  In codepoint [0x00A0; 0x2009; 0x2010; 0x2011; 0x2012; 0x2013; 0x2019; 0x201A;
                0x201B; 0x201D; 0x201E; 0x201F; 0x2026; 0x2033; 0x2036].
Proof.
  unfold SubstituteUnsupported. intros H. simpl.
  repeat match type of H with
         | context [?a =? ?b] => destruct (Z.eqb_spec a b); [subst; tauto |]
         end.
  simpl in H. congruence.
Qed.

(** A codepoint of the table is resolved as its substitute is. *)
Lemma GlyphForCodepoint_substituted (f : Font) (codepoint : Z) (isAfterSpace : bool) :
  SubstituteUnsupported codepoint <> 0 ->
  GlyphForCodepoint f codepoint isAfterSpace =
  GlyphForCodepoint f (SubstituteUnsupported codepoint) isAfterSpace.
Proof.
  intros H. pose proof (SubstituteUnsupported_domain _ H) as Hin.
  rewrite GlyphForCodepoint_equation_1 at 1.
  destruct (Z.eq_dec (SubstituteUnsupported codepoint) 0) as [E | _]; [contradiction |].
  simpl in Hin.
  repeat (destruct Hin as [<- | Hin]; [destruct isAfterSpace; destruct (glyphCount f =? GLYPHS_EXTENDED); reflexivity |]).
  contradiction.
Qed.

(** The shape of every answer of the resolver. *)
Lemma GlyphForCodepoint_cases (f : Font) (codepoint : Z) (isAfterSpace : bool) :
  let glyph := GlyphForCodepoint f codepoint isAfterSpace in
  glyph = 96 \/ glyph = 97 \/
  (0 <= glyph <= Z.max 0 (glyphCount f - 3) /\ glyph <= 94) \/
  (glyphCount f = GLYPHS_EXTENDED /\ 98 <= glyph <= 166).
Proof.
  assert (forall cp, 32 <= cp <= 126 ->
            let glyph := GlyphForCodepoint f cp isAfterSpace in
            glyph = 96 \/ glyph = 97 \/
            (0 <= glyph <= Z.max 0 (glyphCount f - 3) /\ glyph <= 94) \/
            (glyphCount f = GLYPHS_EXTENDED /\ 98 <= glyph <= 166)) as Hascii.
  { intros cp Hcp. cbv zeta. rewrite GlyphForCodepoint_ascii by assumption.
    split_ifs; auto. right; right; left. lia. }
  cbv zeta.
  destruct (Z.eq_dec (SubstituteUnsupported codepoint) 0) as [Hsub | Hsub].
  - rewrite GlyphForCodepoint_equation_1.
    destruct (Z.eq_dec (SubstituteUnsupported codepoint) 0) as [_ | E]; [| contradiction].
    unfold extended_glyph, GLYPHS_EXTENDED.
    split_ifs; auto; try (right; right; left; lia); try (right; right; right; unfold GLYPHS_EXTENDED; lia).
  - rewrite GlyphForCodepoint_substituted by assumption.
    apply Hascii.
    destruct (SubstituteUnsupported_is_ascii codepoint) as [E | [E | [E | [E | E]]]];
      rewrite E in *; try contradiction; lia.
Qed.

(** Every answer of the resolver is a glyph index of the roster. *)
Lemma GlyphForCodepoint_range (f : Font) (codepoint : Z) (isAfterSpace : bool) :
  glyphCount f = GLYPHS \/ glyphCount f = GLYPHS_EXTENDED ->
  0 <= GlyphForCodepoint f codepoint isAfterSpace <= glyphCount f - 1.
Proof.
  intros Hroster. pose proof (GlyphForCodepoint_cases f codepoint isAfterSpace) as H.
  cbv zeta in H. unfold GLYPHS, GLYPHS_EXTENDED in *. lia.
Qed.

(** C7.  With [isAfterSpace] true, the ASCII apostrophe 0x27 and the
    left single quote U+2018 resolve to the same glyph, the open single
    quote slot 96; the ASCII double quote 0x22 and the left double quote
    U+201C resolve to the same glyph, the open double quote slot 97. *)
Theorem opening_quotes_share_slots (f : Font) :
  GlyphForCodepoint f 0x27 true = 96 /\
  GlyphForCodepoint f 0x2018 true = GlyphForCodepoint f 0x27 true /\
  GlyphForCodepoint f 0x22 true = 97 /\
  GlyphForCodepoint f 0x201C true = GlyphForCodepoint f 0x22 true.
Proof.
  repeat split; reflexivity.
Qed.

(** C3.  On the basic roster the em dash U+2014 has no entry in the
    substitution table and resolves to the blank index 0, for either value
    of [isAfterSpace]; it does not reach the hyphen slot 13, which the
    dashes U+2010 to U+2013 resolve to. *)
Theorem em_dash_is_blank_on_basic_roster
    (table : list Z) (h sp : Z) (isAfterSpace : bool) :
  let f := mkFont GLYPHS table h sp in
  SubstituteUnsupported 0x2014 = 0 /\
  GlyphForCodepoint f 0x2014 isAfterSpace = 0 /\
  GlyphForCodepoint f 0x2013 isAfterSpace = 13 /\
  GlyphForCodepoint f 0x2D isAfterSpace = 13.
Proof.
  cbv zeta. destruct isAfterSpace; repeat split; reflexivity.
Qed.

(** C2, as stated, fails: the no-break space U+00A0 is in the domain of
    the substitution table and resolves to the blank index 0. *)
Lemma substituted_no_break_space_is_blank :
  SubstituteUnsupported 0x00A0 = 0x20 /\
  GlyphForCodepoint latin_font 0x00A0 true = 0 /\
  GlyphForCodepoint latin_font 0x00A0 false = 0.
Proof. repeat split; reflexivity. Qed.

(** C2, amended.  On a font of either roster, every codepoint of the
    substitution table whose substitute is not the space 0x20 resolves to
    a glyph index other than 0, for either value of [isAfterSpace]; the
    entries whose substitute is the space resolve to 0. *)
Theorem substitution_safety (f : Font) (codepoint : Z) (isAfterSpace : bool) :
  glyphCount f = GLYPHS \/ glyphCount f = GLYPHS_EXTENDED ->
  SubstituteUnsupported codepoint <> 0 ->
  (SubstituteUnsupported codepoint <> 0x20 ->
   GlyphForCodepoint f codepoint isAfterSpace <> 0) /\
  (SubstituteUnsupported codepoint = 0x20 ->
   GlyphForCodepoint f codepoint isAfterSpace = 0).
Proof.
  intros Hroster Hsub.
  rewrite GlyphForCodepoint_substituted by assumption.
  assert (13 <= glyphCount f - 3) as Hslots
    by (unfold GLYPHS, GLYPHS_EXTENDED in Hroster; lia).
  destruct (SubstituteUnsupported_is_ascii codepoint) as [E | [E | [E | [E | E]]]];
    rewrite E in *; try contradiction;
    rewrite GlyphForCodepoint_ascii by lia;
    (split; [intros Hne | intros Heq]); try congruence; try discriminate;
    destruct isAfterSpace; cbn [Z.eqb Pos.eqb andb]; lia.
Qed.

Lemma substitution_safety_witness :
  GlyphForCodepoint latin_font 0x2019 false <> 0 /\
  GlyphForCodepoint latin_font 0x2026 false = 0.
Proof.
  assert (glyphCount latin_font = GLYPHS \/ glyphCount latin_font = GLYPHS_EXTENDED) as Hroster
    by (left; reflexivity).
  split.
  - apply (substitution_safety latin_font 0x2019 false Hroster);
      vm_compute; discriminate.
  - apply (substitution_safety latin_font 0x2026 false Hroster);
      vm_compute; [discriminate | reflexivity].
Defined.

(** * Part IV: properties of the measuring and the drawing loop *)

(** C4, as stated, fails.  The underline marker 0x5F is no quote and
    resolves to slot 63, not to the blank slot 0; yet a turn of the
    measuring loop or of the drawing loop on it leaves the flag true, where
    the claim has the flag false after a character that is no quote and
    does not resolve to glyph 0. *)
Lemma underline_marker_keeps_isAfterSpace :
  m_isAfterSpace WidthRawString_init = true /\
  d_isAfterSpace DrawAliased_init = true /\
  GlyphForCodepoint latin_font 0x5F true = 63 /\
  m_isAfterSpace
    (WidthRawString_body latin_font plain_prefs WidthRawString_init 0x5F 1) = true /\
  d_isAfterSpace (DrawAliased_body latin_font false DrawAliased_init 0x5F 1) = true /\
  option_map m_isAfterSpace
    (WidthRawString_step latin_font plain_prefs (literal "_") WidthRawString_init)
  = Some true /\
  option_map d_isAfterSpace
    (DrawAliased_step latin_font false (literal "_") DrawAliased_init) = Some true.
Proof. repeat split; reflexivity. Qed.

(** C4, amended.  In the measuring loop and in the drawing loop the flag
    is true initially.  A turn of the loop on the underline marker 0x5F,
    which is skipped before the resolver is called, leaves it unchanged,
    and so does a turn on the ASCII apostrophe 0x27 or the ASCII double
    quote 0x22.  After a turn on any other codepoint that is not a curly
    quote, it is true if the codepoint resolved to glyph 0 and false
    otherwise.  Nothing is said of a turn on a curly quote. *)
Theorem isAfterSpace_tracking (f : Font) (prefs : Preferences) (showUnderlines : bool)
    (st : MeasureState) (dst : DrawState) (cp pos : Z) :
  curly_quote cp = false ->
  m_isAfterSpace WidthRawString_init = true /\
  d_isAfterSpace DrawAliased_init = true /\
  m_isAfterSpace (WidthRawString_body f prefs st cp pos) =
    (if (cp =? 0x5F) || (cp =? 0x27) || (cp =? 0x22) then m_isAfterSpace st
     else GlyphForCodepoint f cp (m_isAfterSpace st) =? 0) /\
  d_isAfterSpace (DrawAliased_body f showUnderlines dst cp pos) =
    (if (cp =? 0x5F) || (cp =? 0x27) || (cp =? 0x22) then d_isAfterSpace dst
     else GlyphForCodepoint f cp (d_isAfterSpace dst) =? 0).
Proof.
  intros _. split; [reflexivity |]. split; [reflexivity |].
  unfold WidthRawString_body, DrawAliased_body, track_isAfterSpace.
  destruct (cp =? 0x5F); [split; reflexivity |].
  destruct (cp =? 0x27), (cp =? 0x22); simpl;
    destruct (GlyphForCodepoint f cp (m_isAfterSpace st) =? 0);
    destruct (GlyphForCodepoint f cp (d_isAfterSpace dst) =? 0);
    destruct (d_underlineChar dst); split; reflexivity.
Qed.

Lemma isAfterSpace_tracking_witness :
  m_isAfterSpace WidthRawString_init = true /\
  d_isAfterSpace DrawAliased_init = true /\
  m_isAfterSpace
    (WidthRawString_body latin_font plain_prefs WidthRawString_init 0x41 1) =
    (if (0x41 =? 0x5F) || (0x41 =? 0x27) || (0x41 =? 0x22)
     then m_isAfterSpace WidthRawString_init
     else GlyphForCodepoint latin_font 0x41 (m_isAfterSpace WidthRawString_init) =? 0) /\
  d_isAfterSpace (DrawAliased_body latin_font false DrawAliased_init 0x41 1) =
    (if (0x41 =? 0x5F) || (0x41 =? 0x27) || (0x41 =? 0x22)
     then d_isAfterSpace DrawAliased_init
     else GlyphForCodepoint latin_font 0x41 (d_isAfterSpace DrawAliased_init) =? 0).
Proof.
  apply (isAfterSpace_tracking latin_font plain_prefs false
           WidthRawString_init DrawAliased_init 0x41 1).
  reflexivity.
Defined.

(** The curly opening quotes are not exempt from the update of the flag.
    The resolver groups U+2018 with the apostrophe and U+201C with the
    double quote: read with the flag true they take the slots 96 and 97.
    Both loops exempt only the ASCII quotes, so a turn on a curly opening
    quote inverts the flag, whatever the font: after a space the quote is
    drawn and clears the flag, and a curly opening quote that follows it
    resolves to glyph 0, is drawn blank and sets the flag again. *)
Lemma curly_opening_quote_flips_isAfterSpace
    (f : Font) (prefs : Preferences) (showUnderlines : bool)
    (st : MeasureState) (dst : DrawState) (cp pos : Z) :
  cp = 0x2018 \/ cp = 0x201C ->
  GlyphForCodepoint f cp true = (if cp =? 0x2018 then 96 else 97) /\
  GlyphForCodepoint f cp false = 0 /\
  m_isAfterSpace (WidthRawString_body f prefs st cp pos) = negb (m_isAfterSpace st) /\
  d_isAfterSpace (DrawAliased_body f showUnderlines dst cp pos) = negb (d_isAfterSpace dst).
Proof.
  assert (forall c, c = 0x2018 \/ c = 0x201C -> GlyphForCodepoint f c false = 0) as Hblank.
  { intros c [-> | ->]; rewrite GlyphForCodepoint_equation_1;
      destruct (glyphCount f =? GLYPHS_EXTENDED); reflexivity. }
  intros Hcp. split; [destruct Hcp as [-> | ->]; reflexivity |].
  split; [apply Hblank; exact Hcp |].
  pose proof (Hblank cp Hcp) as Hb.
  assert ((GlyphForCodepoint f cp true =? 0) = false) as Ht
    by (destruct Hcp as [-> | ->]; reflexivity).
  unfold WidthRawString_body, DrawAliased_body, track_isAfterSpace.
  assert ((cp =? 0x5F) = false) as -> by lia.
  assert ((cp =? 0x22) = false) as -> by lia.
  assert ((cp =? 0x27) = false) as -> by lia.
  cbn [negb andb].
  split; [destruct (m_isAfterSpace st) | destruct (d_isAfterSpace dst)];
    rewrite ?Hb, ?Ht; cbn; try destruct (d_underlineChar dst); reflexivity.
Qed.

Lemma WidthRawString_body_previous (f : Font) (prefs : Preferences)
    (st : MeasureState) (cp pos : Z) :
  glyphCount f = GLYPHS \/ glyphCount f = GLYPHS_EXTENDED ->
  0 <= m_previous st <= glyphCount f - 1 ->
  0 <= m_previous (WidthRawString_body f prefs st cp pos) <= glyphCount f - 1.
Proof.
  intros Hroster Hprev. unfold WidthRawString_body.
  pose proof (GlyphForCodepoint_range f cp (m_isAfterSpace st) Hroster).
  split_ifs; simpl; lia.
Qed.

Lemma WidthRawString_reaches_previous (f : Font) (prefs : Preferences) (str : bytes)
    (st : MeasureState) :
  glyphCount f = GLYPHS \/ glyphCount f = GLYPHS_EXTENDED ->
  WidthRawString_reaches f prefs str st ->
  0 <= m_previous st <= glyphCount f - 1.
Proof.
  intros Hroster Hreach. induction Hreach as [| st st' _ IH Hstep].
  - simpl. unfold GLYPHS, GLYPHS_EXTENDED in Hroster. lia.
  - unfold WidthRawString_step in Hstep.
    destruct (m_pos st <? size str); [| discriminate].
    destruct (Utf8.DecodeCodePoint str (m_pos st)) as [cp pos].
    destruct (pos =? npos); [discriminate |].
    inversion Hstep; subst. apply WidthRawString_body_previous; assumption.
Qed.

(** C10.  On a font of either roster every answer of the resolver lies in
    [0, glyphCount - 1]: it is one of the quote slots 96 and 97, or at most
    [glyphCount - 3], or it lies in 98..166 and then the extended roster is
    active.  Hence in every state that the measuring loop reaches, the
    index [previous * glyphCount + glyph] of the table access is inside the
    table for whatever glyph the resolver answers, and so is the index of
    the closing access for the character [after]. *)
Theorem glyph_index_within_table (f : Font) (prefs : Preferences) (str : bytes)
    (st : MeasureState) (codepoint after : Z) (isAfterSpace : bool) :
  roster_font f ->
  WidthRawString_reaches f prefs str st ->
  let glyph := GlyphForCodepoint f codepoint isAfterSpace in
  let afterGlyph := if (32 <=? after) && (after <=? 126) then after - 32 else 0 in
  let table := Z.of_nat (List.length (advance f)) in
  0 <= glyph <= glyphCount f - 1 /\
  (glyph = 96 \/ glyph = 97 \/ glyph <= glyphCount f - 3 \/
   (glyphCount f = GLYPHS_EXTENDED /\ 98 <= glyph <= 166)) /\
  (32 <= codepoint <= 126 -> glyph = 96 \/ glyph = 97 \/ glyph <= glyphCount f - 3) /\
  (98 <= glyph -> glyphCount f = GLYPHS_EXTENDED) /\
  0 <= advance_index f (m_previous st) glyph < table /\
  0 <= advance_index f (m_previous st)
         (Z.max 0 (Z.min (glyphCount f - 1) afterGlyph)) < table.
Proof.
  intros [Hroster Htable] Hreach. cbv zeta.
  pose proof (GlyphForCodepoint_range f codepoint isAfterSpace Hroster) as Hrange.
  pose proof (GlyphForCodepoint_cases f codepoint isAfterSpace) as Hcases.
  pose proof (WidthRawString_reaches_previous f prefs str st Hroster Hreach) as Hprev.
  cbv zeta in Hcases. rewrite Htable. unfold advance_index.
  split; [exact Hrange |].
  split; [unfold GLYPHS, GLYPHS_EXTENDED in *; lia |].
  split.
  { intros Hascii. rewrite GlyphForCodepoint_ascii by assumption.
    unfold GLYPHS, GLYPHS_EXTENDED in *. split_ifs; lia. }
  split; [unfold GLYPHS, GLYPHS_EXTENDED in *; lia |].
  unfold GLYPHS, GLYPHS_EXTENDED in *.
  destruct Hroster as [Hg | Hg]; rewrite Hg in *; split; split_ifs; lia.
Qed.

Lemma glyph_index_within_table_witness :
  let st := WidthRawString_loop latin_font plain_prefs (literal "ab") WidthRawString_init in
  0 <= advance_index latin_font (m_previous st) (GlyphForCodepoint latin_font 0x63 false)
    < Z.of_nat (List.length (advance latin_font)).
Proof.
  assert (roster_font latin_font) as Hroster by (split; [left |]; reflexivity).
  assert (WidthRawString_reaches latin_font plain_prefs (literal "ab")
            (WidthRawString_loop latin_font plain_prefs (literal "ab") WidthRawString_init))
    as Hreach.
  { eapply reaches_step; [eapply reaches_step; [apply reaches_init |] |]; reflexivity. }
  exact (proj1 (proj2 (proj2 (proj2 (proj2
    (glyph_index_within_table latin_font plain_prefs (literal "ab") _ 0x63 0x20 false
       Hroster Hreach)))))).
Defined.

(** ** Termination of the decode-and-measure loop *)






(** ** A malformed sequence ends the string *)

Lemma size_firstn (str : bytes) (p : Z) :
  0 <= p <= size str -> size (firstn (Z.to_nat p) str) = p.
Proof.
  intros Hp. unfold size in *. rewrite length_firstn. lia.
Qed.

Lemma byte_at_firstn (str : bytes) (p i : Z) :
  0 <= p <= size str -> i < p -> byte_at (firstn (Z.to_nat p) str) i = byte_at str i.
Proof.
  intros Hp Hi. unfold byte_at. rewrite (size_firstn str p Hp).
  destruct (Z.leb_spec 0 i) as [Hlo | Hlo]; simpl; [| reflexivity].
  assert ((i <? p) = true) as -> by lia.
  assert ((i <? size str) = true) as -> by lia.
  rewrite nth_error_firstn.
  assert ((Z.to_nat i <? Z.to_nat p)%nat = true) as -> by (apply Nat.ltb_lt; lia).
  reflexivity.
Qed.





(** * Part V: properties of the advance table computer *)

Lemma vector_set_length (v : list Z) (i : nat) (x : Z) :
  List.length (vector_set v i x) = List.length v.
Proof.
  revert i. induction v as [| y v IH]; intros [| i]; simpl; auto.
Qed.

Lemma vector_set_Forall (P : Z -> Prop) (v : list Z) (i : nat) (x : Z) :
  Forall P v -> P x -> Forall P (vector_set v i x).
Proof.
  intros Hv Hx. revert i. induction Hv as [| y v Hy Hv IH]; intros [| i]; simpl; auto.
Qed.

Lemma scan_rows_maxD (image : ImageBuffer) (width previous next : Z) (rows : list Z) :
  forall r, 0 <= maxD r ->
    0 <= maxD (fold_left (fun r _ => scan_row image width (Width image) previous next r)
                 rows r).
Proof.
  induction rows as [| y rows IH]; intros r Hr; simpl; [exact Hr |].
  apply IH. unfold scan_row. simpl. lia.
Qed.

Lemma pair_advance_nonneg (image : ImageBuffer) (width previous next : Z) :
  0 <= pair_advance image width previous next.
Proof.
  unfold pair_advance. apply Z.quot_pos; [| lia].
  pose proof (scan_rows_maxD image width previous next (Zrange 0 (Height image))
                (mkRowState 0 0 0) ltac:(simpl; lia)). lia.
Qed.

Lemma fill_row_ok (image : ImageBuffer) (width glyphCountParam : Z) (count : nat)
    (table : list Z) (previous : Z) :
  table_ok count table ->
  table_ok count (fill_row image width glyphCountParam table previous).
Proof.
  unfold fill_row. generalize (Zrange 0 glyphCountParam) as nexts.
  intros nexts. revert table.
  induction nexts as [| next nexts IH]; intros table Hok; simpl; [exact Hok |].
  apply IH. destruct Hok as [Hlen Hall]. split.
  - rewrite vector_set_length. exact Hlen.
  - apply vector_set_Forall; [exact Hall | apply pair_advance_nonneg].
Qed.

Lemma fill_rows_ok (image : ImageBuffer) (width glyphCountParam : Z) (count : nat)
    (rows : list Z) :
  forall table, table_ok count table ->
    table_ok count (fold_left (fill_row image width glyphCountParam) rows table).
Proof.
  induction rows as [| previous rows IH]; intros table Hok; simpl; [exact Hok |].
  apply IH. apply fill_row_ok. exact Hok.
Qed.

(** C8.  For every atlas and every glyph count other than zero
    [CalculateAdvances] produces a table, and the table it produces has
    exactly [glyphCount * glyphCount] entries, each a non-negative
    integer. *)
Theorem advance_table_square_nonnegative
    (font : Font) (image : ImageBuffer) (glyphCountParam : Z) :
  (glyphCountParam <> 0 ->
   exists font', CalculateAdvances font image glyphCountParam = Some font') /\
  (forall font', CalculateAdvances font image glyphCountParam = Some font' ->
     Z.of_nat (List.length (advance font')) = glyphCountParam * glyphCountParam /\
     Forall (fun a => 0 <= a) (advance font')).
Proof.
  unfold CalculateAdvances.
  destruct (Z.eqb_spec glyphCountParam 0) as [E | E].
  - split; [contradiction | discriminate].
  - split; [intros _; eexists; reflexivity |].
    intros font' H; inversion H; subst font'; simpl.
    destruct (fill_rows_ok image (Z.quot (Width image) glyphCountParam) glyphCountParam
                (Z.to_nat (glyphCountParam * glyphCountParam))
                (Zrange 1 glyphCountParam)
                (repeat 0 (Z.to_nat (glyphCountParam * glyphCountParam))))
      as [Hlen Hall].
    + split; [apply repeat_length |].
      apply Forall_forall. intros a Ha. apply repeat_spec in Ha. lia.
    + split; [| exact Hall]. rewrite Hlen. nia.
Qed.

(** ** The table as a list of entries *)

Lemma nth_vector_set (v : list Z) (i j : nat) (x : Z) :
  nth j (vector_set v i x) 0 =
  if (j =? i)%nat && (i <? List.length v)%nat then x else nth j v 0.
Proof.
  revert i j. induction v as [| y v IH]; intros [| i] [| j]; simpl; auto.
  destruct (j =? i)%nat; reflexivity.
Qed.

Lemma Zrange_snoc (lo : Z) (k : nat) :
  Zrange lo (lo + Z.of_nat (S k)) = Zrange lo (lo + Z.of_nat k) ++ [lo + Z.of_nat k].
Proof.
  unfold Zrange.
  replace (Z.to_nat (lo + Z.of_nat (S k) - lo)) with (S k) by lia.
  replace (Z.to_nat (lo + Z.of_nat k - lo)) with k by lia.
  rewrite seq_S, map_app. reflexivity.
Qed.

Ltac inside_range :=
  apply andb_true_intro; split; [apply Z.leb_le | apply Z.ltb_lt]; lia.

Ltac outside_range :=
  apply andb_false_iff;
  first [left; apply Z.leb_gt; lia | right; apply Z.ltb_ge; lia].

Section TableEntries.

Variable image : ImageBuffer.
Variable width : Z.
Variable count : Z.
Hypothesis count_pos : 0 < count.

(** What the table holds at index [j] once the pairs of a row up to
    [next < k] have been stored. *)
Lemma fill_row_prefix_nth (previous : Z) (table : list Z) (k : nat) (j : nat) :
  0 <= previous ->
  previous * count + Z.of_nat k <= Z.of_nat (List.length table) ->
  let filled :=
    fold_left
      (fun table next =>
         vector_set table (Z.to_nat (previous * count + next))
           (pair_advance image width previous next))
      (Zrange 0 (0 + Z.of_nat k)) table in
  List.length filled = List.length table /\
  nth j filled 0 =
    if (previous * count <=? Z.of_nat j) && (Z.of_nat j <? previous * count + Z.of_nat k)
    then pair_advance image width previous (Z.of_nat j - previous * count)
    else nth j table 0.
Proof.
  intros Hprev. induction k as [| k IH]; intros Hlen; cbv zeta.
  - simpl. split; [reflexivity |].
    match goal with
    | |- context [if ?c then _ else _] => assert (c = false) as -> by lia
    end.
    reflexivity.
  - rewrite Zrange_snoc, fold_left_app. cbn [fold_left].
    destruct (IH ltac:(lia)) as [IHlen IHnth]. cbv zeta in IHlen, IHnth.
    split; [rewrite vector_set_length; exact IHlen |].
    rewrite nth_vector_set, IHlen, IHnth. clear IH IHlen IHnth.
    assert (0 <= previous * count) by nia.
    assert ((Z.to_nat (previous * count + (0 + Z.of_nat k)) <? List.length table)%nat = true)
      as -> by (apply Nat.ltb_lt; lia).
    rewrite andb_true_r.
    destruct (Nat.eqb_spec j (Z.to_nat (previous * count + (0 + Z.of_nat k)))) as [E | E].
    + assert (((previous * count <=? Z.of_nat j)
               && (Z.of_nat j <? previous * count + Z.of_nat (S k))) = true) as ->
        by inside_range.
      f_equal. lia.
    + destruct ((previous * count <=? Z.of_nat j)
                && (Z.of_nat j <? previous * count + Z.of_nat k)) eqn:Hin.
      * apply andb_prop in Hin. destruct Hin as [Hlo Hhi].
        apply Z.leb_le in Hlo. apply Z.ltb_lt in Hhi.
        assert (((previous * count <=? Z.of_nat j)
                 && (Z.of_nat j <? previous * count + Z.of_nat (S k))) = true) as ->
          by inside_range.
        reflexivity.
      * apply andb_false_iff in Hin.
        assert (((previous * count <=? Z.of_nat j)
                 && (Z.of_nat j <? previous * count + Z.of_nat (S k))) = false) as ->.
        { destruct Hin as [Hlo | Hhi];
            [apply Z.leb_gt in Hlo | apply Z.ltb_ge in Hhi]; outside_range. }
        reflexivity.
Qed.

Lemma fill_row_nth (previous : Z) (table : list Z) (j : nat) :
  0 <= previous ->
  (previous + 1) * count <= Z.of_nat (List.length table) ->
  List.length (fill_row image width count table previous) = List.length table /\
  nth j (fill_row image width count table previous) 0 =
    if (previous * count <=? Z.of_nat j) && (Z.of_nat j <? (previous + 1) * count)
    then pair_advance image width previous (Z.of_nat j - previous * count)
    else nth j table 0.
Proof.
  intros Hprev Hlen. unfold fill_row.
  pose proof (fill_row_prefix_nth previous table (Z.to_nat count) j Hprev ltac:(lia))
    as Hprefix.
  cbv zeta in Hprefix. rewrite Z2Nat.id in Hprefix by lia.
  rewrite Z.add_0_l in Hprefix.
  replace ((previous + 1) * count) with (previous * count + count) by lia.
  exact Hprefix.
Qed.

(** What the table holds at index [j] once the rows 1 to [k] have been
    filled. *)
Lemma fill_rows_prefix_nth (table : list Z) (k : nat) (j : nat) :
  (1 + Z.of_nat k) * count <= Z.of_nat (List.length table) ->
  let filled :=
    fold_left (fill_row image width count) (Zrange 1 (1 + Z.of_nat k)) table in
  List.length filled = List.length table /\
  nth j filled 0 =
    if (count <=? Z.of_nat j) && (Z.of_nat j <? (1 + Z.of_nat k) * count)
    then pair_advance image width (Z.of_nat j / count) (Z.of_nat j mod count)
    else nth j table 0.
Proof.
  induction k as [| k IH]; intros Hlen; cbv zeta.
  - cbn [Zrange Z.of_nat Z.add Z.sub Z.to_nat seq map fold_left Pos.add].
    replace (Zrange 1 1) with (@nil Z) by reflexivity. cbn [fold_left].
    split; [reflexivity |].
    destruct (Z.leb_spec count (Z.of_nat j)); [| reflexivity].
    destruct (Z.ltb_spec (Z.of_nat j) (1 * count)); [lia | reflexivity].
  - rewrite Zrange_snoc, fold_left_app. cbn [fold_left].
    destruct (IH ltac:(lia)) as [IHlen IHnth]. cbv zeta in IHlen, IHnth.
    destruct (fill_row_nth (1 + Z.of_nat k)
                (fold_left (fill_row image width count) (Zrange 1 (1 + Z.of_nat k)) table)
                j ltac:(lia) ltac:(rewrite IHlen; lia)) as [Hrowlen Hrow].
    split; [rewrite Hrowlen; exact IHlen |].
    rewrite Hrow, IHnth. clear IH IHlen IHnth Hrow Hrowlen.
    destruct (((1 + Z.of_nat k) * count <=? Z.of_nat j)
              && (Z.of_nat j <? (1 + Z.of_nat k + 1) * count)) eqn:Hin.
    + apply andb_prop in Hin. destruct Hin as [Hlo Hhi].
      apply Z.leb_le in Hlo. apply Z.ltb_lt in Hhi.
      assert (((count <=? Z.of_nat j) && (Z.of_nat j <? (1 + Z.of_nat (S k)) * count)) = true)
        as -> by (apply andb_true_intro; split; [apply Z.leb_le | apply Z.ltb_lt]; nia).
      assert (Z.of_nat j / count = 1 + Z.of_nat k) as Hdiv
        by (symmetry; apply (Z.div_unique _ _ _ (Z.of_nat j - (1 + Z.of_nat k) * count)); lia).
      assert (Z.of_nat j mod count = Z.of_nat j - (1 + Z.of_nat k) * count) as Hmod
        by (symmetry; apply (Z.mod_unique _ _ (1 + Z.of_nat k)); lia).
      rewrite Hdiv, Hmod. reflexivity.
    + apply andb_false_iff in Hin.
      destruct ((count <=? Z.of_nat j) && (Z.of_nat j <? (1 + Z.of_nat k) * count)) eqn:Hold.
      * apply andb_prop in Hold. destruct Hold as [Hlo Hhi].
        apply Z.leb_le in Hlo. apply Z.ltb_lt in Hhi.
        assert (((count <=? Z.of_nat j) && (Z.of_nat j <? (1 + Z.of_nat (S k)) * count))
                = true)
          as -> by (apply andb_true_intro; split; [apply Z.leb_le | apply Z.ltb_lt]; nia).
        reflexivity.
      * apply andb_false_iff in Hold.
        assert (((count <=? Z.of_nat j) && (Z.of_nat j <? (1 + Z.of_nat (S k)) * count))
                = false) as ->.
        { apply andb_false_iff.
          destruct Hold as [Hlo | Hhi].
          - left. exact Hlo.
          - right. apply Z.ltb_ge. apply Z.ltb_ge in Hhi.
            destruct Hin as [Hin | Hin];
              [apply Z.leb_gt in Hin | apply Z.ltb_ge in Hin]; nia. }
        reflexivity.
Qed.

End TableEntries.

Lemma nth_map_Zrange (F : Z -> Z) (lo hi : Z) (j : nat) (d : Z) :
  (j < Z.to_nat (hi - lo))%nat ->
  nth j (map F (Zrange lo hi)) d = F (lo + Z.of_nat j).
Proof.
  intros Hj. unfold Zrange. rewrite map_map.
  rewrite (nth_indep _ d (F (lo + Z.of_nat 0))) by (rewrite length_map, length_seq; exact Hj).
  rewrite (map_nth (fun i => F (lo + Z.of_nat i))). rewrite seq_nth by exact Hj.
  reflexivity.
Qed.

Lemma CalculateAdvances_entries (font : Font) (image : ImageBuffer) (glyphCountParam : Z) :
  0 < glyphCountParam ->
  CalculateAdvances font image glyphCountParam =
  Some (mkFont (glyphCount font) (advance_entries image glyphCountParam)
          (Z.quot (Height image) 2)
          (Z.quot (Z.quot (Z.quot (Width image) glyphCountParam) 2 + 3) 6 + 1)).
Proof.
  intros Hcount. unfold CalculateAdvances.
  assert ((glyphCountParam =? 0) = false) as -> by lia.
  f_equal. f_equal.
  set (width := Z.quot (Width image) glyphCountParam).
  set (zeros := repeat 0 (Z.to_nat (glyphCountParam * glyphCountParam))).
  assert (List.length zeros = Z.to_nat (glyphCountParam * glyphCountParam)) as Hzeros
    by apply repeat_length.
  pose proof (fun j => fill_rows_prefix_nth image width glyphCountParam Hcount zeros
                         (Z.to_nat (glyphCountParam - 1)) j) as Hfill.
  replace (1 + Z.of_nat (Z.to_nat (glyphCountParam - 1))) with glyphCountParam in Hfill by lia.
  cbv zeta in Hfill.
  apply (nth_ext _ _ 0 0).
  - destruct (Hfill O ltac:(rewrite Hzeros; nia)) as [Hlen _].
    rewrite Hlen, Hzeros. unfold advance_entries, Zrange.
    rewrite !length_map, length_seq. f_equal. lia.
  - intros j Hj.
    destruct (Hfill j ltac:(rewrite Hzeros; nia)) as [Hlen Hnth].
    rewrite Hlen, Hzeros in Hj. rewrite Hnth. unfold advance_entries.
    rewrite nth_map_Zrange by (replace (glyphCountParam * glyphCountParam - 0)
                                 with (glyphCountParam * glyphCountParam) by lia; exact Hj).
    rewrite Z.add_0_l.
    destruct (Z.leb_spec glyphCountParam (Z.of_nat j)) as [Hrow | Hrow].
    + assert ((Z.of_nat j <? glyphCountParam * glyphCountParam) = true) as ->
        by (apply Z.ltb_lt; lia).
      cbn [andb].
      assert (0 < Z.of_nat j / glyphCountParam) by (apply Z.div_str_pos; lia).
      assert ((Z.of_nat j / glyphCountParam =? 0) = false) as -> by (apply Z.eqb_neq; lia).
      reflexivity.
    + cbn [andb]. rewrite Z.div_small by lia. cbn [Z.eqb].
      unfold zeros. apply nth_repeat.
Qed.

Lemma Load_kerned_atlas : Load (mkFont 0 [] 0 0) kerned_atlas = Some kerned_font.
Proof.
  unfold Load. rewrite CalculateAdvances_entries by (unfold GLYPHS; lia). reflexivity.
Qed.

(** * Part VI: properties of the truncation search *)

Lemma search_loop_eq (trialWidth : Z -> Z) (width : Z) (s : SearchState) :
  search_loop trialWidth width s =
  match search_step trialWidth width s with
  | Some s' => search_loop trialWidth width s'
  | None => s
  end.
Proof.
  funelim (search_loop trialWidth width s).
  - rewrite Hstep. reflexivity.
  - rewrite e. reflexivity.
Qed.

(** A property kept by every turn holds when the loop is left. *)
Lemma search_loop_invariant (trialWidth : Z -> Z) (width : Z)
    (I : SearchState -> Prop) :
  (forall s s', I s -> search_step trialWidth width s = Some s' -> I s') ->
  forall s, I s ->
    I (search_loop trialWidth width s) /\
    search_step trialWidth width (search_loop trialWidth width s) = None.
Proof.
  intros Hkeep s. funelim (search_loop trialWidth width s); intros Hs.
  - apply H; [exact Hkeep |]. eapply Hkeep; eassumption.
  - split; assumption.
Qed.

Section SearchInvariant.

Variable trialWidth : Z -> Z.
Variable codePointCount : Z.

(** The search assumes that keeping more code points never gives a
    narrower trial string. *)
Definition nondecreasing : Prop :=
  forall j k, 0 <= j -> j <= k -> k <= codePointCount -> trialWidth j <= trialWidth k.

(** Without any assumption: the bracket stays inside the range, and the
    working pair is the initial (0, 0) or a probe that fits. *)
Definition bracket_invariant (width : Z) (s : SearchState) : Prop :=
  0 <= low s /\ high s <= codePointCount /\
  ((workingChars s = 0 /\ workingWidth s = 0) \/
   (0 < workingChars s <= codePointCount /\
    trialWidth (workingChars s) <= width /\
    workingWidth s = trialWidth (workingChars s))).

(** With the assumption: everything below [low] fits, nothing above
    [high] does, and [workingChars] follows the lower end. *)
Definition search_invariant (width : Z) (s : SearchState) : Prop :=
  0 <= low s /\ high s <= codePointCount /\ low s <= high s + 1 /\
  (forall k, high s < k -> k <= codePointCount -> width < trialWidth k) /\
  (forall k, 0 <= k -> k < low s -> trialWidth k <= width) /\
  Z.max (low s - 1) 0 <= workingChars s <= Z.max (high s) 0 /\
  (0 < workingChars s ->
   trialWidth (workingChars s) <= width /\
   workingWidth s = trialWidth (workingChars s)) /\
  (workingChars s = 0 -> workingWidth s = 0).

Lemma bracket_invariant_kept (width : Z) (s s' : SearchState) :
  bracket_invariant width s ->
  search_step trialWidth width s = Some s' ->
  bracket_invariant width s'.
Proof.
  unfold bracket_invariant, search_step. intros (Hlow & Hhigh & Hwork).
  destruct (Z.leb_spec (low s) (high s)) as [Hle | Hgt]; [| discriminate].
  pose proof (midpoint_between _ _ Hle) as Hmid.
  destruct (Z.leb_spec (trialWidth (Z.quot (low s + high s) 2)) width) as [Hfit | Hfit].
  - destruct (Z.eqb_spec (Z.quot (low s + high s) 2) (low s)) as [E | E];
      destruct (Z.gtb_spec (Z.quot (low s + high s) 2) (workingChars s)) as [Hgt | Hgt];
      intros H; inversion H; subst; simpl;
      (split; [lia |]); (split; [lia |]);
      first [exact Hwork | right; repeat split; lia].
  - intros H; inversion H; subst; simpl.
    (split; [lia |]); (split; [lia |]); exact Hwork.
Qed.

Lemma search_invariant_kept (width : Z) (s s' : SearchState) :
  nondecreasing ->
  search_invariant width s ->
  search_step trialWidth width s = Some s' ->
  search_invariant width s'.
Proof.
  unfold search_invariant, search_step.
  intros Hmono (Hlow & Hhigh & Hbr & Habove & Hbelow & Hwork & Hww & Hzero).
  destruct (Z.leb_spec (low s) (high s)) as [Hle | Hgt]; [| discriminate].
  pose proof (midpoint_between _ _ Hle) as Hmid.
  set (nextChars := Z.quot (low s + high s) 2) in *.
  assert (forall k, 0 <= k -> k <= nextChars -> trialWidth k <= trialWidth nextChars)
    as Hdown by (intros k H0 H1; apply Hmono; lia).
  assert (forall k, nextChars <= k -> k <= codePointCount ->
            trialWidth nextChars <= trialWidth k)
    as Hup by (intros k H0 H1; apply Hmono; lia).
  destruct (Z.leb_spec (trialWidth nextChars) width) as [Hfit | Hfit].
  - assert (forall k, 0 <= k -> k < nextChars + 1 -> trialWidth k <= width) as Hbelow'.
    { intros k H0 H1. specialize (Hdown k H0 ltac:(lia)). lia. }
    destruct (Z.eqb_spec nextChars (low s)) as [E | E];
      destruct (Z.gtb_spec nextChars (workingChars s)) as [Hgt | Hgt];
      intros H; inversion H; subst s'; simpl;
      (split; [lia |]); (split; [lia |]); (split; [lia |]);
      (split; [exact Habove |]);
      (split; [intros k H0 H1; apply Hbelow'; lia |]);
      (split; [lia |]); split; intros; try lia; auto.
  - intros H; inversion H; subst s'; simpl.
    assert (workingChars s <= Z.max (nextChars - 1) 0) as Hlt.
    { destruct (Z_le_gt_dec (workingChars s) 0) as [Hz | Hpos]; [lia |].
      destruct (Z_lt_le_dec (workingChars s) nextChars) as [Hok | Hbad]; [lia |].
      specialize (Hup (workingChars s) Hbad ltac:(lia)).
      destruct (Hww ltac:(lia)) as [Hfits _]. lia. }
    (split; [lia |]); (split; [lia |]); (split; [lia |]).
    split; [intros k H0 H1; specialize (Hup k ltac:(lia) H1); lia |].
    split; [exact Hbelow |]. split; [lia |]. split; assumption.
Qed.

(** The state in which [TruncateEndsOrMiddle] leaves its loop. *)
Definition search_result (width : Z) : SearchState :=
  search_loop trialWidth width (mkSearchState 0 0 0 codePointCount).

Lemma search_exit (width : Z) (s : SearchState) :
  search_step trialWidth width s = None -> high s < low s.
Proof.
  unfold search_step. destruct (Z.leb_spec (low s) (high s)); [| lia].
  destruct (_ <=? width); [destruct (_ >? _) |]; discriminate.
Qed.

(** If no trial string fits, the working pair is never written. *)
Lemma search_finds_nothing (width : Z) :
  (forall k, 0 <= k -> k <= codePointCount -> width < trialWidth k) ->
  workingChars (search_result width) = 0 /\ workingWidth (search_result width) = 0.
Proof.
  intros Hnone.
  pose (I := fun s => 0 <= low s /\ high s <= codePointCount /\
                      workingChars s = 0 /\ workingWidth s = 0).
  assert (I (search_result width)) as (_ & _ & Hc & Hw); [| split; assumption].
  apply (search_loop_invariant trialWidth width I).
  - intros s s' (Hlow & Hhigh & Hc & Hw). unfold search_step.
    destruct (Z.leb_spec (low s) (high s)) as [Hle | Hgt]; [| discriminate].
    pose proof (midpoint_between _ _ Hle) as Hmid.
    specialize (Hnone (Z.quot (low s + high s) 2) ltac:(lia) ltac:(lia)).
    destruct (Z.leb_spec (trialWidth (Z.quot (low s + high s) 2)) width) as [Hfit | _];
      [lia |].
    intros Hs'; inversion Hs'; subst; unfold I; simpl. lia.
  - unfold I; simpl. lia.
Qed.

(** The returned width is 0 or the width of a trial string that fits. *)
Lemma search_result_bracket (width : Z) :
  bracket_invariant width (search_result width).
Proof.
  apply (search_loop_invariant trialWidth width (bracket_invariant width)).
  - intros s s'. apply bracket_invariant_kept.
  - unfold bracket_invariant; simpl. split; [lia |]. split; [lia |]. left. split; reflexivity.
Qed.

Lemma search_result_invariant (width : Z) :
  nondecreasing -> 0 <= codePointCount ->
  search_invariant width (search_result width) /\
  low (search_result width) = high (search_result width) + 1.
Proof.
  intros Hmono Hcount.
  destruct (search_loop_invariant trialWidth width (search_invariant width)
              (fun s s' => search_invariant_kept width s s' Hmono)
              (mkSearchState 0 0 0 codePointCount)) as [Hinv Hexit].
  - unfold search_invariant; simpl.
    repeat split; intros; try lia.
  - split; [exact Hinv |]. apply search_exit in Hexit.
    destruct Hinv as (_ & _ & Hbr & _). fold (search_result width) in *. lia.
Qed.

(** Under the assumption the search returns the largest count that fits. *)
Lemma search_finds_largest (width k : Z) :
  nondecreasing ->
  0 <= k -> k <= codePointCount ->
  trialWidth k <= width ->
  (forall k', k < k' -> k' <= codePointCount -> width < trialWidth k') ->
  workingChars (search_result width) = k /\
  (0 < k -> workingWidth (search_result width) = trialWidth k).
Proof.
  intros Hmono Hk0 Hkn Hfit Hlargest.
  destruct (search_result_invariant width Hmono ltac:(lia))
    as [(Hlow & Hhigh & _ & Habove & Hbelow & Hwork & Hww & _) Hexit].
  set (s := search_result width) in *.
  assert (k <= high s) as Hle.
  { destruct (Z_le_gt_dec k (high s)) as [H | H]; [exact H |].
    specialize (Habove k ltac:(lia) Hkn). lia. }
  assert (high s <= k) as Hge.
  { destruct (Z_le_gt_dec (high s) k) as [H | H]; [exact H |].
    specialize (Hlargest (high s) ltac:(lia) Hhigh).
    specialize (Hbelow (high s) ltac:(lia) ltac:(lia)). lia. }
  assert (workingChars s = k) as Hwc by lia.
  split; [exact Hwc |]. intros Hpos. rewrite <- Hwc. apply Hww. lia.
Qed.

(** Under the assumption a larger budget never gives a smaller width. *)
Lemma search_width_monotone (w1 w2 : Z) :
  nondecreasing -> 0 <= codePointCount ->
  0 <= w1 -> w1 <= w2 ->
  workingWidth (search_result w1) <= workingWidth (search_result w2).
Proof.
  intros Hmono Hcount Hw1 Hw12.
  destruct (search_result_invariant w1 Hmono Hcount)
    as [(Hlow1 & Hhigh1 & _ & Habove1 & Hbelow1 & Hwork1 & Hww1 & Hzero1) Hexit1].
  destruct (search_result_invariant w2 Hmono Hcount)
    as [(Hlow2 & Hhigh2 & _ & Habove2 & Hbelow2 & Hwork2 & Hww2 & Hzero2) Hexit2].
  set (s1 := search_result w1) in *. set (s2 := search_result w2) in *.
  assert (high s1 <= high s2) as Hhigh.
  { destruct (Z_le_gt_dec (high s1) (high s2)) as [H | H]; [exact H |].
    specialize (Hbelow1 (high s1) ltac:(lia) ltac:(lia)).
    specialize (Habove2 (high s1) ltac:(lia) Hhigh1). lia. }
  destruct (Z_le_gt_dec (workingChars s1) 0) as [Hz1 | Hp1].
  - rewrite (Hzero1 ltac:(lia)).
    destruct (Z_le_gt_dec (workingChars s2) 0) as [Hz2 | Hp2].
    + rewrite (Hzero2 ltac:(lia)). lia.
    + destruct (Hww2 ltac:(lia)) as [_ ->].
      specialize (Habove1 1 ltac:(lia) ltac:(lia)).
      specialize (Hmono 1 (workingChars s2) ltac:(lia) ltac:(lia) ltac:(lia)). lia.
  - destruct (Hww1 ltac:(lia)) as [_ ->]. destruct (Hww2 ltac:(lia)) as [_ ->].
    apply Hmono; lia.
Qed.

End SearchInvariant.

Lemma CountCodePoints_loop_grows (str : bytes) (count pos : Z) :
  count <= CountCodePoints_loop str count pos.
Proof.
  funelim (CountCodePoints_loop str count pos); lia.
Qed.

Lemma CountCodePoints_nonneg (str : bytes) : 0 <= CountCodePoints str.
Proof. apply CountCodePoints_loop_grows. Qed.

(** The closures build the trial strings that the specification words. *)
Lemma policy_closure_trial (policy : Truncate) (str : bytes) (k : Z) :
  policy <> NONE -> 0 <= k ->
  policy_closure policy str k = trial_string policy str k.
Proof.
  intros Hpolicy Hk. destruct policy; try contradiction; try reflexivity.
  simpl. unfold TruncateMiddle_result, ceil_half, floor_half.
  rewrite !Z.quot_div_nonneg by lia.
  replace ((k + 1) / 2) with (k - k / 2); [reflexivity |].
  pose proof (Z.div_mod k 2 ltac:(lia)). pose proof (Z.mod_pos_bound k 2 ltac:(lia)).
  pose proof (Z.div_mod (k + 1) 2 ltac:(lia)).
  pose proof (Z.mod_pos_bound (k + 1) 2 ltac:(lia)). lia.
Qed.

Lemma TruncateText_dispatch (f : Font) (prefs : Preferences) (after : Z)
    (str : bytes) (width : Z) (alignment : Alignment) (policy : Truncate) :
  policy <> NONE -> 0 <= width ->
  TruncateText f prefs after (mkDisplayText str (Layout.mk width alignment policy)) =
  TruncateEndsOrMiddle f prefs after str width (policy_closure policy).
Proof.
  intros Hpolicy Hwidth. unfold TruncateText. simpl.
  assert ((width <? 0) = false) as -> by lia.
  destruct policy; try contradiction; rewrite ?andb_false_r; reflexivity.
Qed.

Lemma trial_width_nondecreasing_search (f : Font) (prefs : Preferences) (after : Z)
    (policy : Truncate) (str : bytes) :
  policy <> NONE ->
  trial_width_nondecreasing f prefs after policy str ->
  nondecreasing
    (fun nextChars => WidthRawString f prefs (policy_closure policy str nextChars) after)
    (CountCodePoints str).
Proof.
  intros Hpolicy Hmono j k Hj Hjk Hk. cbv beta.
  rewrite !policy_closure_trial by (assumption || lia).
  apply Hmono; assumption.
Qed.

(** ** Cutting between code points *)

Lemma size_nonneg_bytes (str : bytes) : 0 <= size str.
Proof. unfold size. lia. Qed.

Lemma size_app (a b : bytes) : size (a ++ b) = size a + size b.
Proof. unfold size. rewrite length_app. lia. Qed.

Lemma CountCodePoints_loop_eq (str : bytes) (count pos : Z) :
  CountCodePoints_loop str count pos =
  if (pos <? size str) && negb (pos =? npos)
  then CountCodePoints_loop str (count + 1) (Utf8.NextCodePoint str pos)
  else count.
Proof.
  funelim (CountCodePoints_loop str count pos).
  - rewrite Htest. reflexivity.
  - rewrite e. reflexivity.
Qed.

(** The count handed to the loop is carried along unchanged. *)
Lemma CountCodePoints_loop_shift (str : bytes) (count pos : Z) :
  forall d, CountCodePoints_loop str (count + d) pos = CountCodePoints_loop str count pos + d.
Proof.
  funelim (CountCodePoints_loop str count pos); intros d.
  - rewrite CountCodePoints_loop_eq, Htest.
    replace (count + d + 1) with (count + 1 + d) by lia. apply H.
  - rewrite CountCodePoints_loop_eq, e. reflexivity.
Qed.

Lemma skip_continuations_S (fuel : nat) (str : bytes) (pos : Z) :
  Utf8.skip_continuations (S fuel) str pos =
  match byte_at str pos with
  | Some b => if Utf8.is_continuation b then Utf8.skip_continuations fuel str (pos + 1) else pos
  | None => pos
  end.
Proof. reflexivity. Qed.

Lemma skip_continuations_le (fuel : nat) (str : bytes) :
  forall pos, pos <= size str -> Utf8.skip_continuations fuel str pos <= size str.
Proof.
  induction fuel as [| fuel IH]; intros pos Hpos; [exact Hpos |].
  rewrite skip_continuations_S.
  destruct (byte_at str pos) as [b |] eqn:Hb; [| exact Hpos].
  apply byte_at_in_bounds in Hb.
  destruct (Utf8.is_continuation b); [apply IH; lia | exact Hpos].
Qed.

(** Fuel beyond the bytes that are left changes nothing. *)
Lemma skip_continuations_fuel (str : bytes) (fuel : nat) :
  forall pos, size str - pos <= Z.of_nat fuel ->
    Utf8.skip_continuations (S fuel) str pos = Utf8.skip_continuations fuel str pos.
Proof.
  induction fuel as [| fuel IH]; intros pos Hfuel.
  - rewrite skip_continuations_S. cbn [Utf8.skip_continuations].
    destruct (byte_at str pos) as [b |] eqn:Hb; [| reflexivity].
    apply byte_at_in_bounds in Hb. lia.
  - rewrite (skip_continuations_S (S fuel) str pos), (skip_continuations_S fuel str pos).
    destruct (byte_at str pos) as [b |]; [| reflexivity].
    destruct (Utf8.is_continuation b); [| reflexivity].
    apply IH. lia.
Qed.

Lemma skip_continuations_enough (str : bytes) (fuel fuel' : nat) (pos : Z) :
  size str - pos <= Z.of_nat fuel -> (fuel <= fuel')%nat ->
  Utf8.skip_continuations fuel' str pos = Utf8.skip_continuations fuel str pos.
Proof.
  intros Hfuel Hle. induction Hle as [| fuel' Hle IH]; [reflexivity |].
  rewrite skip_continuations_fuel by lia. exact IH.
Qed.

Lemma NextCodePoint_le (str : bytes) (pos : Z) :
  0 <= pos < size str -> Utf8.NextCodePoint str pos <= size str.
Proof.
  intros Hpos. unfold Utf8.NextCodePoint.
  assert (((0 <=? pos) && (pos <? size str)) = true) as -> by lia.
  apply skip_continuations_le. lia.
Qed.

(** The scan on a prefix and on a suffix of the string. *)

Lemma skip_continuations_firstn (str : bytes) (p : Z) (fuel : nat) :
  0 <= p <= size str ->
  forall pos, pos <= p ->
    Utf8.skip_continuations fuel (firstn (Z.to_nat p) str) pos =
    Z.min p (Utf8.skip_continuations fuel str pos).
Proof.
  intros Hp. induction fuel as [| fuel IH]; intros pos Hpos.
  - cbn [Utf8.skip_continuations]. lia.
  - rewrite !skip_continuations_S.
    destruct (Z.eq_dec pos p) as [-> | Hne].
    + assert (byte_at (firstn (Z.to_nat p) str) p = None) as ->.
      { unfold byte_at. rewrite (size_firstn str p Hp).
        assert ((p <? p) = false) as -> by lia. rewrite andb_false_r. reflexivity. }
      destruct (byte_at str p) as [b |]; [| lia].
      destruct (Utf8.is_continuation b); [| lia].
      pose proof (skip_continuations_forward fuel str (p + 1)). lia.
    + rewrite byte_at_firstn by lia.
      destruct (byte_at str pos) as [b |]; [| lia].
      destruct (Utf8.is_continuation b); [| lia].
      apply IH. lia.
Qed.

Lemma NextCodePoint_firstn (str : bytes) (p pos : Z) :
  0 <= p <= size str -> 0 <= pos < p -> Utf8.NextCodePoint str pos <= p ->
  Utf8.NextCodePoint (firstn (Z.to_nat p) str) pos = Utf8.NextCodePoint str pos.
Proof.
  intros Hp Hpos. unfold Utf8.NextCodePoint. rewrite (size_firstn str p Hp).
  assert (((0 <=? pos) && (pos <? size str)) = true) as -> by lia.
  assert (((0 <=? pos) && (pos <? p)) = true) as -> by lia.
  intros Hnext.
  rewrite <- (skip_continuations_enough (firstn (Z.to_nat p) str)
                (List.length (firstn (Z.to_nat p) str)) (List.length str)).
  - rewrite skip_continuations_firstn by lia. lia.
  - fold (size (firstn (Z.to_nat p) str)). lia.
  - rewrite length_firstn. lia.
Qed.

Lemma size_skipn (str : bytes) (p : Z) :
  0 <= p <= size str -> size (skipn (Z.to_nat p) str) = size str - p.
Proof.
  intros Hp. unfold size in *. rewrite length_skipn. lia.
Qed.

Lemma byte_at_skipn (str : bytes) (p i : Z) :
  0 <= p <= size str -> 0 <= i ->
  byte_at (skipn (Z.to_nat p) str) i = byte_at str (p + i).
Proof.
  intros Hp Hi. unfold byte_at. rewrite (size_skipn str p Hp).
  assert ((0 <=? i) = true) as -> by lia.
  assert ((0 <=? p + i) = true) as -> by lia.
  destruct (Z.ltb_spec i (size str - p)) as [Hin | Hout].
  - assert ((p + i <? size str) = true) as -> by lia. cbn [andb].
    rewrite nth_error_skipn. do 2 f_equal. lia.
  - assert ((p + i <? size str) = false) as -> by lia. reflexivity.
Qed.

Lemma skip_continuations_skipn (str : bytes) (p : Z) (fuel : nat) :
  0 <= p <= size str ->
  forall i, 0 <= i ->
    Utf8.skip_continuations fuel str (p + i) =
    p + Utf8.skip_continuations fuel (skipn (Z.to_nat p) str) i.
Proof.
  intros Hp. induction fuel as [| fuel IH]; intros i Hi; [reflexivity |].
  rewrite !skip_continuations_S, byte_at_skipn by lia.
  destruct (byte_at str (p + i)) as [b |]; [| reflexivity].
  destruct (Utf8.is_continuation b); [| reflexivity].
  rewrite <- IH by lia. f_equal. lia.
Qed.

Lemma NextCodePoint_skipn (str : bytes) (p i : Z) :
  0 <= p <= size str -> 0 <= i < size str - p ->
  Utf8.NextCodePoint str (p + i) = p + Utf8.NextCodePoint (skipn (Z.to_nat p) str) i.
Proof.
  intros Hp Hi. unfold Utf8.NextCodePoint. rewrite (size_skipn str p Hp).
  assert (((0 <=? p + i) && (p + i <? size str)) = true) as -> by lia.
  assert (((0 <=? i) && (i <? size str - p)) = true) as -> by lia.
  rewrite (skip_continuations_enough str (List.length (skipn (Z.to_nat p) str))
             (List.length str)).
  - replace (p + i + 1) with (p + (i + 1)) by lia.
    apply skip_continuations_skipn; lia.
  - fold (size (skipn (Z.to_nat p) str)). rewrite size_skipn by lia. lia.
  - rewrite length_skipn. lia.
Qed.

(** Counting in a suffix is counting in the string from where the suffix
    starts. *)
Lemma CountCodePoints_loop_skipn (str : bytes) (p : Z) :
  size str < npos -> 0 <= p <= size str ->
  forall (n : nat) (count i : Z),
    0 <= i -> size str - p - i <= Z.of_nat n ->
    CountCodePoints_loop (skipn (Z.to_nat p) str) count i =
    CountCodePoints_loop str count (p + i).
Proof.
  intros Hsize Hp. induction n as [| n IH]; intros count i Hi Hn;
    rewrite (CountCodePoints_loop_eq (skipn _ _)), (CountCodePoints_loop_eq str);
    rewrite (size_skipn str p Hp).
  - assert ((i <? size str - p) = false) as -> by lia.
    assert ((p + i <? size str) = false) as -> by lia. reflexivity.
  - destruct (Z.ltb_spec i (size str - p)) as [Hin | Hout].
    + assert ((p + i <? size str) = true) as -> by lia.
      assert ((i =? npos) = false) as -> by lia.
      assert ((p + i =? npos) = false) as -> by lia. cbn [andb negb].
      rewrite NextCodePoint_skipn by lia.
      assert (i < Utf8.NextCodePoint (skipn (Z.to_nat p) str) i) as Hnext
        by (apply NextCodePoint_progress; rewrite size_skipn by lia; lia).
      apply IH; lia.
    + assert ((p + i <? size str) = false) as -> by lia. reflexivity.
Qed.

(** After [todo] turns from an offset with at least [todo] code points
    ahead, the loop of [ByteOffsetAfterCodePoints] stands where [todo] of
    them lie behind and the others ahead. *)
Lemma ByteOffset_loop_counts (str : bytes) :
  size str < npos ->
  forall (todo : nat) (pos : Z),
    0 <= pos <= size str ->
    Z.of_nat todo <= CountCodePoints_loop str 0 pos ->
    pos <= ByteOffset_loop str todo pos <= size str /\
    CountCodePoints_loop str 0 (ByteOffset_loop str todo pos) =
      CountCodePoints_loop str 0 pos - Z.of_nat todo /\
    CountCodePoints_loop (firstn (Z.to_nat (ByteOffset_loop str todo pos)) str) 0 pos =
      Z.of_nat todo.
Proof.
  intros Hsize. induction todo as [| todo IH]; intros pos Hpos Hcount.
  - cbn [ByteOffset_loop]. split; [lia |]. split; [lia |].
    rewrite CountCodePoints_loop_eq, size_firstn by lia.
    assert ((pos <? pos) = false) as -> by lia. reflexivity.
  - rewrite CountCodePoints_loop_eq in Hcount.
    destruct (Z.ltb_spec pos (size str)) as [Hin | Hout]; cbn [andb] in Hcount; [| lia].
    assert ((pos =? npos) = false) as Hnpos by lia.
    rewrite Hnpos in Hcount. cbn [negb] in Hcount.
    rewrite (CountCodePoints_loop_shift str 0 _ 1) in Hcount.
    pose proof (NextCodePoint_progress str pos Hin) as Hnext.
    pose proof (NextCodePoint_le str pos ltac:(lia)) as Hle.
    cbn [ByteOffset_loop]. rewrite Hnpos.
    assert ((pos <? size str) = true) as -> by lia. cbn [andb negb].
    destruct (IH (Utf8.NextCodePoint str pos) ltac:(lia) ltac:(lia)) as (Hrange & Hahead & Hbehind).
    set (p := ByteOffset_loop str todo (Utf8.NextCodePoint str pos)) in *.
    split; [lia |]. split.
    + rewrite Hahead, (CountCodePoints_loop_eq str 0 pos), Hnpos.
      assert ((pos <? size str) = true) as -> by lia. cbn [andb negb].
      rewrite (CountCodePoints_loop_shift str 0 _ 1). lia.
    + rewrite CountCodePoints_loop_eq, size_firstn by lia.
      assert ((pos <? p) = true) as -> by lia. rewrite Hnpos. cbn [andb negb].
      rewrite NextCodePoint_firstn by lia.
      rewrite (CountCodePoints_loop_shift _ 0 _ 1), Hbehind. lia.
Qed.

(** The byte offset after [n] code points cuts the string into a piece of
    [n] code points and a piece with the others. *)
Lemma ByteOffsetAfterCodePoints_counts (str : bytes) (n : Z) :
  size str < npos -> 0 <= n <= CountCodePoints str ->
  0 <= ByteOffsetAfterCodePoints str n <= size str /\
  CountCodePoints (firstn (Z.to_nat (ByteOffsetAfterCodePoints str n)) str) = n /\
  CountCodePoints (skipn (Z.to_nat (ByteOffsetAfterCodePoints str n)) str) =
    CountCodePoints str - n.
Proof.
  intros Hsize Hn. pose proof (size_nonneg_bytes str) as Hnonneg.
  destruct (ByteOffset_loop_counts str Hsize (Z.to_nat n) 0 ltac:(lia))
    as (Hrange & Hahead & Hbehind).
  { fold (CountCodePoints str). lia. }
  unfold ByteOffsetAfterCodePoints. cbv zeta.
  set (p := ByteOffset_loop str (Z.to_nat n) 0) in *.
  assert ((p =? npos) = false) as -> by lia.
  assert ((p >? size str) = false) as -> by (rewrite Z.gtb_ltb; apply Z.ltb_ge; lia).
  cbn [orb]. split; [lia |]. split.
  - unfold CountCodePoints at 1. rewrite Hbehind. lia.
  - unfold CountCodePoints at 1.
    rewrite (CountCodePoints_loop_skipn str p Hsize ltac:(lia) (Z.to_nat (size str)))
      by lia.
    rewrite Z.add_0_r, Hahead. fold (CountCodePoints str). lia.
Qed.

(** What [SubstringFirstCodePoints] and [SubstringLastCodePoints] return
    for a count between 0 and the number of code points of the string. *)
Lemma SubstringFirstCodePoints_first (str : bytes) (n : Z) :
  size str < npos -> 0 <= n <= CountCodePoints str ->
  first_code_points str n (SubstringFirstCodePoints str n).
Proof.
  intros Hsize Hn.
  destruct (ByteOffsetAfterCodePoints_counts str n Hsize Hn) as (_ & Hhead & Hrest).
  exists (skipn (Z.to_nat (ByteOffsetAfterCodePoints str n)) str).
  unfold SubstringFirstCodePoints, substr. cbn [Z.to_nat skipn].
  split; [symmetry; apply firstn_skipn |]. split; assumption.
Qed.

Lemma SubstringLastCodePoints_last (str : bytes) (n : Z) :
  size str < npos -> 0 <= n <= CountCodePoints str ->
  last_code_points str n (SubstringLastCodePoints str n).
Proof.
  intros Hsize Hn. unfold SubstringLastCodePoints. cbv zeta.
  destruct (Z.leb_spec (CountCodePoints str) n) as [Hall | Hcut].
  - exists []. split; [reflexivity |]. split; [lia |].
    replace (CountCodePoints str - n) with 0 by lia. reflexivity.
  - destruct (ByteOffsetAfterCodePoints_counts str (CountCodePoints str - n) Hsize
                ltac:(lia)) as (_ & Hhead & Hrest).
    exists (firstn (Z.to_nat (ByteOffsetAfterCodePoints str (CountCodePoints str - n))) str).
    unfold substr_from.
    split; [symmetry; apply firstn_skipn |]. split; [lia | exact Hhead].
Qed.

Lemma half_counts (k : Z) : 0 <= k -> 0 <= floor_half k <= k /\ 0 <= ceil_half k <= k.
Proof.
  intros Hk. unfold floor_half, ceil_half.
  pose proof (Z.div_mod k 2 ltac:(lia)). pose proof (Z.mod_pos_bound k 2 ltac:(lia)). lia.
Qed.

(** The trial string of a policy is made of the code points that the
    specification names. *)
Lemma no_code_points_first (str : bytes) : first_code_points str 0 [].
Proof.
  exists str. split; [reflexivity |]. split; [reflexivity | lia].
Qed.

Lemma no_code_points_last (str : bytes) : last_code_points str 0 [].
Proof.
  exists str. split; [symmetry; apply app_nil_r |]. split; [reflexivity | lia].
Qed.

Lemma trial_string_pieces (policy : Truncate) (str : bytes) (k : Z) :
  policy <> NONE -> size str < npos -> 0 <= k <= CountCodePoints str ->
  exists head tail,
    trial_string policy str k = head ++ ellipsis ++ tail /\
    first_code_points str (kept_first policy k) head /\
    last_code_points str (kept_last policy k) tail.
Proof.
  intros Hpolicy Hsize Hk. pose proof (half_counts k ltac:(lia)) as [Hfloor Hceil].
  destruct policy; [contradiction | | |]; cbn [trial_string kept_first kept_last].
  - exists [], (SubstringLastCodePoints str k).
    split; [reflexivity |].
    split; [apply no_code_points_first | apply SubstringLastCodePoints_last; assumption].
  - exists (SubstringFirstCodePoints str (ceil_half k)),
           (SubstringLastCodePoints str (floor_half k)).
    split; [reflexivity |].
    split; [apply SubstringFirstCodePoints_first | apply SubstringLastCodePoints_last];
      assumption || lia.
  - exists (SubstringFirstCodePoints str k), [].
    split; [rewrite app_nil_r; reflexivity |].
    split; [apply SubstringFirstCodePoints_first; assumption | apply no_code_points_last].
Qed.

(** ** The search keeps the largest count that fits *)

(** C1.  For every string (of fewer than [npos] bytes, as a string of the
    program is), every non-negative budget and each of the policies FRONT,
    MIDDLE and BACK: if the raw width of the string exceeds the budget and
    the trial width is non-decreasing in the number of code points kept,
    the truncation returns the trial string of the policy for the largest
    k between 0 and the code point count whose trial width does not exceed
    the budget, a trial width equal to the budget counting as fitting.
    The string returned is a head, the ellipsis and a tail, where the head
    is the first k code points of the string and the tail is empty (BACK),
    the head is empty and the tail is the last k code points (FRONT), or
    the head is the first ceil(k/2) and the tail the last floor(k/2) code
    points (MIDDLE); code points are counted with [Utf8::NextCodePoint] as
    the specification describes it. *)
Theorem truncation_keeps_largest_fitting_count
    (f : Font) (prefs : Preferences) (after : Z) (str : bytes) (width : Z)
    (alignment : Alignment) (policy : Truncate) (k : Z) :
  policy <> NONE ->
  size str < npos ->
  0 <= width ->
  width < WidthRawString f prefs str after ->
  trial_width_nondecreasing f prefs after policy str ->
  0 <= k <= CountCodePoints str ->
  trial_width f prefs after policy str k <= width ->
  (forall k', k < k' <= CountCodePoints str ->
     width < trial_width f prefs after policy str k') ->
  fst (TruncateText f prefs after (mkDisplayText str (Layout.mk width alignment policy)))
  = trial_string policy str k /\
  exists head tail,
    fst (TruncateText f prefs after (mkDisplayText str (Layout.mk width alignment policy)))
    = head ++ ellipsis ++ tail /\
    first_code_points str (kept_first policy k) head /\
    last_code_points str (kept_last policy k) tail.
Proof.
  intros Hpolicy Hsize Hwidth Hover Hmono Hk Hfit Hlargest.
  assert (fst (TruncateText f prefs after
                 (mkDisplayText str (Layout.mk width alignment policy)))
          = trial_string policy str k) as Hresult.
  { rewrite TruncateText_dispatch by assumption.
    unfold TruncateEndsOrMiddle.
    assert ((WidthRawString f prefs str after <=? width) = false) as -> by lia.
    simpl.
    pose proof (search_finds_largest
      (fun nextChars => WidthRawString f prefs (policy_closure policy str nextChars) after)
      (CountCodePoints str) width k
      (trial_width_nondecreasing_search f prefs after policy str Hpolicy Hmono)) as Hsearch.
    cbv beta in Hsearch. unfold search_result in Hsearch.
    destruct Hsearch as [Hchars _]; try lia.
    - rewrite policy_closure_trial by (assumption || lia). exact Hfit.
    - intros k' H1 H2. rewrite policy_closure_trial by (assumption || lia).
      apply Hlargest. lia.
    - rewrite Hchars. apply policy_closure_trial; [assumption | lia]. }
  split; [exact Hresult |]. rewrite Hresult.
  apply trial_string_pieces; assumption.
Qed.

(** The trial widths of [cyrillic_text] under MIDDLE on the flat font of
    the extended roster, and the string that keeps three code points: two
    letters, the ellipsis, one letter. *)
Lemma cyrillic_trial_widths (k : Z) :
  0 <= k <= 8 ->
  trial_width extended_font plain_prefs 32 MIDDLE cyrillic_text k = 6 + 2 * k.
Proof.
  intros Hk.
  assert (k = 0 \/ k = 1 \/ k = 2 \/ k = 3 \/ k = 4 \/ k = 5 \/ k = 6 \/ k = 7 \/ k = 8)
    as Hcases by lia.
  repeat (destruct Hcases as [-> | Hcases]; [vm_compute; reflexivity |]).
  subst k. vm_compute. reflexivity.
Qed.

Lemma cyrillic_trial_string :
  trial_string MIDDLE cyrillic_text 3 =
  [xd0; xb0; xd0; xb1] ++ ellipsis ++ [xd0; xb7].
Proof. vm_compute. reflexivity. Qed.

Lemma truncation_keeps_largest_fitting_count_witness :
  fst (TruncateText extended_font plain_prefs 32
         (mkDisplayText cyrillic_text (Layout.mk 12 RIGHT MIDDLE)))
  = trial_string MIDDLE cyrillic_text 3 /\
  exists head tail,
    fst (TruncateText extended_font plain_prefs 32
           (mkDisplayText cyrillic_text (Layout.mk 12 RIGHT MIDDLE)))
    = head ++ ellipsis ++ tail /\
    first_code_points cyrillic_text (kept_first MIDDLE 3) head /\
    last_code_points cyrillic_text (kept_last MIDDLE 3) tail.
Proof.
  assert (CountCodePoints cyrillic_text = 8) as Hcount by (vm_compute; reflexivity).
  apply (truncation_keeps_largest_fitting_count extended_font plain_prefs 32
           cyrillic_text 12 RIGHT MIDDLE 3).
  - discriminate.
  - vm_compute. reflexivity.
  - lia.
  - vm_compute. reflexivity.
  - intros j k Hj Hjk Hk. rewrite Hcount in Hk.
    rewrite !cyrillic_trial_widths by lia. lia.
  - rewrite Hcount. lia.
  - vm_compute. discriminate.
  - intros k' Hk'. rewrite Hcount in Hk'. rewrite cyrillic_trial_widths by lia. lia.
Defined.

(** ** The width returned for growing budgets *)

(** C5, as stated, fails.  On the font loaded from [kerned_atlas] the
    trial widths of "cabcaa" under BACK are 0, 0, 4, 5, 3, 7, 9 and the raw
    width is 9: the budget 4 returns the width 4, the larger budget 5
    returns the width 3. *)
Lemma truncated_width_can_decrease :
  option_map
    (fun f =>
       (WidthRawString f plain_prefs (literal "cabcaa") 32,
        map (trial_width f plain_prefs 32 BACK (literal "cabcaa")) (Zrange 0 7),
        TruncateText f plain_prefs 32
          (mkDisplayText (literal "cabcaa") (Layout.mk 4 RIGHT BACK)),
        TruncateText f plain_prefs 32
          (mkDisplayText (literal "cabcaa") (Layout.mk 5 RIGHT BACK))))
    (Load (mkFont 0 [] 0 0) kerned_atlas)
  = Some (9, [0; 0; 4; 5; 3; 7; 9], (literal "ca...", 4), (literal "cabc...", 3)).
Proof.
  rewrite Load_kerned_atlas. cbn [option_map]. vm_compute. reflexivity.
Qed.

(** C5, amended.  For every string and each of the policies FRONT, MIDDLE
    and BACK, if the trial width is non-decreasing in the number of code
    points kept, then over non-negative budgets the width returned by the
    truncation is non-decreasing in the budget; and for every non-negative
    budget that is at least the raw width of the string, the string is
    returned as it is, with its raw width. *)
Theorem truncation_width_monotone
    (f : Font) (prefs : Preferences) (after : Z) (str : bytes)
    (alignment : Alignment) (policy : Truncate) :
  policy <> NONE ->
  trial_width_nondecreasing f prefs after policy str ->
  (forall w1 w2, 0 <= w1 -> w1 <= w2 ->
     snd (TruncateText f prefs after (mkDisplayText str (Layout.mk w1 alignment policy)))
     <= snd (TruncateText f prefs after (mkDisplayText str (Layout.mk w2 alignment policy)))) /\
  (forall w, 0 <= w -> WidthRawString f prefs str after <= w ->
     TruncateText f prefs after (mkDisplayText str (Layout.mk w alignment policy))
     = (str, WidthRawString f prefs str after)).
Proof.
  intros Hpolicy Hmono.
  pose proof (trial_width_nondecreasing_search f prefs after policy str Hpolicy Hmono)
    as Hsearch.
  set (trialWidth := fun nextChars =>
         WidthRawString f prefs (policy_closure policy str nextChars) after) in *.
  split.
  - intros w1 w2 Hw1 Hw12.
    rewrite !TruncateText_dispatch by (assumption || lia).
    unfold TruncateEndsOrMiddle. fold trialWidth.
    fold (search_result trialWidth (CountCodePoints str) w1).
    fold (search_result trialWidth (CountCodePoints str) w2).
    destruct (Z.leb_spec (WidthRawString f prefs str after) w1) as [Hfit1 | Hover1];
      destruct (Z.leb_spec (WidthRawString f prefs str after) w2) as [Hfit2 | Hover2];
      simpl; try lia.
    + pose proof (search_result_bracket trialWidth (CountCodePoints str) w1)
        as (_ & _ & [[_ Hzero] | (_ & Hfits & Hww)]); lia.
    + apply search_width_monotone;
        [exact Hsearch | apply CountCodePoints_nonneg | lia | lia].
  - intros w Hw Hfit. rewrite TruncateText_dispatch by assumption.
    unfold TruncateEndsOrMiddle.
    assert ((WidthRawString f prefs str after <=? w) = true) as -> by lia.
    reflexivity.
Qed.

(** The trial widths of "abcdefgh" under BACK on the flat Latin font. *)
Lemma flat_trial_widths (k : Z) :
  0 <= k <= 8 ->
  trial_width latin_font plain_prefs 32 BACK (literal "abcdefgh") k = 6 + 2 * k.
Proof.
  intros Hk.
  assert (k = 0 \/ k = 1 \/ k = 2 \/ k = 3 \/ k = 4 \/ k = 5 \/ k = 6 \/ k = 7 \/ k = 8)
    as Hcases by lia.
  repeat (destruct Hcases as [-> | Hcases]; [vm_compute; reflexivity |]).
  subst k. vm_compute. reflexivity.
Qed.

Lemma truncation_width_monotone_witness :
  snd (TruncateText latin_font plain_prefs 32
         (mkDisplayText (literal "abcdefgh") (Layout.mk 9 RIGHT BACK)))
  <= snd (TruncateText latin_font plain_prefs 32
            (mkDisplayText (literal "abcdefgh") (Layout.mk 13 RIGHT BACK))).
Proof.
  assert (CountCodePoints (literal "abcdefgh") = 8) as Hcount by (vm_compute; reflexivity).
  apply (truncation_width_monotone latin_font plain_prefs 32
           (literal "abcdefgh") RIGHT BACK).
  - discriminate.
  - intros j k Hj Hjk Hk. rewrite Hcount in Hk.
    rewrite !flat_trial_widths by lia. lia.
  - lia.
  - lia.
Defined.

(** ** A budget below every trial string *)

(** C6.  If the raw width and the width of every trial string, the one of
    the bare ellipsis included, exceed the budget, the search ends and
    returns the trial string for k = 0, and the width it returns is 0, not
    the measured width of that string. *)
Theorem search_below_every_trial
    (f : Font) (prefs : Preferences) (after : Z) (str : bytes) (width : Z)
    (getResult : bytes -> Z -> bytes) :
  width < WidthRawString f prefs str after ->
  (forall k, 0 <= k <= CountCodePoints str ->
     width < WidthRawString f prefs (getResult str k) after) ->
  TruncateEndsOrMiddle f prefs after str width getResult = (getResult str 0, 0).
Proof.
  intros Hover Hnone. unfold TruncateEndsOrMiddle.
  assert ((WidthRawString f prefs str after <=? width) = false) as -> by lia.
  pose proof (search_finds_nothing
    (fun nextChars => WidthRawString f prefs (getResult str nextChars) after)
    (CountCodePoints str) width) as Hsearch.
  unfold search_result in Hsearch. cbv beta in Hsearch.
  destruct Hsearch as [Hchars Hwidth]; [intros k H0 H1; apply Hnone; lia |].
  simpl. rewrite Hchars, Hwidth. reflexivity.
Qed.

Lemma search_below_every_trial_witness :
  TruncateBack latin_font plain_prefs 32 (literal "abc") 5 = (literal "...", 0) /\
  WidthRawString latin_font plain_prefs (literal "...") 32 = 6.
Proof.
  split; [| vm_compute; reflexivity].
  apply (search_below_every_trial latin_font plain_prefs 32 (literal "abc") 5
           TruncateBack_result).
  - vm_compute. reflexivity.
  - intros k Hk.
    assert (CountCodePoints (literal "abc") = 3) as Hcount by (vm_compute; reflexivity).
    rewrite Hcount in Hk.
    assert (k = 0 \/ k = 1 \/ k = 2 \/ k = 3) as Hcases by lia.
    destruct Hcases as [-> | [-> | [-> | ->]]]; vm_compute; reflexivity.
Defined.


(** * Part VII: properties of the further members of [Font] *)

(** ** The byte resolver and the roster *)

Lemma In_Zrange (lo hi i : Z) : lo <= i < hi -> In i (Zrange lo hi).
Proof.
  intros Hi. unfold Zrange. apply in_map_iff.
  exists (Z.to_nat (i - lo)). split; [lia |].
  apply in_seq. lia.
Qed.

(** A check that holds on every integer of a range, by running it. *)
Lemma forallb_Zrange (P : Z -> bool) (lo hi : Z) :
  forallb P (Zrange lo hi) = true -> forall i, lo <= i < hi -> P i = true.
Proof.
  intros Hall i Hi. rewrite forallb_forall in Hall. apply Hall, In_Zrange, Hi.
Qed.

(** X1.  On a font of either roster the codepoint resolver agrees with the
    byte resolver [Glyph] on every value from 0 to 126, for either value of
    [isAfterSpace]. *)
Theorem GlyphForCodepoint_extends_Glyph (f : Font) (c : Z) (isAfterSpace : bool) :
  glyphCount f = GLYPHS \/ glyphCount f = GLYPHS_EXTENDED ->
  0 <= c <= 126 ->
  GlyphForCodepoint f c isAfterSpace = Glyph c isAfterSpace.
Proof.
  intros Hroster Hc. unfold Glyph.
  destruct (Z_lt_le_dec c 32) as [Hlow | Hascii].
  - assert (((c =? 0x27) && isAfterSpace) = false) as ->
      by (apply andb_false_iff; left; apply Z.eqb_neq; lia).
    assert (((c =? 0x22) && isAfterSpace) = false) as ->
      by (apply andb_false_iff; left; apply Z.eqb_neq; lia).
    rewrite Z.max_l by lia.
    rewrite GlyphForCodepoint_equation_1.
    assert (forall k, k <> c -> (c =? k) = false) as Hne
      by (intros k Hk; apply Z.eqb_neq; congruence).
    rewrite !Hne by lia. cbn [orb andb].
    assert (((32 <=? c) && (c <=? 126)) = false) as ->
      by (apply andb_false_iff; left; apply Z.leb_gt; lia).
    assert (extended_glyph c = None) as Hext.
    { unfold extended_glyph. rewrite !Hne by lia.
      assert ((0x0410 <=? c) = false) as -> by (apply Z.leb_gt; lia).
      assert ((0x0430 <=? c) = false) as -> by (apply Z.leb_gt; lia).
      reflexivity. }
    rewrite Hext. destruct (glyphCount f =? GLYPHS_EXTENDED).
    all: unfold Utf8.invalidCp; rewrite Hne by lia; cbn [negb].
    all: assert (SubstituteUnsupported c = 0) as Hsub
        by (unfold SubstituteUnsupported; rewrite !Hne by lia; reflexivity).
    all: destruct (Z.eq_dec (SubstituteUnsupported c) 0); [reflexivity | contradiction].
  - rewrite GlyphForCodepoint_ascii by lia.
    unfold GLYPHS, GLYPHS_EXTENDED in *.
    destruct Hroster as [-> | ->]; split_ifs; lia.
Qed.

Lemma GlyphForCodepoint_extends_Glyph_witness :
  GlyphForCodepoint latin_font 0x41 false = Glyph 0x41 false.
Proof.
  apply (GlyphForCodepoint_extends_Glyph latin_font 0x41 false).
  - left. reflexivity.
  - lia.
Defined.

(** X2.  Whatever the font, the resolver never answers 95, the slot of the
    placeholder glyph. *)
Theorem placeholder_slot_never_answered (f : Font) (codepoint : Z) (isAfterSpace : bool) :
  GlyphForCodepoint f codepoint isAfterSpace <> 95.
Proof.
  pose proof (GlyphForCodepoint_cases f codepoint isAfterSpace) as H.
  cbv zeta in H. lia.
Qed.

(** X3.  The roster of [LoadFromTtf] has one codepoint per slot of the
    extended atlas, and on a font of the extended roster the resolver sends
    the codepoint of every slot except the placeholder slot 95 back to that
    slot (for the quote slots 96 and 97 when read after a space, for the
    others when not). *)
Theorem LoadFromTtf_roster_round_trip (f : Font) (i : Z) :
  glyphCount f = GLYPHS_EXTENDED ->
  0 <= i < GLYPHS_EXTENDED ->
  i <> 95 ->
  Z.of_nat (List.length codepoints) = GLYPHS_EXTENDED /\
  GlyphForCodepoint f (nth (Z.to_nat i) codepoints 0) (slot_context i) = i.
Proof.
  intros Hcount Hi Hslot. split; [reflexivity |].
  destruct f as [count table h sp]. cbn [glyphCount] in Hcount. subst count.
  pose (check := fun i =>
    (i =? 95)
    || (GlyphForCodepoint (mkFont GLYPHS_EXTENDED table h sp)
          (nth (Z.to_nat i) codepoints 0) (slot_context i) =? i)).
  assert (forallb check (Zrange 0 GLYPHS_EXTENDED) = true) as Hall
    by (vm_compute; reflexivity).
  pose proof (forallb_Zrange check 0 GLYPHS_EXTENDED Hall i Hi) as Hcheck.
  unfold check in Hcheck. apply orb_prop in Hcheck.
  destruct Hcheck as [H95 | Hok]; [apply Z.eqb_eq in H95; contradiction |].
  apply Z.eqb_eq in Hok. exact Hok.
Qed.

Lemma LoadFromTtf_roster_round_trip_witness :
  GlyphForCodepoint extended_font (nth 164 codepoints 0) false = 164.
Proof.
  apply (LoadFromTtf_roster_round_trip extended_font 164).
  - reflexivity.
  - unfold GLYPHS_EXTENDED. lia.
  - lia.
Defined.

(** ** Widths that fit an [int] are not negative *)

(** A property kept by every turn of the measuring loop holds when the
    loop is left. *)
Lemma WidthRawString_loop_invariant (f : Font) (prefs : Preferences) (str : bytes)
    (I : MeasureState -> Prop) :
  (forall st st', I st -> WidthRawString_step f prefs str st = Some st' -> I st') ->
  forall st, I st -> I (WidthRawString_loop f prefs str st).
Proof.
  intros Hkeep st. funelim (WidthRawString_loop f prefs str st); intros Hst.
  - apply H; [exact Hkeep |]. eapply Hkeep; eassumption.
  - exact Hst.
Qed.

(** A value inside the range of an [int] is stored as it is. *)
Lemma int32_small (z : Z) : - 2 ^ 31 <= z < 2 ^ 31 -> int32 z = z.
Proof.
  intros Hz. unfold int32. rewrite Z.mod_small by lia. lia.
Qed.

Lemma advance_at_bounded (f : Font) (M i : Z) :
  0 <= M -> Forall (fun a => 0 <= a <= M) (advance f) -> 0 <= advance_at f i <= M.
Proof.
  intros HM Hall. unfold advance_at.
  destruct ((0 <=? i) && (i <? Z.of_nat (List.length (advance f)))) eqn:Hin; [| lia].
  rewrite Forall_forall in Hall. apply Hall, nth_In.
  apply andb_prop in Hin. destruct Hin as [H0 H1].
  apply Z.leb_le in H0. apply Z.ltb_lt in H1. lia.
Qed.

(** With advances and a space between 0 and [M], each turn of the
    measuring loop adds at most [M] plus the letter spacing, and there are
    no more turns than bytes: while that bound, scaled, fits an [int], no
    sum and no product of [WidthRawString] wraps, and the width is not
    negative. *)
Lemma WidthRawString_fits (f : Font) (prefs : Preferences) (str : bytes) (after M : Z) :
  Forall (fun a => 0 <= a <= M) (advance f) -> 0 <= space f <= M ->
  0 <= LetterSpacing prefs -> 0 <= FontScale prefs ->
  (size str + 1) * (M + LetterSpacing prefs) * Z.max 1 (FontScale prefs) < 2 ^ 31 ->
  0 <= WidthRawString f prefs str after.
Proof.
  intros Hall Hspace Hkern Hscale Hfits.
  assert (0 <= M) as HM by lia.
  pose proof (size_nonneg_bytes str) as Hsize.
  set (B := M + LetterSpacing prefs) in *.
  assert (0 <= B) as HB0 by (unfold B; lia).
  assert (0 <= size str * B) as Hprod by (apply Z.mul_nonneg_nonneg; lia).
  assert ((size str + 1) * B <= (size str + 1) * B * Z.max 1 (FontScale prefs)) as Hscaled.
  { rewrite <- (Z.mul_1_r ((size str + 1) * B)) at 1.
    apply Z.mul_le_mono_nonneg_l; lia. }
  assert (forall st, 0 <= m_pos st <= size str -> m_pos st * B <= size str * B) as Hturns
    by (intros st Hst; apply Z.mul_le_mono_nonneg_r; lia).
  assert (let st := WidthRawString_loop f prefs str WidthRawString_init in
          0 <= m_width st <= m_pos st * B /\ 0 <= m_pos st <= size str) as Hinv.
  { cbv zeta.
    apply (WidthRawString_loop_invariant f prefs str
             (fun st => 0 <= m_width st <= m_pos st * B /\ 0 <= m_pos st <= size str));
      [| cbn; lia].
    intros st st' [Hw Hp] Hstep.
    pose proof (WidthRawString_step_progress _ _ _ _ _ Hstep) as (_ & Hnext & Hend).
    split; [| lia].
    assert ((m_pos st + 1) * B <= m_pos st' * B) as Hgrow
      by (apply Z.mul_le_mono_nonneg_r; lia).
    pose proof (Hturns st' ltac:(lia)) as Hlast.
    revert Hstep Hgrow Hlast. unfold WidthRawString_step.
    destruct (m_pos st <? size str); [| discriminate].
    destruct (Utf8.DecodeCodePoint str (m_pos st)) as [cp pos].
    destruct (pos =? npos); [discriminate |].
    intros Hs; inversion Hs; subst st'. rewrite WidthRawString_body_pos.
    unfold WidthRawString_body. intros Hgrow Hlast.
    destruct (cp =? 0x5F); [cbn [m_width]; lia |].
    pose proof (advance_at_bounded f M
                  (advance_index f (m_previous st)
                     (GlyphForCodepoint f cp (m_isAfterSpace st))) HM Hall) as Hadv.
    destruct (GlyphForCodepoint f cp (m_isAfterSpace st) =? 0); cbn [m_width].
    - rewrite int32_small by lia. lia.
    - rewrite (int32_small (advance_at f _ + LetterSpacing prefs)) by lia.
      rewrite int32_small by lia. lia. }
  cbv zeta in Hinv. destruct Hinv as [Hw Hp].
  pose proof (Hturns _ Hp) as Hlast.
  unfold WidthRawString, scale_width. cbv zeta.
  set (st := WidthRawString_loop f prefs str WidthRawString_init) in *.
  pose proof (advance_at_bounded f M
                (advance_index f (m_previous st)
                   (Z.max 0 (Z.min (glyphCount f - 1)
                      (if (32 <=? after) && (after <=? 126) then after - 32 else 0))))
                HM Hall) as Hadv.
  set (closing := advance_at f _) in *.
  rewrite (int32_small (m_width st + closing)) by lia.
  assert (0 <= (m_width st + closing) * FontScale prefs) as Hlow
    by (apply Z.mul_nonneg_nonneg; lia).
  assert ((m_width st + closing) * FontScale prefs
          <= (size str + 1) * B * Z.max 1 (FontScale prefs)) as Hhigh
    by (apply Z.mul_le_mono_nonneg; lia).
  rewrite int32_small by lia. apply Z.quot_pos; lia.
Qed.

Lemma last_ink_bound (image : ImageBuffer) (pend : Z) (todo : nat) :
  0 <= last_ink image pend todo <= Z.max 0 (Z.of_nat todo - 1).
Proof.
  induction todo as [| todo IH]; cbn [last_ink]; [lia |].
  destruct (empty_pixel image (pend + Z.of_nat todo)); lia.
Qed.

Lemma first_ink_bound (image : ImageBuffer) (start : Z) (todo : nat) :
  forall off, (0 < todo)%nat ->
    off + 1 <= first_ink image start todo off <= off + Z.of_nat todo.
Proof.
  induction todo as [| todo IH]; intros off Htodo; [lia |]. cbn [first_ink].
  destruct (empty_pixel image (start + off)); [| lia].
  destruct todo as [| todo]; [cbn [first_ink]; lia |].
  specialize (IH (off + 1) ltac:(lia)). lia.
Qed.

(** The rows never push [maxD] or [glyphWidth] beyond the cell width. *)
Lemma scan_rows_within_cell (image : ImageBuffer) (width previous next : Z)
    (rows : list Z) :
  1 <= width ->
  forall r, maxD r <= width -> glyphWidth r <= width ->
    let r' := fold_left (fun r _ => scan_row image width (Width image) previous next r)
                rows r in
    maxD r' <= width /\ glyphWidth r' <= width.
Proof.
  intros Hwidth. induction rows as [| y rows IH]; intros r Hmax Hglyph; cbn [fold_left].
  - split; assumption.
  - apply IH; unfold scan_row; cbn [maxD glyphWidth].
    + pose proof (last_ink_bound image (begin r + previous * width) (Z.to_nat width)).
      pose proof (first_ink_bound image (begin r + next * width) (Z.to_nat width) 0
                    ltac:(lia)).
      destruct (negb (next =? 0)); lia.
    + pose proof (last_ink_bound image (begin r + previous * width) (Z.to_nat width)).
      lia.
Qed.

Lemma pair_advance_within_cell (image : ImageBuffer) (width previous next : Z) :
  1 <= width -> pair_advance image width previous next <= Z.quot width 2.
Proof.
  intros Hwidth. unfold pair_advance.
  pose proof (scan_rows_within_cell image width previous next (Zrange 0 (Height image))
                Hwidth (mkRowState 0 0 0) ltac:(cbn; lia) ltac:(cbn; lia)) as [Hmax Hglyph].
  cbv zeta in Hmax, Hglyph.
  pose proof (scan_rows_maxD image width previous next (Zrange 0 (Height image))
                (mkRowState 0 0 0) ltac:(simpl; lia)) as Hpos.
  rewrite !Z.quot_div_nonneg by lia.
  apply Z.div_le_mono; lia.
Qed.

Lemma advance_entries_within_cell (image : ImageBuffer) (glyphCountParam : Z) :
  1 <= Z.quot (Width image) glyphCountParam ->
  Forall (fun a => 0 <= a <= Z.quot (Width image) glyphCountParam)
    (advance_entries image glyphCountParam).
Proof.
  intros Hcell. unfold advance_entries. apply Forall_forall. intros a Ha.
  apply in_map_iff in Ha. destruct Ha as (i & <- & _).
  destruct (i / glyphCountParam =? 0); [lia |].
  split; [apply pair_advance_nonneg |].
  pose proof (pair_advance_within_cell image (Z.quot (Width image) glyphCountParam)
                (i / glyphCountParam) (i mod glyphCountParam) Hcell) as Hhalf.
  assert (Z.quot (Z.quot (Width image) glyphCountParam) 2
          <= Z.quot (Width image) glyphCountParam).
  { rewrite (Z.quot_div_nonneg _ 2) by lia.
    pose proof (Z.div_mod (Z.quot (Width image) glyphCountParam) 2 ltac:(lia)).
    pose proof (Z.mod_pos_bound (Z.quot (Width image) glyphCountParam) 2 ltac:(lia)).
    lia. }
  lia.
Qed.

(** X4.  With a font that [CalculateAdvances] has built from an atlas at
    least as wide in pixels as its glyph count, so that a cell is at least
    one pixel wide, and a letter spacing and a scale that are not
    negative: no advance and no space exceeds the cell width, and the
    width measured for a string, malformed or not, is not negative as long
    as one cell width plus the letter spacing for every byte and for the
    closing advance, scaled, stays below 2^31, the range of the [int] in
    which [WidthRawString] adds up. *)
Theorem measured_width_nonnegative
    (font font' : Font) (image : ImageBuffer) (glyphCountParam : Z)
    (prefs : Preferences) (str : bytes) (after : Z) :
  0 < glyphCountParam -> glyphCountParam <= Width image ->
  CalculateAdvances font image glyphCountParam = Some font' ->
  0 <= LetterSpacing prefs -> 0 <= FontScale prefs ->
  (size str + 1) * (Z.quot (Width image) glyphCountParam + LetterSpacing prefs)
    * Z.max 1 (FontScale prefs) < 2 ^ 31 ->
  0 <= WidthRawString font' prefs str after.
Proof.
  intros Hcount Hwide Hload Hkern Hscale Hfits.
  rewrite CalculateAdvances_entries in Hload by exact Hcount.
  inversion Hload; subst font'.
  assert (1 <= Z.quot (Width image) glyphCountParam) as Hcell.
  { rewrite Z.quot_div_nonneg by lia. apply Z.div_le_lower_bound; lia. }
  apply (WidthRawString_fits _ prefs str after (Z.quot (Width image) glyphCountParam));
    cbn [advance space]; try assumption.
  - apply advance_entries_within_cell. exact Hcell.
  - set (cell := Z.quot (Width image) glyphCountParam) in *.
    rewrite (Z.quot_div_nonneg cell 2) by lia.
    pose proof (Z.div_mod cell 2 ltac:(lia)). pose proof (Z.mod_pos_bound cell 2 ltac:(lia)).
    rewrite Z.quot_div_nonneg by lia.
    pose proof (Z.div_mod (cell / 2 + 3) 6 ltac:(lia)).
    pose proof (Z.mod_pos_bound (cell / 2 + 3) 6 ltac:(lia)).
    lia.
Qed.

Lemma measured_width_nonnegative_witness :
  0 <= WidthRawString kerned_font plain_prefs (literal "a.b") 0.
Proof.
  apply (measured_width_nonnegative (mkFont GLYPHS [] 0 0) kerned_font kerned_atlas GLYPHS).
  - unfold GLYPHS. lia.
  - unfold kerned_atlas, GLYPHS. cbn [Width]. lia.
  - apply Load_kerned_atlas.
  - unfold plain_prefs. cbn [LetterSpacing]. lia.
  - unfold plain_prefs. cbn [FontScale]. lia.
  - vm_compute. reflexivity.
Defined.

(** Beyond the bound the sums wrap: with a letter spacing of 10^9 the
    three letters of "abc" on the flat Latin font measure a negative
    width. *)
Lemma wrapped_width_is_negative :
  WidthRawString latin_font (mkPreferences 1000000000 100) (literal "abc") 32 = -6477101.
Proof. vm_compute. reflexivity. Qed.

(** ** The entries of the advance table *)

(** X5.  For a positive glyph count [CalculateAdvances] leaves row 0 of the
    table at zero, and stores in every other row, at the entry of the pair
    ([previous], [next]), the advance computed for the cells of that pair:
    no entry is overwritten by another pair. *)
Theorem advance_table_entry
    (font : Font) (image : ImageBuffer) (glyphCountParam previous next : Z) :
  0 < glyphCountParam ->
  0 <= previous < glyphCountParam ->
  0 <= next < glyphCountParam ->
  exists font',
    CalculateAdvances font image glyphCountParam = Some font' /\
    nth (Z.to_nat (previous * glyphCountParam + next)) (advance font') 0 =
    if previous =? 0 then 0
    else pair_advance image (Z.quot (Width image) glyphCountParam) previous next.
Proof.
  intros Hcount Hprevious Hnext.
  rewrite CalculateAdvances_entries by exact Hcount.
  eexists. split; [reflexivity |]. cbn [advance]. unfold advance_entries.
  rewrite nth_map_Zrange by nia.
  rewrite Z.add_0_l, Z2Nat.id by nia.
  replace ((previous * glyphCountParam + next) / glyphCountParam) with previous
    by (apply Z.div_unique with (r := next); lia).
  replace ((previous * glyphCountParam + next) mod glyphCountParam) with next
    by (apply Z.mod_unique with (q := previous); lia).
  reflexivity.
Qed.

Lemma advance_table_entry_witness :
  exists font',
    CalculateAdvances latin_font kerned_atlas GLYPHS = Some font' /\
    nth (Z.to_nat (65 * GLYPHS + 14)) (advance font') 0 =
    if 65 =? 0 then 0
    else pair_advance kerned_atlas (Z.quot (Width kerned_atlas) GLYPHS) 65 14.
Proof.
  apply (advance_table_entry latin_font kerned_atlas GLYPHS 65 14);
    unfold GLYPHS; lia.
Defined.

(** X6.  If the atlas is at least as wide in pixels as the glyph count, so
    that a cell is at least one pixel wide, no advance that
    [CalculateAdvances] stores exceeds half the cell width (rounded down),
    whatever the pixels are. *)
Theorem advance_at_most_half_cell
    (font font' : Font) (image : ImageBuffer) (glyphCountParam : Z) :
  0 < glyphCountParam -> glyphCountParam <= Width image ->
  CalculateAdvances font image glyphCountParam = Some font' ->
  Forall (fun a => 0 <= a <= Z.quot (Z.quot (Width image) glyphCountParam) 2)
    (advance font').
Proof.
  intros Hcount Hwide Hload.
  rewrite CalculateAdvances_entries in Hload by exact Hcount.
  inversion Hload; subst font'. cbn [advance]. unfold advance_entries.
  assert (1 <= Z.quot (Width image) glyphCountParam) as Hcell.
  { rewrite Z.quot_div_nonneg by lia.
    apply Z.div_le_lower_bound; lia. }
  apply Forall_forall. intros a Ha.
  apply in_map_iff in Ha. destruct Ha as (i & <- & _).
  destruct (i / glyphCountParam =? 0).
  - split; [lia |]. apply Z.quot_pos; lia.
  - split; [apply pair_advance_nonneg | apply pair_advance_within_cell; exact Hcell].
Qed.

Lemma advance_at_most_half_cell_witness :
  Forall (fun a => 0 <= a <= Z.quot (Z.quot (Width kerned_atlas) GLYPHS) 2)
    (advance kerned_font).
Proof.
  apply (advance_at_most_half_cell (mkFont GLYPHS [] 0 0) kerned_font kerned_atlas GLYPHS).
  - unfold GLYPHS. lia.
  - unfold kerned_atlas, GLYPHS. cbn [Width]. lia.
  - apply Load_kerned_atlas.
Defined.

(** ** Cutting by code points *)

Lemma ByteOffsetAfterCodePoints_zero (str : bytes) (n : Z) :
  n <= 0 -> ByteOffsetAfterCodePoints str n = 0.
Proof.
  intros Hn. unfold ByteOffsetAfterCodePoints.
  assert (Z.to_nat n = 0%nat) as -> by lia. cbn [ByteOffset_loop].
  assert ((0 >? size str) = false) as ->
    by (rewrite Z.gtb_ltb; apply Z.ltb_ge; unfold size; lia).
  reflexivity.
Qed.

(** X7.  Whatever the count [n], also negative or beyond the end, and
    whatever the bytes, the first [n] code points of a string followed by
    its last [CountCodePoints str - n] code points are the string itself:
    the two cutters cut at the same byte. *)
Theorem first_and_last_code_points_split (str : bytes) (n : Z) :
  SubstringFirstCodePoints str n ++ SubstringLastCodePoints str (CountCodePoints str - n)
  = str.
Proof.
  unfold SubstringFirstCodePoints, SubstringLastCodePoints, substr, substr_from.
  cbv zeta. cbn [Z.to_nat skipn].
  destruct (Z.leb_spec (CountCodePoints str) (CountCodePoints str - n)) as [Hall | Hcut].
  - rewrite ByteOffsetAfterCodePoints_zero by lia. reflexivity.
  - replace (CountCodePoints str - (CountCodePoints str - n)) with n by lia.
    apply firstn_skipn.
Qed.

(** The offset that the loop of [ByteOffsetAfterCodePoints] reaches never
    moves back when one more turn is allowed. *)
Lemma ByteOffset_loop_monotone (str : bytes) (todo : nat) :
  forall pos, ByteOffset_loop str todo pos <= ByteOffset_loop str (S todo) pos.
Proof.
  induction todo as [| todo IH]; intros pos.
  - cbn [ByteOffset_loop].
    destruct (negb (pos =? npos) && (pos <? size str)) eqn:Htest; [| lia].
    apply andb_prop in Htest. destruct Htest as [_ Hlt]. apply Z.ltb_lt in Hlt.
    pose proof (NextCodePoint_progress str pos Hlt). lia.
  - change (ByteOffset_loop str (S (S todo)) pos)
      with (if negb (pos =? npos) && (pos <? size str)
            then ByteOffset_loop str (S todo) (Utf8.NextCodePoint str pos)
            else pos).
    change (ByteOffset_loop str (S todo) pos)
      with (if negb (pos =? npos) && (pos <? size str)
            then ByteOffset_loop str todo (Utf8.NextCodePoint str pos)
            else pos).
    destruct (negb (pos =? npos) && (pos <? size str)); [apply IH | lia].
Qed.

Lemma ByteOffset_loop_le (str : bytes) (m n : nat) (pos : Z) :
  (m <= n)%nat -> ByteOffset_loop str m pos <= ByteOffset_loop str n pos.
Proof.
  induction 1 as [| n Hle IH]; [lia |].
  pose proof (ByteOffset_loop_monotone str n pos). lia.
Qed.

(** Once the loop has met [npos] it stays there. *)
Lemma ByteOffset_loop_npos (str : bytes) (m n : nat) (pos : Z) :
  (m <= n)%nat -> ByteOffset_loop str m pos = npos -> ByteOffset_loop str n pos = npos.
Proof.
  revert n pos. induction m as [| m IH]; intros n pos Hle.
  - cbn [ByteOffset_loop]. intros ->. destruct n; cbn [ByteOffset_loop]; [reflexivity |].
    rewrite Z.eqb_refl. reflexivity.
  - destruct n as [| n]; [lia |]. cbn [ByteOffset_loop].
    destruct (negb (pos =? npos) && (pos <? size str)); [| trivial].
    apply IH. lia.
Qed.

Lemma ByteOffsetAfterCodePoints_range (str : bytes) (n : Z) :
  0 <= ByteOffsetAfterCodePoints str n <= size str.
Proof.
  unfold ByteOffsetAfterCodePoints. cbv zeta.
  pose proof (ByteOffset_loop_le str 0 (Z.to_nat n) 0 ltac:(lia)) as Hle.
  cbn [ByteOffset_loop] in Hle.
  destruct (Z.eqb_spec (ByteOffset_loop str (Z.to_nat n) 0) npos) as [E | E];
    cbn [orb]; [unfold size; lia |].
  destruct (Z.gtb_spec (ByteOffset_loop str (Z.to_nat n) 0) (size str)); unfold size in *; lia.
Qed.

Lemma ByteOffsetAfterCodePoints_monotone (str : bytes) (m n : Z) :
  m <= n -> ByteOffsetAfterCodePoints str m <= ByteOffsetAfterCodePoints str n.
Proof.
  intros Hmn.
  pose proof (ByteOffsetAfterCodePoints_range str m) as Hm.
  unfold ByteOffsetAfterCodePoints in *. cbv zeta in *.
  pose proof (ByteOffset_loop_le str (Z.to_nat m) (Z.to_nat n) 0 ltac:(lia)) as Hle.
  pose proof (ByteOffset_loop_npos str (Z.to_nat m) (Z.to_nat n) 0 ltac:(lia)) as Hnpos.
  destruct (Z.eqb_spec (ByteOffset_loop str (Z.to_nat n) 0) npos) as [En | En];
    cbn [orb]; [exact (proj2 Hm) |].
  destruct (Z.gtb_spec (ByteOffset_loop str (Z.to_nat n) 0) (size str)) as [Gn | Gn];
    [exact (proj2 Hm) |].
  destruct (Z.eqb_spec (ByteOffset_loop str (Z.to_nat m) 0) npos) as [Em | Em];
    [exfalso; apply En, Hnpos, Em |]. cbn [orb].
  destruct (Z.gtb_spec (ByteOffset_loop str (Z.to_nat m) 0) (size str)); lia.
Qed.

(** X8.  With [Utf8::NextCodePoint] as the specification describes it: for
    a count [k] between 0 and the number of code points of the string,
    the trial string of the MIDDLE policy is a prefix of the
    string, the ellipsis, and a suffix of the string that starts at or
    after the end of the prefix: no byte of the string is shown twice, and
    the bytes dropped are contiguous. *)
Theorem middle_truncation_drops_one_block (str : bytes) (k : Z) :
  0 <= k <= CountCodePoints str ->
  exists head dropped tail,
    str = head ++ dropped ++ tail /\
    TruncateMiddle_result str k = head ++ ellipsis ++ tail.
Proof.
  intros Hk. unfold TruncateMiddle_result.
  set (first := Z.quot (k + 1) 2). set (last := Z.quot k 2).
  assert (0 <= last /\ first + last = k) as [Hlast Hsum].
  { unfold first, last. rewrite !Z.quot_div_nonneg by lia.
    pose proof (Z.div_mod k 2 ltac:(lia)). pose proof (Z.mod_pos_bound k 2 ltac:(lia)).
    pose proof (Z.div_mod (k + 1) 2 ltac:(lia)).
    pose proof (Z.mod_pos_bound (k + 1) 2 ltac:(lia)). lia. }
  set (a := ByteOffsetAfterCodePoints str first).
  set (b := ByteOffsetAfterCodePoints str (CountCodePoints str - last)).
  assert (0 <= a <= b) as Hab.
  { split; [apply ByteOffsetAfterCodePoints_range |].
    apply ByteOffsetAfterCodePoints_monotone. lia. }
  assert (b <= size str) as Hb by apply ByteOffsetAfterCodePoints_range.
  assert (SubstringFirstCodePoints str first = firstn (Z.to_nat a) str) as ->
    by reflexivity.
  exists (firstn (Z.to_nat a) str),
         (firstn (Z.to_nat b - Z.to_nat a) (skipn (Z.to_nat a) str)),
         (skipn (Z.to_nat b) str).
  split.
  - rewrite <- (firstn_skipn (Z.to_nat a) str) at 1. f_equal.
    rewrite <- (firstn_skipn (Z.to_nat b - Z.to_nat a) (skipn (Z.to_nat a) str)) at 1.
    f_equal. rewrite skipn_skipn. f_equal. lia.
  - do 2 f_equal. unfold SubstringLastCodePoints. cbv zeta.
    destruct (Z.leb_spec (CountCodePoints str) last) as [Hall | Hcut]; [| reflexivity].
    assert (b = 0) as -> by (apply ByteOffsetAfterCodePoints_zero; lia).
    reflexivity.
Qed.

Lemma middle_truncation_drops_one_block_witness :
  exists head dropped tail,
    literal "abcdef" = head ++ dropped ++ tail /\
    TruncateMiddle_result (literal "abcdef") 3 = head ++ ellipsis ++ tail.
Proof.
  apply (middle_truncation_drops_one_block (literal "abcdef") 3).
  vm_compute. split; discriminate.
Defined.

Lemma CountCodePoints_loop_bound (str : bytes) (count pos : Z) :
  0 <= pos -> CountCodePoints_loop str count pos <= count + Z.max 0 (size str - pos).
Proof.
  funelim (CountCodePoints_loop str count pos); intros Hpos; [| lia].
  pose proof (proj1 (andb_prop _ _ Htest)) as Hlt. apply Z.ltb_lt in Hlt.
  pose proof (NextCodePoint_progress str pos Hlt) as Hnext.
  specialize (H ltac:(lia)). lia.
Qed.

(** X9.  With [Utf8::NextCodePoint] as the specification describes it,
    [CountCodePoints] answers a number between 0 and the number of bytes
    of the string, and 0 only for the empty string: every other string,
    malformed or not, counts at least one code point. *)
Theorem code_points_at_most_bytes (str : bytes) :
  0 <= CountCodePoints str <= size str /\
  (CountCodePoints str = 0 <-> str = []).
Proof.
  pose proof (CountCodePoints_nonneg str) as Hnonneg.
  pose proof (CountCodePoints_loop_bound str 0 0 ltac:(lia)) as Hbound.
  fold (CountCodePoints str) in Hbound.
  pose proof (size_nonneg_bytes str) as Hsize.
  split; [lia |]. split.
  - intros Hzero. destruct str as [| b str]; [reflexivity | exfalso].
    unfold CountCodePoints in Hzero. rewrite CountCodePoints_loop_eq in Hzero.
    assert (((0 <? size (b :: str)) && negb (0 =? npos)) = true) as Htest
      by (apply andb_true_intro; split; [apply Z.ltb_lt; unfold size; cbn [List.length]; lia
                                        | reflexivity]).
    rewrite Htest in Hzero.
    pose proof (CountCodePoints_loop_grows (b :: str) (0 + 1)
                  (Utf8.NextCodePoint (b :: str) 0)). lia.
  - intros ->. reflexivity.
Qed.

(** ** The width that a layout reports *)

(** What the search hands back, whatever the trial widths are. *)
Lemma TruncateEndsOrMiddle_result (f : Font) (prefs : Preferences) (after : Z)
    (str : bytes) (width : Z) (getResultString : bytes -> Z -> bytes) :
  let result := TruncateEndsOrMiddle f prefs after str width getResultString in
  (result = (str, WidthRawString f prefs str after) /\
   WidthRawString f prefs str after <= width) \/
  (width < WidthRawString f prefs str after /\
   exists k, 0 <= k <= CountCodePoints str /\
     fst result = getResultString str k /\
     ((k = 0 /\ snd result = 0) \/
      (0 < k /\ snd result = WidthRawString f prefs (fst result) after /\
       snd result <= width))).
Proof.
  unfold TruncateEndsOrMiddle. cbv zeta.
  destruct (Z.leb_spec (WidthRawString f prefs str after) width) as [Hfit | Hwide].
  - left. split; [reflexivity | exact Hfit].
  - right. split; [exact Hwide |].
    pose proof (search_result_bracket
                  (fun nextChars =>
                     WidthRawString f prefs (getResultString str nextChars) after)
                  (CountCodePoints str) width) as Hbracket.
    unfold search_result, bracket_invariant in Hbracket.
    set (s := search_loop _ width (mkSearchState 0 0 0 (CountCodePoints str))) in *.
    destruct Hbracket as (_ & _ & [[Hchars Hzero] | (Hchars & Hfits & Hwidth)]).
    + exists 0. pose proof (CountCodePoints_nonneg str). cbn [fst snd].
      split; [lia |]. split; [rewrite Hchars; reflexivity |]. left. split; [reflexivity | exact Hzero].
    + exists (workingChars s). cbn [fst snd].
      split; [lia |]. split; [reflexivity |]. right.
      split; [lia |]. split; [exact Hwidth | lia].
Qed.

(** With a budget and a policy, [TruncateText] is the search, and the
    search hands back the text or a trial string of the policy. *)
Lemma TruncateText_result (f : Font) (prefs : Preferences) (after : Z)
    (text : DisplayText) :
  0 <= Layout.width (GetLayout text) ->
  Layout.truncate (GetLayout text) <> NONE ->
  let result := TruncateText f prefs after text in
  (result = (GetText text, WidthRawString f prefs (GetText text) after) /\
   snd result <= Layout.width (GetLayout text)) \/
  (exists k, 0 <= k <= CountCodePoints (GetText text) /\
     fst result = trial_string (Layout.truncate (GetLayout text)) (GetText text) k /\
     ((k = 0 /\ snd result = 0) \/
      (0 < k /\ snd result = WidthRawString f prefs (fst result) after /\
       snd result <= Layout.width (GetLayout text)))).
Proof.
  destruct text as [str [width alignment policy]].
  cbn [GetText GetLayout Layout.width Layout.truncate].
  intros Hwidth Hpolicy. rewrite TruncateText_dispatch by assumption.
  pose proof (TruncateEndsOrMiddle_result f prefs after str width (policy_closure policy))
    as Hresult.
  cbv zeta in *.
  destruct Hresult as [[Hsame Hfit] | (_ & k & Hk & Hfst & Hsnd)].
  - left. rewrite Hsame. cbn [snd]. split; [reflexivity | exact Hfit].
  - right. exists k. split; [exact Hk |]. split; [| exact Hsnd].
    rewrite Hfst. apply policy_closure_trial; [exact Hpolicy | lia].
Qed.

(** X10.  For a layout with a non-negative budget and one of the policies
    FRONT, MIDDLE and BACK, the width that [TruncateText] reports never
    exceeds the budget, whatever the font and the string, and it is the
    measured width of the string returned unless that string keeps no code
    point of the text, in which case 0 is reported. *)
Theorem reported_width_within_budget (f : Font) (prefs : Preferences) (after : Z)
    (text : DisplayText) :
  0 <= Layout.width (GetLayout text) ->
  Layout.truncate (GetLayout text) <> NONE ->
  snd (TruncateText f prefs after text) <= Layout.width (GetLayout text) /\
  (snd (TruncateText f prefs after text) =
   WidthRawString f prefs (fst (TruncateText f prefs after text)) after \/
   (snd (TruncateText f prefs after text) = 0 /\
    fst (TruncateText f prefs after text) =
    trial_string (Layout.truncate (GetLayout text)) (GetText text) 0)).
Proof.
  intros Hwidth Hpolicy.
  pose proof (TruncateText_result f prefs after text Hwidth Hpolicy) as Hresult.
  cbv zeta in Hresult.
  destruct Hresult as [[Hsame Hfit] | (k & Hk & Hfst & [[-> Hzero] | (_ & Hmeasured & Hle)])].
  - split; [exact Hfit |]. left. rewrite Hsame. reflexivity.
  - split; [lia |]. right. split; assumption.
  - split; [exact Hle |]. left. exact Hmeasured.
Qed.

Lemma reported_width_within_budget_witness :
  snd (TruncateText latin_font plain_prefs 0
         (mkDisplayText (literal "abcdef") (Layout.mk 9 LEFT BACK))) <= 9 /\
  (snd (TruncateText latin_font plain_prefs 0
          (mkDisplayText (literal "abcdef") (Layout.mk 9 LEFT BACK))) =
   WidthRawString latin_font plain_prefs
     (fst (TruncateText latin_font plain_prefs 0
             (mkDisplayText (literal "abcdef") (Layout.mk 9 LEFT BACK)))) 0 \/
   (snd (TruncateText latin_font plain_prefs 0
           (mkDisplayText (literal "abcdef") (Layout.mk 9 LEFT BACK))) = 0 /\
    fst (TruncateText latin_font plain_prefs 0
           (mkDisplayText (literal "abcdef") (Layout.mk 9 LEFT BACK))) =
    trial_string BACK (literal "abcdef") 0)).
Proof.
  apply (reported_width_within_budget latin_font plain_prefs 0
           (mkDisplayText (literal "abcdef") (Layout.mk 9 LEFT BACK))).
  - cbn. lia.
  - cbn. discriminate.
Defined.

(** X11.  With a truncation policy other than NONE and a non-negative
    budget, the shift that [DrawAliased] applies for the alignment is not
    negative and leaves the reported width inside the budget: the text
    starts at or after [x] and ends at or before [x] plus the budget. *)
Theorem aligned_text_stays_in_box (f : Font) (prefs : Preferences) (after : Z)
    (text : DisplayText) :
  0 <= Layout.width (GetLayout text) ->
  Layout.truncate (GetLayout text) <> NONE ->
  0 <= alignment_shift (GetLayout text) (snd (TruncateText f prefs after text)) /\
  alignment_shift (GetLayout text) (snd (TruncateText f prefs after text))
    + snd (TruncateText f prefs after text) <= Layout.width (GetLayout text).
Proof.
  intros Hbudget Hpolicy.
  set (width := snd (TruncateText f prefs after text)).
  assert (width <= Layout.width (GetLayout text)) as Hle.
  { pose proof (TruncateText_result f prefs after text Hbudget Hpolicy) as Hresult.
    cbv zeta in Hresult. fold width in Hresult.
    destruct Hresult as [[_ Hfit] | (k & _ & _ & [[_ Hzero] | (_ & _ & Hfit)])]; lia. }
  unfold alignment_shift.
  destruct (Z.geb_spec width 0) as [Hpos | Hneg]; [| lia].
  destruct (Layout.align (GetLayout text)); try lia.
  assert (0 <= Z.quot (Layout.width (GetLayout text) - width) 2) by (apply Z.quot_pos; lia).
  assert (Z.quot (Layout.width (GetLayout text) - width) 2
          <= Layout.width (GetLayout text) - width).
  { rewrite Z.quot_div_nonneg by lia.
    pose proof (Z.div_mod (Layout.width (GetLayout text) - width) 2 ltac:(lia)).
    pose proof (Z.mod_pos_bound (Layout.width (GetLayout text) - width) 2 ltac:(lia)).
    lia. }
  lia.
Qed.

Lemma aligned_text_stays_in_box_witness :
  0 <= alignment_shift (Layout.mk 9 CENTER BACK)
         (snd (TruncateText latin_font plain_prefs 0
                 (mkDisplayText (literal "abcdef") (Layout.mk 9 CENTER BACK)))) /\
  alignment_shift (Layout.mk 9 CENTER BACK)
    (snd (TruncateText latin_font plain_prefs 0
            (mkDisplayText (literal "abcdef") (Layout.mk 9 CENTER BACK))))
    + snd (TruncateText latin_font plain_prefs 0
             (mkDisplayText (literal "abcdef") (Layout.mk 9 CENTER BACK))) <= 9.
Proof.
  apply (aligned_text_stays_in_box latin_font plain_prefs 0
           (mkDisplayText (literal "abcdef") (Layout.mk 9 CENTER BACK))).
  - cbn. lia.
  - cbn. discriminate.
Defined.

Lemma flat_table_bounded (count : Z) : Forall (fun a => 0 <= a <= 3) (flat_table count).
Proof.
  unfold flat_table. apply Forall_forall. intros a Ha.
  apply in_app_or in Ha. destruct Ha as [Ha | Ha]; apply repeat_spec in Ha; lia.
Qed.

Lemma SubstringFirstCodePoints_size (str : bytes) (n : Z) :
  size (SubstringFirstCodePoints str n) = ByteOffsetAfterCodePoints str n.
Proof.
  unfold SubstringFirstCodePoints, substr. cbn [Z.to_nat skipn].
  apply size_firstn, ByteOffsetAfterCodePoints_range.
Qed.

Lemma SubstringLastCodePoints_size (str : bytes) (n : Z) :
  size (SubstringLastCodePoints str n) =
  size str - ByteOffsetAfterCodePoints str (CountCodePoints str - n).
Proof.
  unfold SubstringLastCodePoints, substr_from. cbv zeta.
  destruct (Z.leb_spec (CountCodePoints str) n) as [Hall | Hcut].
  - rewrite ByteOffsetAfterCodePoints_zero by lia. lia.
  - apply size_skipn, ByteOffsetAfterCodePoints_range.
Qed.

(** A trial string is at most three bytes longer than the text. *)
Lemma trial_string_size (policy : Truncate) (str : bytes) (k : Z) :
  policy <> NONE -> 0 <= k <= CountCodePoints str ->
  size (trial_string policy str k) <= size str + 3.
Proof.
  intros Hpolicy Hk.
  assert (size ellipsis = 3) as Hdots by reflexivity.
  destruct policy; [contradiction | | |]; cbn [trial_string];
    rewrite ?size_app, ?SubstringFirstCodePoints_size, ?SubstringLastCodePoints_size, Hdots.
  - pose proof (ByteOffsetAfterCodePoints_range str (CountCodePoints str - k)). lia.
  - pose proof (half_counts k ltac:(lia)) as [Hfloor Hceil].
    pose proof (ByteOffsetAfterCodePoints_monotone str (ceil_half k)
                  (CountCodePoints str - floor_half k)
                  ltac:(unfold ceil_half, floor_half in *; lia)).
    lia.
  - pose proof (ByteOffsetAfterCodePoints_range str k). lia.
Qed.

(** X12.  With a font whose advances and space lie between 0 and a bound
    [M], a letter spacing and a scale that are not negative, a
    non-negative budget and a truncation policy other than NONE:
    [FormattedWidth] answers the width that the truncation reports, which
    lies between 0 and the budget, so the argument [after] of the call has
    no effect.  This holds as long as [M] plus the letter spacing for
    every byte of the text, for the three bytes of the ellipsis and for
    the closing advance, scaled, stays below 2^31, the range of the [int]
    in which [WidthRawString] adds up. *)
Theorem FormattedWidth_within_budget (f : Font) (prefs : Preferences) (after : Z)
    (text : DisplayText) (after' M : Z) :
  Forall (fun a => 0 <= a <= M) (advance f) -> 0 <= space f <= M ->
  0 <= LetterSpacing prefs -> 0 <= FontScale prefs ->
  (size (GetText text) + 4) * (M + LetterSpacing prefs) * Z.max 1 (FontScale prefs)
    < 2 ^ 31 ->
  0 <= Layout.width (GetLayout text) ->
  Layout.truncate (GetLayout text) <> NONE ->
  FormattedWidth f prefs after text after' = snd (TruncateText f prefs after text) /\
  0 <= FormattedWidth f prefs after text after' <= Layout.width (GetLayout text).
Proof.
  intros Hall Hspace Hkern Hscale Hfits Hbudget Hpolicy.
  assert (forall s, size s <= size (GetText text) + 3 ->
            0 <= WidthRawString f prefs s after) as Hmeasure.
  { intros s Hs. apply (WidthRawString_fits f prefs s after M); try assumption.
    pose proof (size_nonneg_bytes s).
    assert ((size s + 1) * (M + LetterSpacing prefs) * Z.max 1 (FontScale prefs)
            <= (size (GetText text) + 4) * (M + LetterSpacing prefs)
               * Z.max 1 (FontScale prefs)); [| lia].
    apply Z.mul_le_mono_nonneg_r; [lia |].
    apply Z.mul_le_mono_nonneg_r; lia. }
  pose proof (TruncateText_result f prefs after text Hbudget Hpolicy) as Hresult.
  cbv zeta in Hresult. unfold FormattedWidth.
  destruct (TruncateText f prefs after text) as [truncText width]. cbn [fst snd] in *.
  assert (0 <= width <= Layout.width (GetLayout text)) as Hrange.
  { destruct Hresult as [[Hsame Hfit] | (k & Hk & Hfst & [[_ Hzero] | (_ & Hmeasured & Hfit)])].
    - inversion Hsame; subst width. split; [| exact Hfit].
      apply Hmeasure. lia.
    - lia.
    - split; [| exact Hfit]. rewrite Hmeasured.
      apply Hmeasure. rewrite Hfst. apply trial_string_size; assumption. }
  assert ((width <? 0) = false) as -> by (apply Z.ltb_ge; lia).
  split; [reflexivity | exact Hrange].
Qed.

Lemma FormattedWidth_within_budget_witness :
  FormattedWidth latin_font plain_prefs 0
    (mkDisplayText (literal "abcdef") (Layout.mk 9 RIGHT MIDDLE)) 0x2E =
  snd (TruncateText latin_font plain_prefs 0
         (mkDisplayText (literal "abcdef") (Layout.mk 9 RIGHT MIDDLE))) /\
  0 <= FormattedWidth latin_font plain_prefs 0
         (mkDisplayText (literal "abcdef") (Layout.mk 9 RIGHT MIDDLE)) 0x2E <= 9.
Proof.
  apply (FormattedWidth_within_budget latin_font plain_prefs 0
           (mkDisplayText (literal "abcdef") (Layout.mk 9 RIGHT MIDDLE)) 0x2E 3).
  - apply flat_table_bounded.
  - cbn. lia.
  - cbn. lia.
  - cbn. lia.
  - vm_compute. reflexivity.
  - cbn. lia.
  - cbn. discriminate.
Defined.

(** ** The drawing loop *)

Lemma DrawAliased_loop_eq (f : Font) (showUnderlines : bool) (str : bytes)
    (st : DrawState) :
  DrawAliased_loop f showUnderlines str st =
  match DrawAliased_step f showUnderlines str st with
  | Some st' => DrawAliased_loop f showUnderlines str st'
  | None => st
  end.
Proof.
  funelim (DrawAliased_loop f showUnderlines str st).
  - rewrite Hstep. reflexivity.
  - rewrite e. reflexivity.
Qed.

Lemma DrawAliased_loop_invariant (f : Font) (showUnderlines : bool) (str : bytes)
    (I : DrawState -> Prop) :
  (forall st st', I st -> DrawAliased_step f showUnderlines str st = Some st' -> I st') ->
  forall st, I st -> I (DrawAliased_loop f showUnderlines str st).
Proof.
  intros Hkeep st. funelim (DrawAliased_loop f showUnderlines str st); intros Hst.
  - apply H; [exact Hkeep |]. eapply Hkeep; eassumption.
  - exact Hst.
Qed.

Lemma steps_in_step (f : Font) (prefs : Preferences) (showUnderlines : bool)
    (str : bytes) (m : MeasureState) (d : DrawState) :
  in_step m d ->
  match WidthRawString_step f prefs str m, DrawAliased_step f showUnderlines str d with
  | Some m', Some d' => in_step m' d'
  | None, None => True
  | _, _ => False
  end.
Proof.
  intros (Hprevious & Hflag & Hpos).
  unfold WidthRawString_step, DrawAliased_step. rewrite <- Hpos.
  destruct (m_pos m <? size str); [| exact I].
  destruct (Utf8.DecodeCodePoint str (m_pos m)) as [cp pos].
  destruct (pos =? npos); [exact I |].
  unfold WidthRawString_body, DrawAliased_body, in_step. cbv zeta. rewrite <- Hflag.
  destruct (cp =? 0x5F); [cbn; auto |].
  destruct (GlyphForCodepoint f cp (m_isAfterSpace m) =? 0); [cbn; auto |].
  destruct (d_underlineChar d); cbn; auto.
Qed.

(** X13.  On every string the drawing loop of [DrawAliased] and the
    measuring loop of [WidthRawString] end with the same previous glyph,
    the same [isAfterSpace] flag and the same offset, whatever the
    underline setting: text is measured with the glyph pairs it is drawn
    with, and both loops stop at the same byte of a malformed string. *)
Theorem drawing_follows_measuring (f : Font) (prefs : Preferences)
    (showUnderlines : bool) (str : bytes) :
  m_previous (WidthRawString_loop f prefs str WidthRawString_init) =
  d_previous (DrawAliased_loop f showUnderlines str DrawAliased_init) /\
  m_isAfterSpace (WidthRawString_loop f prefs str WidthRawString_init) =
  d_isAfterSpace (DrawAliased_loop f showUnderlines str DrawAliased_init) /\
  m_pos (WidthRawString_loop f prefs str WidthRawString_init) =
  d_pos (DrawAliased_loop f showUnderlines str DrawAliased_init).
Proof.
  assert (forall m d, in_step m d ->
            in_step (WidthRawString_loop f prefs str m)
                    (DrawAliased_loop f showUnderlines str d)) as Hloops.
  { intros m. funelim (WidthRawString_loop f prefs str m); intros d Hrel.
    - rewrite DrawAliased_loop_eq.
      pose proof (steps_in_step f prefs showUnderlines str st d Hrel) as Hsim.
      rewrite Hstep in Hsim.
      destruct (DrawAliased_step f showUnderlines str d) as [d' |]; [| contradiction].
      apply H. exact Hsim.
    - rewrite DrawAliased_loop_eq.
      pose proof (steps_in_step f prefs showUnderlines str st d Hrel) as Hsim.
      rewrite e in Hsim.
      destruct (DrawAliased_step f showUnderlines str d) as [d' |]; [contradiction |].
      exact Hrel. }
  apply Hloops. unfold in_step. cbn. auto.
Qed.

(** The paired curly quotes of the text [a], space, U+201C, U+2018, [Hi]:
    the drawing loop submits the slots of [a], of the opening double quote
    and of [H] and [i], and none for the single quote, which is drawn
    blank; with the ASCII quotes in their place it submits the slot 96 of
    the opening single quote as well. *)
Lemma nested_curly_quote_drawn_blank :
  d_drawn
    (DrawAliased_loop latin_font false
       (literal "a " ++ [xe2; x80; x9c; xe2; x80; x98] ++ literal "Hi")
       DrawAliased_init) = [65; 97; 40; 73] /\
  d_drawn
    (DrawAliased_loop latin_font false (literal "a " ++ [x22; x27] ++ literal "Hi")
       DrawAliased_init) = [65; 97; 96; 40; 73].
Proof. split; vm_compute; reflexivity. Qed.

(** X14.  On a font of either roster every quad that the drawing loop
    submits, for any string and either underline setting, shows a glyph of
    the atlas other than the blank slot 0: each index lies between 1 and
    [glyphCount - 1]. *)
Theorem drawn_glyphs_inside_atlas (f : Font) (showUnderlines : bool) (str : bytes) :
  glyphCount f = GLYPHS \/ glyphCount f = GLYPHS_EXTENDED ->
  Forall (fun glyph => 1 <= glyph <= glyphCount f - 1)
    (d_drawn (DrawAliased_loop f showUnderlines str DrawAliased_init)).
Proof.
  intros Hroster.
  apply (DrawAliased_loop_invariant f showUnderlines str
           (fun st => Forall (fun glyph => 1 <= glyph <= glyphCount f - 1) (d_drawn st)));
    [| cbn; constructor].
  intros st st' Hst. unfold DrawAliased_step.
  destruct (d_pos st <? size str); [| discriminate].
  destruct (Utf8.DecodeCodePoint str (d_pos st)) as [cp pos].
  destruct (pos =? npos); [discriminate |].
  intros Hs; inversion Hs; subst st'. unfold DrawAliased_body. cbv zeta.
  destruct (cp =? 0x5F); [exact Hst |].
  pose proof (GlyphForCodepoint_range f cp (d_isAfterSpace st) Hroster) as Hrange.
  destruct (Z.eqb_spec (GlyphForCodepoint f cp (d_isAfterSpace st)) 0) as [E | E];
    [exact Hst |].
  assert (1 <= Z.max 0 (Z.min (glyphCount f - 1) (0x5F - 32)) <= glyphCount f - 1)
    as Hunderscore by (unfold GLYPHS, GLYPHS_EXTENDED in Hroster; lia).
  destruct (d_underlineChar st); cbn [d_drawn]; apply Forall_app; split; try exact Hst;
    repeat constructor; lia.
Qed.

Lemma drawn_glyphs_inside_atlas_witness :
  Forall (fun glyph => 1 <= glyph <= glyphCount latin_font - 1)
    (d_drawn (DrawAliased_loop latin_font true (literal "a_b c") DrawAliased_init)).
Proof.
  apply (drawn_glyphs_inside_atlas latin_font true (literal "a_b c")).
  left. reflexivity.
Defined.

(** * Part VIII: properties of the atlas that [Font::LoadFromTtf] builds *)

Lemma Zrange_In (lo hi i : Z) : In i (Zrange lo hi) -> lo <= i < hi.
Proof.
  unfold Zrange. intros Hin. apply in_map_iff in Hin.
  destruct Hin as (k & <- & Hk). apply in_seq in Hk. lia.
Qed.

Lemma place_glyph_inside (pixelHeight i codepoint boxW boxH : Z) (p : Placement) :
  1 <= pixelHeight ->
  place_glyph pixelHeight i codepoint boxW boxH = Some p ->
  1 <= p_w p <= cellW pixelHeight /\
  1 <= p_h p <= cellH pixelHeight /\
  i * cellW pixelHeight <= p_dx p /\
  p_dx p + p_w p <= (i + 1) * cellW pixelHeight /\
  0 <= p_dy p /\ p_dy p + p_h p <= cellH pixelHeight.
Proof.
  intros Hheight. unfold place_glyph, cellW, cellH.
  destruct (Z.leb_spec boxW 0) as [Hw | Hw]; [discriminate |].
  destruct (Z.leb_spec boxH 0) as [Hh | Hh]; [discriminate |]. cbn [orb]. cbv zeta.
  intros Hp; inversion Hp; subst p; clear Hp. cbn [p_w p_h p_dx p_dy].
  set (w := if boxW >? pixelHeight * 2 then pixelHeight * 2 else boxW).
  set (h := if boxH >? pixelHeight * 2 then pixelHeight * 2 else boxH).
  assert (1 <= w <= pixelHeight * 2) as Hwr
    by (unfold w; destruct (Z.gtb_spec boxW (pixelHeight * 2)); lia).
  assert (1 <= h <= pixelHeight * 2) as Hhr
    by (unfold h; destruct (Z.gtb_spec boxH (pixelHeight * 2)); lia).
  assert (0 <= Z.quot (pixelHeight * 2 - w) 2 <= pixelHeight * 2 - w) as Hq.
  { rewrite Z.quot_div_nonneg by lia.
    pose proof (Z.div_mod (pixelHeight * 2 - w) 2 ltac:(lia)).
    pose proof (Z.mod_pos_bound (pixelHeight * 2 - w) 2 ltac:(lia)). lia. }
  repeat split; try lia.
Qed.

(** X15.  For a pixel height of at least 1 and whatever box the rasterizer
    reports, every pixel that [LoadFromTtf] copies for the glyph of slot
    [i] is read inside [temp] and written inside the atlas buffer, in the
    columns of cell [i] and in one of its rows. *)
Theorem glyph_copy_stays_in_cell
    (pixelHeight i codepoint boxW boxH : Z) (p : Placement) (x y : Z) :
  1 <= pixelHeight ->
  0 <= i < GLYPHS_EXTENDED ->
  place_glyph pixelHeight i codepoint boxW boxH = Some p ->
  0 <= x < p_w p -> 0 <= y < p_h p ->
  0 <= temp_index pixelHeight x y < cellW pixelHeight * cellH pixelHeight /\
  0 <= pixel_index pixelHeight p x y < atlasW pixelHeight * atlasH pixelHeight /\
  i * cellW pixelHeight <= pixel_index pixelHeight p x y mod atlasW pixelHeight
    < (i + 1) * cellW pixelHeight /\
  0 <= pixel_index pixelHeight p x y / atlasW pixelHeight < cellH pixelHeight.
Proof.
  intros Hheight Hi Hplace Hx Hy.
  pose proof (place_glyph_inside _ _ _ _ _ _ Hheight Hplace)
    as (Hw & Hh & Hdx & Hdxw & Hdy & Hdyh).
  unfold temp_index, pixel_index, atlasW, atlasH, cellW, cellH, GLYPHS_EXTENDED in *.
  assert (0 <= p_dx p + x < 167 * (pixelHeight * 2)) as Hcol by nia.
  assert (0 <= p_dy p + y < pixelHeight * 2) as Hrow by lia.
  replace (((p_dy p + y) * (167 * (pixelHeight * 2)) + (p_dx p + x))
           mod (167 * (pixelHeight * 2))) with (p_dx p + x)
    by (apply Z.mod_unique with (q := p_dy p + y); lia).
  replace (((p_dy p + y) * (167 * (pixelHeight * 2)) + (p_dx p + x))
           / (167 * (pixelHeight * 2))) with (p_dy p + y)
    by (apply Z.div_unique with (r := p_dx p + x); lia).
  repeat split; try lia; nia.
Qed.

Lemma glyph_copy_stays_in_cell_witness :
  0 <= temp_index 8 1 1 < cellW 8 * cellH 8 /\
  0 <= pixel_index 8 (mkPlacement 5 2 53 0) 1 1 < atlasW 8 * atlasH 8 /\
  3 * cellW 8 <= pixel_index 8 (mkPlacement 5 2 53 0) 1 1 mod atlasW 8 < (3 + 1) * cellW 8 /\
  0 <= pixel_index 8 (mkPlacement 5 2 53 0) 1 1 / atlasW 8 < cellH 8.
Proof.
  apply (glyph_copy_stays_in_cell 8 3 0x2D 5 2 (mkPlacement 5 2 53 0) 1 1).
  - lia.
  - unfold GLYPHS_EXTENDED. lia.
  - reflexivity.
  - cbn. lia.
  - cbn. lia.
Defined.

Lemma round_half_le (n bound : Z) : n + 1 <= 2 * bound -> round_half n <= bound.
Proof.
  intros Hn. unfold round_half.
  replace bound with (Z.quot (bound * 2) 2) by (apply Z.quot_mul; lia).
  apply Z.quot_le_mono; [lia |].
  pose proof (Z.sgn_spec n). lia.
Qed.

(** X16.  For a pixel height of at least 1, after the lift by half a cell
    and the clamp, a glyph classified MIDDLE or TOP is copied from row 0
    of its cell, whatever its height, and a glyph classified BOTTOM leaves
    [max(0, pixelHeight - h)] rows above it: the two classes MIDDLE and TOP
    are placed alike. *)
Theorem lifted_placement_row (pixelHeight i codepoint boxW boxH : Z) (p : Placement) :
  1 <= pixelHeight ->
  place_glyph pixelHeight i codepoint boxW boxH = Some p ->
  p_dy p =
  match GlyphVerticalPlacement codepoint with
  | VerticalPlacement.BOTTOM => Z.max 0 (pixelHeight - p_h p)
  | VerticalPlacement.MIDDLE => 0
  | VerticalPlacement.TOP => 0
  end.
Proof.
  intros Hheight Hplace.
  pose proof (place_glyph_inside _ _ _ _ _ _ Hheight Hplace) as (_ & Hh & _).
  revert Hplace Hh. unfold place_glyph, cellW, cellH.
  destruct ((boxW <=? 0) || (boxH <=? 0)); [discriminate |]. cbv zeta.
  intros [= <-]. cbn [p_w p_h p_dx p_dy].
  set (h := if boxH >? pixelHeight * 2 then pixelHeight * 2 else boxH).
  intros Hh. clearbody h.
  assert (Z.quot (pixelHeight * 2) 2 = pixelHeight) as -> by (apply Z.quot_mul; lia).
  destruct (GlyphVerticalPlacement codepoint).
  - lia.
  - pose proof (round_half_le ((pixelHeight * 2 - pixelHeight) * 2 - h) pixelHeight
                  ltac:(lia)).
    lia.
  - lia.
Qed.

Lemma lifted_placement_row_witness :
  p_dy (mkPlacement 5 2 53 0) =
  match GlyphVerticalPlacement 0x2D with
  | VerticalPlacement.BOTTOM => Z.max 0 (8 - p_h (mkPlacement 5 2 53 0))
  | VerticalPlacement.MIDDLE => 0
  | VerticalPlacement.TOP => 0
  end.
Proof.
  apply (lifted_placement_row 8 3 0x2D 5 2 (mkPlacement 5 2 53 0)).
  - lia.
  - reflexivity.
Defined.

(** ** The copy loops *)

Lemma store_length (pixels : list Z) (i x : Z) :
  List.length (store pixels i x) = List.length pixels.
Proof.
  unfold store. destruct (0 <=? i); [apply vector_set_length | reflexivity].
Qed.

Lemma nth_store (pixels : list Z) (i x : Z) (j : nat) :
  nth j (store pixels i x) 0 =
  if (Z.of_nat j =? i) && (i <? Z.of_nat (List.length pixels)) then x else nth j pixels 0.
Proof.
  unfold store. destruct (Z.leb_spec 0 i) as [Hi | Hi].
  - rewrite nth_vector_set.
    destruct (Nat.eqb_spec j (Z.to_nat i)) as [E | E];
      destruct (Z.eqb_spec (Z.of_nat j) i) as [E' | E']; try lia; cbn [andb];
      [| reflexivity].
    destruct (Nat.ltb_spec (Z.to_nat i) (List.length pixels));
      destruct (Z.ltb_spec i (Z.of_nat (List.length pixels))); try lia; reflexivity.
  - destruct (Z.eqb_spec (Z.of_nat j) i) as [E | E]; [lia | reflexivity].
Qed.

Section Copy.

Variable A : Type.
Variable index : A -> Z.
Variable value : A -> Z.

(** A loop that stores [value a] at [index a] for every [a] of a list. *)
Definition store_all (items : list A) (pixels : list Z) : list Z :=
  fold_left (fun pixels a => store pixels (index a) (value a)) items pixels.

Lemma store_all_length (items : list A) :
  forall pixels, List.length (store_all items pixels) = List.length pixels.
Proof.
  induction items as [| a items IH]; intros pixels; cbn; [reflexivity |].
  unfold store_all in IH. rewrite IH. apply store_length.
Qed.

Lemma store_all_other (items : list A) (j : nat) :
  (forall a, In a items -> index a <> Z.of_nat j) ->
  forall pixels, nth j (store_all items pixels) 0 = nth j pixels 0.
Proof.
  induction items as [| a items IH]; intros Hother pixels; cbn; [reflexivity |].
  unfold store_all in IH. rewrite IH by (intros b Hb; apply Hother; right; exact Hb).
  rewrite nth_store.
  destruct (Z.eqb_spec (Z.of_nat j) (index a)) as [E | E]; [| reflexivity].
  exfalso. apply (Hother a); [left; reflexivity | symmetry; exact E].
Qed.

Lemma store_all_written (items : list A) (a : A) :
  In a items ->
  (forall b, In b items -> index b = index a -> value b = value a) ->
  forall pixels, 0 <= index a < Z.of_nat (List.length pixels) ->
    nth (Z.to_nat (index a)) (store_all items pixels) 0 = value a.
Proof.
  revert a. induction items as [| b items IH]; intros a Hin Hsame pixels Hrange;
    [contradiction |].
  cbn [store_all fold_left].
  destruct (in_dec Z.eq_dec (index a) (map index items)) as [Hlater | Hlast].
  - apply in_map_iff in Hlater. destruct Hlater as (c & Hc & Hcin).
    assert (value c = value a) as Hvalue by (apply Hsame; [right; exact Hcin | exact Hc]).
    rewrite <- Hc, <- Hvalue. unfold store_all in IH. apply IH.
    + exact Hcin.
    + intros d Hd Hd'. apply eq_trans with (value a); [| symmetry; exact Hvalue].
      apply Hsame; [right; exact Hd | congruence].
    + rewrite store_length. lia.
  - destruct Hin as [-> | Hin]; [| exfalso; apply Hlast, in_map; exact Hin].
    pose proof (store_all_other items (Z.to_nat (index a))) as Hother.
    unfold store_all in Hother. rewrite Hother.
    + rewrite nth_store.
      destruct (Z.eqb_spec (Z.of_nat (Z.to_nat (index a))) (index a)); [| lia].
      destruct (Z.ltb_spec (index a) (Z.of_nat (List.length pixels))); [reflexivity | lia].
    + intros c Hc E. apply Hlast. rewrite <- (Z2Nat.id (index a)) by lia.
      rewrite <- E. apply in_map. exact Hc.
Qed.

End Copy.

Lemma box_pixels_In (p : Placement) (x y : Z) :
  In (x, y) (box_pixels p) <-> 0 <= x < p_w p /\ 0 <= y < p_h p.
Proof.
  unfold box_pixels. rewrite in_flat_map. split.
  - intros (y' & Hy & Hx). apply in_map_iff in Hx. destruct Hx as (x' & E & Hx).
    inversion E; subst. apply Zrange_In in Hy. apply Zrange_In in Hx. lia.
  - intros [Hx Hy]. exists y. split; [apply In_Zrange; lia |].
    apply in_map_iff. exists x. split; [reflexivity | apply In_Zrange; lia].
Qed.

(** The nested loops store one value per pixel of the box. *)
Lemma blit_store_all (pixelHeight : Z) (temp : list Z) (p : Placement) (pixels : list Z) :
  blit pixelHeight temp p pixels =
  store_all (Z * Z)
    (fun xy => pixel_index pixelHeight p (fst xy) (snd xy))
    (fun xy => gray_pixel (nth (Z.to_nat (temp_index pixelHeight (fst xy) (snd xy))) temp 0))
    (box_pixels p) pixels.
Proof.
  unfold blit, store_all, box_pixels. revert pixels.
  induction (Zrange 0 (p_h p)) as [| y rows IH]; intros pixels; cbn [fold_left flat_map];
    [reflexivity |].
  rewrite fold_left_app, <- IH. f_equal.
  unfold blit_row. generalize (Zrange 0 (p_w p)) as columns. clear IH. revert pixels.
  intros pixels columns. revert pixels.
  induction columns as [| x columns IH]; intros pixels; cbn [fold_left map]; [reflexivity |].
  apply IH.
Qed.

(** X17.  For a pixel height of at least 1, the copy of the glyph of slot
    [i] leaves the buffer at its length and changes no pixel in a column
    outside cell [i]: a glyph never runs into the cell of a neighbour,
    however wide the box that the rasterizer reports. *)
Theorem glyph_copy_leaves_other_cells
    (pixelHeight i codepoint boxW boxH : Z) (p : Placement)
    (temp pixels : list Z) (j : nat) :
  1 <= pixelHeight ->
  0 <= i < GLYPHS_EXTENDED ->
  place_glyph pixelHeight i codepoint boxW boxH = Some p ->
  Z.of_nat j mod atlasW pixelHeight < i * cellW pixelHeight \/
  (i + 1) * cellW pixelHeight <= Z.of_nat j mod atlasW pixelHeight ->
  List.length (blit pixelHeight temp p pixels) = List.length pixels /\
  nth j (blit pixelHeight temp p pixels) 0 = nth j pixels 0.
Proof.
  intros Hheight Hi Hplace Hcolumn. rewrite blit_store_all.
  split; [apply store_all_length |].
  apply store_all_other. intros [x y] Hin E. cbn [fst snd] in E.
  apply box_pixels_In in Hin. destruct Hin as [Hx Hy].
  pose proof (place_glyph_inside _ _ _ _ _ _ Hheight Hplace)
    as (Hw & Hh & Hdx & Hdxw & Hdy & Hdyh).
  rewrite <- E in Hcolumn.
  unfold pixel_index, atlasW, cellW, cellH, GLYPHS_EXTENDED in *.
  replace (((p_dy p + y) * (167 * (pixelHeight * 2)) + (p_dx p + x))
           mod (167 * (pixelHeight * 2))) with (p_dx p + x) in Hcolumn
    by (apply Z.mod_unique with (q := p_dy p + y); nia).
  lia.
Qed.

Lemma glyph_copy_leaves_other_cells_witness :
  List.length (blit 1 (repeat 255 4) (mkPlacement 1 1 6 0) (repeat 0 (Z.to_nat 668))) =
  List.length (repeat 0 (Z.to_nat 668)) /\
  nth 9 (blit 1 (repeat 255 4) (mkPlacement 1 1 6 0) (repeat 0 (Z.to_nat 668))) 0 =
  nth 9 (repeat 0 (Z.to_nat 668)) 0.
Proof.
  apply (glyph_copy_leaves_other_cells 1 3 0x2D 1 1 (mkPlacement 1 1 6 0)
           (repeat 255 4) (repeat 0 (Z.to_nat 668)) 9).
  - lia.
  - unfold GLYPHS_EXTENDED. lia.
  - reflexivity.
  - right. vm_compute. discriminate.
Defined.

(** X18.  For a pixel height of at least 1 and an atlas buffer of
    [atlasW * atlasH] pixels, after the copy of a glyph every pixel of its
    box holds the gray value of the coverage read in [temp] at the same
    place of the box: no pixel of the box is written by another one. *)
Theorem glyph_copy_writes_coverage
    (pixelHeight i codepoint boxW boxH : Z) (p : Placement)
    (temp pixels : list Z) (x y : Z) :
  1 <= pixelHeight ->
  0 <= i < GLYPHS_EXTENDED ->
  place_glyph pixelHeight i codepoint boxW boxH = Some p ->
  Z.of_nat (List.length pixels) = atlasW pixelHeight * atlasH pixelHeight ->
  0 <= x < p_w p -> 0 <= y < p_h p ->
  nth (Z.to_nat (pixel_index pixelHeight p x y)) (blit pixelHeight temp p pixels) 0 =
  gray_pixel (nth (Z.to_nat (temp_index pixelHeight x y)) temp 0).
Proof.
  intros Hheight Hi Hplace Hlength Hx Hy. rewrite blit_store_all.
  pose proof (place_glyph_inside _ _ _ _ _ _ Hheight Hplace)
    as (Hw & Hh & Hdx & Hdxw & Hdy & Hdyh).
  apply (store_all_written (Z * Z)
           (fun xy => pixel_index pixelHeight p (fst xy) (snd xy))
           (fun xy => gray_pixel
                        (nth (Z.to_nat (temp_index pixelHeight (fst xy) (snd xy))) temp 0))
           (box_pixels p) (x, y)).
  - apply box_pixels_In. split; assumption.
  - intros [x' y'] Hin E. cbn [fst snd] in *.
    apply box_pixels_In in Hin. destruct Hin as [Hx' Hy'].
    unfold pixel_index, atlasW, cellW, cellH, GLYPHS_EXTENDED in *.
    assert (p_dy p + y' = p_dy p + y) as Hrow.
    { pose proof (Z.div_unique
                    ((p_dy p + y') * (167 * (pixelHeight * 2)) + (p_dx p + x'))
                    (167 * (pixelHeight * 2)) (p_dy p + y') (p_dx p + x')
                    ltac:(left; nia) ltac:(ring)) as Hleft.
      pose proof (Z.div_unique
                    ((p_dy p + y) * (167 * (pixelHeight * 2)) + (p_dx p + x))
                    (167 * (pixelHeight * 2)) (p_dy p + y) (p_dx p + x)
                    ltac:(left; nia) ltac:(ring)) as Hright.
      rewrite E in Hleft. congruence. }
    assert (y' = y) as -> by lia.
    assert (x' = x) as -> by lia. reflexivity.
  - cbn [fst snd]. rewrite Hlength.
    unfold pixel_index, atlasW, atlasH, cellW, cellH, GLYPHS_EXTENDED in *.
    assert (0 <= p_dx p + x < 167 * (pixelHeight * 2)) as Hcolumn by nia.
    assert (0 <= (p_dy p + y) * (167 * (pixelHeight * 2))
            <= (pixelHeight * 2 - 1) * (167 * (pixelHeight * 2))) as Hrow by nia.
    lia.
Qed.

Lemma glyph_copy_writes_coverage_witness :
  nth (Z.to_nat (pixel_index 1 (mkPlacement 1 1 6 0) 0 0))
    (blit 1 (repeat 255 4) (mkPlacement 1 1 6 0) (repeat 0 (Z.to_nat 668))) 0 =
  gray_pixel (nth (Z.to_nat (temp_index 1 0 0)) (repeat 255 4) 0).
Proof.
  apply (glyph_copy_writes_coverage 1 3 0x2D 1 1 (mkPlacement 1 1 6 0)
           (repeat 255 4) (repeat 0 (Z.to_nat 668)) 0 0).
  - lia.
  - unfold GLYPHS_EXTENDED. lia.
  - reflexivity.
  - rewrite repeat_length, Z2Nat.id by lia. reflexivity.
  - cbn. lia.
  - cbn. lia.
Defined.

(** ** From the atlas to the advances *)

(** X19.  A pixel that [LoadFromTtf] has stored for a coverage [a] between
    0 and 255 counts as ink in the scans of [CalculateAdvances] exactly
    when [a] is at least 192: the pixel is empty there if and only if
    [a < 192]. *)
Theorem coverage_ink_threshold (image : ImageBuffer) (i a : Z) :
  0 <= a <= 255 ->
  pixel_at image i = gray_pixel a ->
  empty_pixel image i = (a <? 192).
Proof.
  intros Ha Hpixel. unfold empty_pixel. rewrite Hpixel.
  pose (check := fun a => Bool.eqb (Z.land (gray_pixel a) mask <? half) (a <? 192)).
  assert (forallb check (Zrange 0 256) = true) as Hall by (vm_compute; reflexivity).
  pose proof (forallb_Zrange check 0 256 Hall a ltac:(lia)) as Hcheck.
  apply Bool.eqb_prop in Hcheck. exact Hcheck.
Qed.

Lemma coverage_ink_threshold_witness :
  empty_pixel (mkImageBuffer 1 1 [gray_pixel 200]) 0 = (200 <? 192).
Proof.
  apply (coverage_ink_threshold (mkImageBuffer 1 1 [gray_pixel 200]) 0 200).
  - lia.
  - reflexivity.
Defined.

(** * Part IX: properties of the reader of Translation.cpp *)

(** ** Bytes and offsets *)

Lemma byte_at_app_r (a b : bytes) (k : Z) :
  0 <= k -> byte_at (a ++ b) (size a + k) = byte_at b k.
Proof.
  intros Hk. unfold byte_at. rewrite size_app.
  pose proof (size_nonneg_bytes a) as Ha.
  destruct (Z.ltb_spec k (size b)) as [Hlt | Hge].
  - assert (((0 <=? size a + k) && (size a + k <? size a + size b)) = true) as ->
      by (apply andb_true_intro; split; [apply Z.leb_le | apply Z.ltb_lt]; lia).
    assert ((0 <=? k) = true) as -> by (apply Z.leb_le; lia). cbn [andb].
    f_equal. rewrite nth_error_app2 by (unfold size; lia).
    f_equal. unfold size. lia.
  - assert ((size a + k <? size a + size b) = false) as -> by (apply Z.ltb_ge; lia).
    rewrite !andb_false_r. reflexivity.
Qed.

Lemma byte_at_here (pre : bytes) (b : byte) (rest : bytes) :
  byte_at (pre ++ b :: rest) (size pre) = Some (value b).
Proof.
  pose proof (byte_at_app_r pre (b :: rest) 0 ltac:(lia)) as H.
  rewrite Z.add_0_r in H. exact H.
Qed.

Lemma byte_at_end (pre : bytes) : byte_at pre (size pre) = None.
Proof.
  unfold byte_at. rewrite Z.ltb_irrefl, andb_false_r. reflexivity.
Qed.

Lemma value_range (b : byte) : 0 <= value b < 256.
Proof.
  unfold value. pose proof (Byte.to_N_bounded b). lia.
Qed.

Lemma char_of_value (b : byte) : char_of (value b) = b.
Proof.
  unfold char_of. rewrite Z.mod_small by apply value_range.
  unfold value. rewrite N2Z.id, Byte.of_to_N. reflexivity.
Qed.

Lemma value_inj (a b : byte) : value a = value b -> a = b.
Proof.
  intros H. rewrite <- (char_of_value a), <- (char_of_value b), H. reflexivity.
Qed.

Lemma move_byte (pre : bytes) (b : byte) (rest : bytes) :
  pre ++ b :: rest = (pre ++ [b]) ++ rest.
Proof. rewrite <- app_assoc. reflexivity. Qed.

(** ** The skipping loops *)

Lemma skip_while_stops (skipped : Z -> bool) (data : bytes) (pos : Z) :
  skip_test skipped data pos = false -> skip_while skipped data pos = pos.
Proof.
  intros H. rewrite skip_while_eq, H. reflexivity.
Qed.

Lemma skip_while_gap (skipped : Z -> bool) (gap : bytes) :
  all_skipped skipped gap ->
  forall pre rest,
    skip_test skipped (pre ++ gap ++ rest) (size pre + size gap) = false ->
    skip_while skipped (pre ++ gap ++ rest) (size pre) = size pre + size gap.
Proof.
  induction 1 as [| b gap Hb Hgap IH]; intros pre rest Hstop.
  - cbn [app] in *. change (size []) with 0 in *. rewrite Z.add_0_r in *.
    apply skip_while_stops. exact Hstop.
  - rewrite skip_while_eq. unfold skip_test at 1.
    cbn [app]. rewrite byte_at_here, Hb.
    cbn [app] in Hstop. rewrite move_byte in *.
    replace (size pre + 1) with (size (pre ++ [b])) by (rewrite size_app; reflexivity).
    rewrite IH.
    + rewrite size_app. change (size (b :: gap)) with (Z.of_nat (S (List.length gap))).
      unfold size. cbn [List.length]. lia.
    + rewrite size_app. change (size (b :: gap)) with (Z.of_nat (S (List.length gap))) in Hstop.
      replace (size pre + size [b] + size gap)
        with (size pre + Z.of_nat (S (List.length gap)))
        by (unfold size; cbn [List.length]; lia).
      exact Hstop.
Qed.

Lemma skip_test_here (skipped : Z -> bool) (pre : bytes) (b : byte) (rest : bytes) :
  skip_test skipped (pre ++ b :: rest) (size pre) = skipped (value b).
Proof.
  unfold skip_test. rewrite byte_at_here. reflexivity.
Qed.

(** The gap is passed and the loop stops on the byte [b] that follows. *)
Lemma skip_while_to (skipped : Z -> bool) (pre gap : bytes) (b : byte) (rest : bytes) :
  all_skipped skipped gap -> skipped (value b) = false ->
  skip_while skipped (pre ++ gap ++ b :: rest) (size pre) = size pre + size gap.
Proof.
  intros Hgap Hb. apply skip_while_gap; [exact Hgap |].
  rewrite app_assoc, <- size_app. rewrite skip_test_here. exact Hb.
Qed.

(** ** Strings between quotes *)

(** The loop reads an escaped string back and goes on behind it. *)
Lemma escape_loop (s : bytes) :
  forall pre rest out,
    ParseJsonString_loop (pre ++ escape s ++ rest) (size pre) out =
    ParseJsonString_loop (pre ++ escape s ++ rest) (size pre + size (escape s)) (out ++ s).
Proof.
  induction s as [| b s IH]; intros pre rest out.
  - cbn [escape flat_map app]. change (size []) with 0.
    rewrite Z.add_0_r, app_nil_r. reflexivity.
  - change (escape (b :: s)) with (escape_byte b ++ escape s).
    rewrite ParseJsonString_loop_eq. unfold ParseJsonString_turn at 1. unfold escape_byte.
    destruct (Z.eqb_spec (value b) 0x22) as [Hq | Hq]; cbn [orb].
    + cbn [app]. rewrite byte_at_here. change (value x5c =? 0x22) with false.
      change (value x5c =? 0x5C) with true. cbv iota.
      unfold DecodeEscapeSequence. rewrite move_byte.
      replace (size pre + 1) with (size (pre ++ [x5c])) by (rewrite size_app; reflexivity).
      rewrite byte_at_here, Hq. cbn [Z.eqb Pos.eqb].
      assert (b = x22) as -> by (apply value_inj; exact Hq).
      rewrite move_byte.
      replace (size (pre ++ [x5c]) + 1) with (size ((pre ++ [x5c]) ++ [x22]))
        by (rewrite size_app; reflexivity).
      rewrite IH. rewrite !size_app. change (size [x5c]) with 1. change (size [x22]) with 1.
      change (size (x5c :: x22 :: escape s)) with (Z.of_nat (S (S (List.length (escape s))))).
      rewrite <- !app_assoc. cbn [app]. f_equal. unfold size. lia.
    + destruct (Z.eqb_spec (value b) 0x5C) as [Hb | Hb].
      * cbn [app]. rewrite byte_at_here. change (value x5c =? 0x22) with false.
        change (value x5c =? 0x5C) with true. cbv iota.
        unfold DecodeEscapeSequence. rewrite move_byte.
        replace (size pre + 1) with (size (pre ++ [x5c])) by (rewrite size_app; reflexivity).
        rewrite byte_at_here, Hb. cbn [Z.eqb Pos.eqb].
        assert (b = x5c) as -> by (apply value_inj; exact Hb).
        rewrite move_byte.
        replace (size (pre ++ [x5c]) + 1) with (size ((pre ++ [x5c]) ++ [x5c]))
          by (rewrite size_app; reflexivity).
        rewrite IH. rewrite !size_app. change (size [x5c]) with 1.
        change (size (x5c :: x5c :: escape s)) with (Z.of_nat (S (S (List.length (escape s))))).
        rewrite <- !app_assoc. cbn [app]. f_equal. unfold size. lia.
      * cbn [app]. rewrite byte_at_here.
        destruct (Z.eqb_spec (value b) 0x22); [contradiction |].
        destruct (Z.eqb_spec (value b) 0x5C); [contradiction |].
        rewrite char_of_value, move_byte.
        replace (size pre + 1) with (size (pre ++ [b])) by (rewrite size_app; reflexivity).
        rewrite IH. rewrite !size_app. change (size [b]) with 1.
        change (size (b :: escape s)) with (Z.of_nat (S (List.length (escape s)))).
        rewrite <- !app_assoc. cbn [app]. f_equal. unfold size. lia.
Qed.

Lemma size_quote (s : bytes) : size (quote s) = size (escape s) + 2.
Proof.
  unfold quote. rewrite !size_app. change (size [x22]) with 1. lia.
Qed.

Lemma ParseJsonString_quote (pre ws s rest : bytes) :
  all_skipped is_space ws ->
  ParseJsonString (pre ++ ws ++ quote s ++ rest) (size pre) =
  (true, size pre + size ws + size (quote s), s).
Proof.
  intros Hws. unfold ParseJsonString, quote. cbv zeta.
  cbn [app]. rewrite <- !app_assoc. cbn [app].
  rewrite skip_while_to by (assumption || reflexivity).
  rewrite app_assoc, <- size_app, byte_at_here.
  change (value x22 =? 0x22) with true. cbv iota.
  rewrite move_byte.
  replace (size (pre ++ ws) + 1) with (size ((pre ++ ws) ++ [x22]))
    by (rewrite size_app; reflexivity).
  rewrite escape_loop, ParseJsonString_loop_eq. unfold ParseJsonString_turn.
  rewrite app_assoc, <- size_app, byte_at_here.
  change (value x22 =? 0x22) with true. cbv iota.
  rewrite !size_app. change (size [x22]) with 1.
  change (size (x22 :: escape s ++ [x22]))
    with (Z.of_nat (S (List.length (escape s ++ [x22])))).
  rewrite length_app. cbn [List.length app].
  f_equal. f_equal. unfold size. lia.
Qed.

(** X20.  A string written between quotes, with a backslash before each
    of its quotes and backslashes, is read back by [ParseJsonString] byte
    for byte, whatever its bytes are, after any white space and whatever
    follows the closing quote, and the offset is left behind that quote.
    If the data ends before a closing quote, the call answers false at
    the end of the data, with the bytes read so far in [out]. *)
Theorem json_string_round_trip (pre ws s rest : bytes) :
  all_skipped is_space ws ->
  ParseJsonString (pre ++ ws ++ quote s ++ rest) (size pre) =
    (true, size pre + size ws + size (quote s), s) /\
  ParseJsonString (pre ++ ws ++ x22 :: escape s) (size pre) =
    (false, size (pre ++ ws ++ x22 :: escape s), s).
Proof.
  intros Hws. split; [apply ParseJsonString_quote; exact Hws |].
  unfold ParseJsonString. cbv zeta.
  rewrite skip_while_to by (assumption || reflexivity).
  rewrite app_assoc, <- size_app, byte_at_here.
  change (value x22 =? 0x22) with true. cbv iota.
  rewrite move_byte.
  replace (size (pre ++ ws) + 1) with (size ((pre ++ ws) ++ [x22]))
    by (rewrite size_app; reflexivity).
  rewrite <- (app_nil_r (escape s)) at 1 2.
  rewrite escape_loop, ParseJsonString_loop_eq. unfold ParseJsonString_turn.
  rewrite app_nil_r, <- size_app, byte_at_end. reflexivity.
Qed.

Lemma json_string_round_trip_witness :
  ParseJsonString
    (literal "{" ++ literal " " ++ quote (literal "a\b") ++ literal ":") (size (literal "{")) =
    (true, size (literal "{") + size (literal " ") + size (quote (literal "a\b")),
     literal "a\b") /\
  ParseJsonString (literal "{" ++ literal " " ++ x22 :: escape (literal "a\b"))
    (size (literal "{")) =
    (false, size (literal "{" ++ literal " " ++ x22 :: escape (literal "a\b")),
     literal "a\b").
Proof.
  apply (json_string_round_trip (literal "{") (literal " ") (literal "a\b") (literal ":")).
  repeat constructor.
Defined.

(** ** Flat objects *)

Ltac same_text :=
  unfold member_text, quote; repeat rewrite <- app_assoc; cbn [app];
  repeat rewrite <- app_assoc; reflexivity.

Lemma ParseFlatJson_loop_eq (data : bytes) (pos : Z) (out : strings) :
  ParseFlatJson_loop data pos out =
  match ParseFlatJson_turn data pos out with
  | Again (pos', out') => ParseFlatJson_loop data pos' out'
  | Return r => r
  end.
Proof.
  funelim (ParseFlatJson_loop data pos out).
  - rewrite Hturn. reflexivity.
  - rewrite e. reflexivity.
Qed.

Lemma skip_while_in (skipped : Z -> bool) (data pre gap : bytes) (b : byte) (rest : bytes) :
  data = pre ++ gap ++ b :: rest ->
  all_skipped skipped gap -> skipped (value b) = false ->
  skip_while skipped data (size pre) = size (pre ++ gap) /\
  byte_at data (size (pre ++ gap)) = Some (value b).
Proof.
  intros -> Hgap Hb. split.
  - rewrite size_app. apply skip_while_to; assumption.
  - rewrite app_assoc. apply byte_at_here.
Qed.

Lemma ParseJsonString_in (data pre ws s rest : bytes) :
  data = pre ++ ws ++ quote s ++ rest ->
  all_skipped is_space ws ->
  ParseJsonString data (size pre) = (true, size (pre ++ ws ++ quote s), s).
Proof.
  intros -> Hws. rewrite ParseJsonString_quote by exact Hws.
  rewrite !size_app. f_equal. f_equal. lia.
Qed.

(** One turn of the loop reads one member. *)
Lemma ParseFlatJson_turn_member (ws1 ws2 pre : bytes) (m : Member) (rest : bytes)
    (out : strings) :
  all_skipped is_space_or_comma (m_gap m) ->
  all_skipped is_space ws1 -> all_skipped is_space ws2 ->
  ParseFlatJson_turn (pre ++ member_text ws1 ws2 m ++ rest) (size pre) out =
  Again (size (pre ++ member_text ws1 ws2 m), map_assign out (m_key m) (m_value m)).
Proof.
  intros Hgap Hws1 Hws2. destruct m as [gap key val]. cbn [m_gap m_key m_value] in *.
  set (data := pre ++ member_text ws1 ws2 (mkMember gap key val) ++ rest).
  unfold ParseFlatJson_turn. cbv zeta.
  destruct (skip_while_in is_space_or_comma data pre gap x22
              (escape key ++ [x22] ++ ws1 ++ [x3a] ++ ws2 ++ quote val ++ rest))
    as [Hskip1 Hbyte1]; [unfold data; cbn [m_gap m_key m_value]; same_text
                        | exact Hgap | reflexivity |].
  rewrite Hskip1, Hbyte1. change (value x22 =? 0x7D) with false. cbv iota.
  rewrite (ParseJsonString_in data (pre ++ gap) [] key
             (ws1 ++ [x3a] ++ ws2 ++ quote val ++ rest));
    [| unfold data; cbn [m_gap m_key m_value]; same_text | constructor].
  cbn [negb app].
  destruct (skip_while_in is_space data ((pre ++ gap) ++ quote key) ws1 x3a
              (ws2 ++ quote val ++ rest))
    as [Hskip2 Hbyte2]; [unfold data; cbn [m_gap m_key m_value]; same_text
                        | exact Hws1 | reflexivity |].
  rewrite Hskip2, Hbyte2. change (value x3a =? 0x3A) with true. cbn [negb].
  replace (size (((pre ++ gap) ++ quote key) ++ ws1) + 1)
    with (size ((((pre ++ gap) ++ quote key) ++ ws1) ++ [x3a]))
    by (rewrite (size_app _ [x3a]); reflexivity).
  rewrite (ParseJsonString_in data ((((pre ++ gap) ++ quote key) ++ ws1) ++ [x3a]) ws2 val rest);
    [| unfold data; cbn [m_gap m_key m_value]; same_text | exact Hws2].
  cbn [negb]. f_equal. f_equal. f_equal.
  unfold member_text. cbn [m_gap m_key m_value]. repeat rewrite <- app_assoc. reflexivity.
Qed.

(** The loop reads the members and goes on behind them. *)
Lemma ParseFlatJson_members (ws1 ws2 rest : bytes) (members : list Member) :
  Forall (fun m => all_skipped is_space_or_comma (m_gap m)) members ->
  all_skipped is_space ws1 -> all_skipped is_space ws2 ->
  forall pre out,
    ParseFlatJson_loop (pre ++ flat_map (member_text ws1 ws2) members ++ rest)
      (size pre) out =
    ParseFlatJson_loop (pre ++ flat_map (member_text ws1 ws2) members ++ rest)
      (size (pre ++ flat_map (member_text ws1 ws2) members)) (assign_all members out).
Proof.
  intros Hmembers Hws1 Hws2.
  induction Hmembers as [| m members Hm Hmembers IH]; intros pre out.
  - cbn [flat_map app assign_all fold_left]. rewrite app_nil_r. reflexivity.
  - cbn [flat_map assign_all fold_left]. rewrite <- app_assoc.
    rewrite ParseFlatJson_loop_eq, ParseFlatJson_turn_member by assumption.
    rewrite (app_assoc pre), IH. rewrite <- !app_assoc. reflexivity.
Qed.

(** Behind the members: the opening brace has been read. *)
Lemma ParseFlatJson_open (ws0 ws1 ws2 rest : bytes) (members : list Member) :
  all_skipped is_space ws0 ->
  Forall (fun m => all_skipped is_space_or_comma (m_gap m)) members ->
  all_skipped is_space ws1 -> all_skipped is_space ws2 ->
  ParseFlatJson (ws0 ++ x7b :: flat_map (member_text ws1 ws2) members ++ rest) =
  ParseFlatJson_loop
    ((ws0 ++ [x7b]) ++ flat_map (member_text ws1 ws2) members ++ rest)
    (size ((ws0 ++ [x7b]) ++ flat_map (member_text ws1 ws2) members))
    (assign_all members []).
Proof.
  intros Hws0 Hmembers Hws1 Hws2. unfold ParseFlatJson. cbv zeta.
  destruct (skip_while_in is_space
              (ws0 ++ x7b :: flat_map (member_text ws1 ws2) members ++ rest) [] ws0 x7b
              (flat_map (member_text ws1 ws2) members ++ rest))
    as [Hskip Hbyte]; [reflexivity | exact Hws0 | reflexivity |].
  change (size []) with 0 in Hskip. cbn [app] in Hskip, Hbyte.
  rewrite Hskip, Hbyte. change (value x7b =? 0x7B) with true. cbv iota.
  replace (size ws0 + 1) with (size (ws0 ++ [x7b])) by (rewrite size_app; reflexivity).
  rewrite move_byte. apply ParseFlatJson_members; assumption.
Qed.

(** X21.  A flat object written as text, an opening brace, members made
    of a quoted key, a colon and a quoted value, and a closing brace, is
    read by [ParseFlatJson] as the map that assigns the members in their
    order, so that a later member replaces an earlier one with the same
    key.  Any run of white space and commas may stand before a member and
    before the closing brace, also none, any white space before the
    opening brace and, the same for every member, before and behind the
    colon, and anything behind the closing brace. *)
Theorem flat_json_round_trip
    (ws0 ws1 ws2 final rest : bytes) (members : list Member) :
  all_skipped is_space ws0 ->
  Forall (fun m => all_skipped is_space_or_comma (m_gap m)) members ->
  all_skipped is_space_or_comma final ->
  all_skipped is_space ws1 -> all_skipped is_space ws2 ->
  ParseFlatJson (ws0 ++ object_text ws1 ws2 members final ++ rest) =
  (true, assign_all members []).
Proof.
  intros Hws0 Hmembers Hfinal Hws1 Hws2. unfold object_text.
  replace (ws0 ++ ([x7b] ++ flat_map (member_text ws1 ws2) members ++ final ++ [x7d]) ++ rest)
    with (ws0 ++ x7b :: flat_map (member_text ws1 ws2) members ++ final ++ x7d :: rest)
    by same_text.
  rewrite ParseFlatJson_open by assumption.
  rewrite ParseFlatJson_loop_eq. unfold ParseFlatJson_turn. cbv zeta.
  destruct (skip_while_in is_space_or_comma
              ((ws0 ++ [x7b]) ++ flat_map (member_text ws1 ws2) members ++ final ++ x7d :: rest)
              ((ws0 ++ [x7b]) ++ flat_map (member_text ws1 ws2) members) final x7d rest)
    as [Hskip Hbyte]; [same_text | exact Hfinal | reflexivity |].
  rewrite Hskip, Hbyte. reflexivity.
Qed.

Lemma flat_json_round_trip_witness :
  ParseFlatJson
    (literal " " ++
     object_text [] (literal " ")
       [mkMember [] (literal "a") (literal "b"); mkMember (literal ", ") (literal "a") (literal "c")]
       (literal ",") ++
     literal "x") =
  (true,
   assign_all
     [mkMember [] (literal "a") (literal "b"); mkMember (literal ", ") (literal "a") (literal "c")]
     []).
Proof.
  apply (flat_json_round_trip (literal " ") [] (literal " ") (literal ",") (literal "x")
           [mkMember [] (literal "a") (literal "b");
            mkMember (literal ", ") (literal "a") (literal "c")]);
    repeat constructor.
Defined.

(** X22.  If the data ends behind some members of a flat object, before
    the closing brace, [ParseFlatJson] answers false, and the map [out]
    holds the members read up to there. *)
Theorem truncated_object_keeps_members
    (ws0 ws1 ws2 final : bytes) (members : list Member) :
  all_skipped is_space ws0 ->
  Forall (fun m => all_skipped is_space_or_comma (m_gap m)) members ->
  all_skipped is_space_or_comma final ->
  all_skipped is_space ws1 -> all_skipped is_space ws2 ->
  ParseFlatJson (ws0 ++ x7b :: flat_map (member_text ws1 ws2) members ++ final) =
  (false, assign_all members []).
Proof.
  intros Hws0 Hmembers Hfinal Hws1 Hws2.
  rewrite ParseFlatJson_open by assumption.
  rewrite ParseFlatJson_loop_eq. unfold ParseFlatJson_turn. cbv zeta.
  set (pre := (ws0 ++ [x7b]) ++ flat_map (member_text ws1 ws2) members).
  replace ((ws0 ++ [x7b]) ++ flat_map (member_text ws1 ws2) members ++ final)
    with (pre ++ final ++ []) by (unfold pre; rewrite app_nil_r, <- app_assoc; reflexivity).
  rewrite skip_while_gap; [| exact Hfinal |].
  - rewrite app_nil_r, <- size_app, byte_at_end. reflexivity.
  - unfold skip_test. rewrite app_nil_r, <- size_app, byte_at_end. reflexivity.
Qed.

Lemma truncated_object_keeps_members_witness :
  ParseFlatJson
    ([] ++ x7b :: flat_map (member_text [] [])
                    [mkMember [] (literal "a") (literal "b")] ++ literal ", ") =
  (false, assign_all [mkMember [] (literal "a") (literal "b")] []).
Proof.
  apply (truncated_object_keeps_members [] [] [] (literal ", ")
           [mkMember [] (literal "a") (literal "b")]);
    repeat constructor.
Defined.

(** ** The encoder of escaped codepoints *)

Lemma value_char_of (v : Z) : 0 <= v < 256 -> value (char_of v) = v.
Proof.
  intros Hv. unfold char_of, value. rewrite Z.mod_small by exact Hv.
  destruct (Byte.of_N (Z.to_N v)) as [b |] eqn:Hb.
  - apply Byte.to_of_N in Hb. rewrite Hb. lia.
  - exfalso. pose proof (Byte.of_N_None_iff (Z.to_N v)) as [Hnone _].
    specialize (Hnone Hb). lia.
Qed.

Lemma land_shiftl_low (a x n : Z) :
  0 <= n -> 0 <= x < 2 ^ n -> Z.land (Z.shiftl a n) x = 0.
Proof.
  intros Hn Hx. apply Z.bits_inj'. intros k Hk.
  rewrite Z.land_spec, Z.bits_0.
  destruct (Z_lt_le_dec k n) as [Hlow | Hhigh].
  - rewrite Z.shiftl_spec_low by exact Hlow. reflexivity.
  - destruct (Z.eq_dec x 0) as [-> | Hpos].
    + rewrite Z.bits_0. apply andb_false_r.
    + rewrite (Z.bits_above_log2 x k); [apply andb_false_r | lia |].
      apply Z.lt_le_trans with n; [| exact Hhigh].
      apply Z.log2_lt_pow2; lia.
Qed.

Lemma lor_shiftl (a x n : Z) :
  0 <= n -> 0 <= x < 2 ^ n -> Z.lor (Z.shiftl a n) x = a * 2 ^ n + x.
Proof.
  intros Hn Hx.
  pose proof (Z.add_lor_land (Z.shiftl a n) x) as Hadd.
  rewrite land_shiftl_low in Hadd by assumption.
  rewrite Z.shiftl_mul_pow2 in * by exact Hn. lia.
Qed.

(** The bytes that the encoder builds, by running the checks on every
    payload. *)
Lemma continuation_byte (x : Z) :
  0 <= x < 64 ->
  0 <= Z.lor 0x80 x < 256 /\
  Utf8.is_continuation (Z.lor 0x80 x) = true /\
  Z.land (Z.lor 0x80 x) 0x3F = x.
Proof.
  intros Hx.
  pose (check := fun x =>
    (0 <=? Z.lor 0x80 x) && (Z.lor 0x80 x <? 256)
    && Utf8.is_continuation (Z.lor 0x80 x) && (Z.land (Z.lor 0x80 x) 0x3F =? x)).
  assert (forallb check (Zrange 0 64) = true) as Hall by (vm_compute; reflexivity).
  pose proof (forallb_Zrange check 0 64 Hall x Hx) as H.
  unfold check in H. apply andb_prop in H. destruct H as [H H4].
  apply andb_prop in H. destruct H as [H H3].
  apply andb_prop in H. destruct H as [H1 H2].
  apply Z.leb_le in H1. apply Z.ltb_lt in H2. apply Z.eqb_eq in H4. auto.
Qed.

Lemma lead_byte (n marker bound x : Z) :
  (n = 2 /\ marker = 0xC0 /\ bound = 32) \/
  (n = 3 /\ marker = 0xE0 /\ bound = 16) \/
  (n = 4 /\ marker = 0xF0 /\ bound = 8) ->
  0 <= x < bound ->
  0 <= Z.lor marker x < 256 /\
  Utf8.sequence_length (Z.lor marker x) = n /\
  Utf8.lead_payload n (Z.lor marker x) = x.
Proof.
  intros Hcase Hx.
  pose (check := fun n marker x =>
    (0 <=? Z.lor marker x) && (Z.lor marker x <? 256)
    && (Utf8.sequence_length (Z.lor marker x) =? n)
    && (Utf8.lead_payload n (Z.lor marker x) =? x)).
  assert (check n marker x = true) as H.
  { destruct Hcase as [(-> & -> & ->) | [(-> & -> & ->) | (-> & -> & ->)]].
    - assert (forallb (check 2 0xC0) (Zrange 0 32) = true) as Hall
        by (vm_compute; reflexivity).
      apply (forallb_Zrange _ 0 32 Hall x Hx).
    - assert (forallb (check 3 0xE0) (Zrange 0 16) = true) as Hall
        by (vm_compute; reflexivity).
      apply (forallb_Zrange _ 0 16 Hall x Hx).
    - assert (forallb (check 4 0xF0) (Zrange 0 8) = true) as Hall
        by (vm_compute; reflexivity).
      apply (forallb_Zrange _ 0 8 Hall x Hx). }
  unfold check in H. apply andb_prop in H. destruct H as [H H4].
  apply andb_prop in H. destruct H as [H H3].
  apply andb_prop in H. destruct H as [H1 H2].
  apply Z.leb_le in H1. apply Z.ltb_lt in H2. apply Z.eqb_eq in H3. apply Z.eqb_eq in H4.
  auto.
Qed.

Lemma ascii_byte (cp : Z) :
  0 <= cp < 128 -> Utf8.sequence_length cp = 1 /\ Utf8.lead_payload 1 cp = cp.
Proof.
  intros Hcp.
  pose (check := fun cp =>
    (Utf8.sequence_length cp =? 1) && (Utf8.lead_payload 1 cp =? cp)).
  assert (forallb check (Zrange 0 128) = true) as Hall by (vm_compute; reflexivity).
  pose proof (forallb_Zrange check 0 128 Hall cp Hcp) as H.
  unfold check in H. apply andb_prop in H. destruct H as [H1 H2].
  apply Z.eqb_eq in H1. apply Z.eqb_eq in H2. auto.
Qed.

(** A continuation byte read by the decoder. *)
Lemma continuation_step (pre : bytes) (x : Z) (rest : bytes) (n : nat) (acc : Z) :
  0 <= x < 64 ->
  Utf8.continuation (pre ++ char_of (Z.lor 0x80 x) :: rest) (S n) (size pre) acc =
  Utf8.continuation ((pre ++ [char_of (Z.lor 0x80 x)]) ++ rest) n
    (size (pre ++ [char_of (Z.lor 0x80 x)])) (acc * 64 + x).
Proof.
  intros Hx. destruct (continuation_byte x Hx) as (Hrange & Hcont & Hpayload).
  cbn [Utf8.continuation]. rewrite byte_at_here, value_char_of by exact Hrange.
  rewrite Hcont, Hpayload, (lor_shiftl acc x 6) by (cbn; lia).
  rewrite <- move_byte, size_app. reflexivity.
Qed.

Lemma shiftr_bounds (cp : Z) :
  0 <= cp ->
  Z.shiftr cp 6 = cp / 64 /\ Z.shiftr cp 12 = cp / 64 / 64 /\
  Z.shiftr cp 18 = cp / 64 / 64 / 64 /\
  Z.land cp 0x3F = cp mod 64 /\
  Z.land (Z.shiftr cp 6) 0x3F = (cp / 64) mod 64 /\
  Z.land (Z.shiftr cp 12) 0x3F = (cp / 64 / 64) mod 64.
Proof.
  intros Hcp.
  assert (forall a, Z.land a 0x3F = a mod 64) as Hland
    by (intros a; apply (Z.land_ones a 6); lia).
  rewrite !Hland, !Z.shiftr_div_pow2 by lia.
  rewrite !Z.div_div by lia. repeat split; reflexivity.
Qed.

Ltac same_size := unfold size; rewrite ?length_app; cbn [List.length]; lia.

(** X23.  Every codepoint up to 0x10FFFF that [AppendUtf8FromCodePoint]
    appends to a string is read back by the decoder of the text renderer,
    as the specification describes [Utf8::DecodeCodePoint], at the old end
    of the string: the decoder answers the same codepoint and the new end
    of the string, whatever follows. *)
Theorem escaped_codepoint_round_trip (out : bytes) (cp : Z) (rest : bytes) :
  0 <= cp <= 0x10FFFF ->
  Utf8.DecodeCodePoint (AppendUtf8FromCodePoint out cp ++ rest) (size out) =
  (cp, size (AppendUtf8FromCodePoint out cp)).
Proof.
  intros Hcp. unfold AppendUtf8FromCodePoint.
  destruct (shiftr_bounds cp ltac:(lia)) as (S6 & S12 & S18 & L0 & L6 & L12).
  assert (0 <= Z.land cp 0x3F < 64) as H0
    by (rewrite L0; apply Z.mod_pos_bound; lia).
  assert (0 <= Z.land (Z.shiftr cp 6) 0x3F < 64) as H6
    by (rewrite L6; apply Z.mod_pos_bound; lia).
  assert (0 <= Z.land (Z.shiftr cp 12) 0x3F < 64) as H12
    by (rewrite L12; apply Z.mod_pos_bound; lia).
  pose proof (Z.div_mod cp 64 ltac:(lia)) as D0.
  pose proof (Z.div_mod (cp / 64) 64 ltac:(lia)) as D6.
  pose proof (Z.div_mod (cp / 64 / 64) 64 ltac:(lia)) as D12.
  destruct (Z.leb_spec cp 0x7F) as [C1 | C1];
    [| destruct (Z.leb_spec cp 0x7FF) as [C2 | C2];
       [| destruct (Z.leb_spec cp 0xFFFF) as [C3 | C3];
          [| destruct (Z.leb_spec cp 0x10FFFF) as [C4 | C4]; [| lia]]]];
    rewrite <- app_assoc; cbn [app]; unfold Utf8.DecodeCodePoint; rewrite byte_at_here.
  - destruct (ascii_byte cp ltac:(lia)) as [Hn Hp].
    rewrite value_char_of by lia. cbv zeta. rewrite Hn, Hp.
    cbn [Z.eqb Z.sub Z.to_nat Utf8.continuation Z.add Z.opp Z.pos_sub].
    f_equal. same_size.
  - assert (0 <= Z.shiftr cp 6 < 32) as Hlead
      by (rewrite S6; split; [apply Z.div_pos | apply Z.div_lt_upper_bound]; lia).
    destruct (lead_byte 2 0xC0 32 (Z.shiftr cp 6) ltac:(auto) Hlead) as (Hr & Hn & Hp).
    rewrite value_char_of by exact Hr. cbv zeta. rewrite Hn, Hp.
    change (2 =? 0) with false. cbv iota. change (Z.to_nat (2 - 1)) with 1%nat.
    rewrite (move_byte out _ (_ :: rest)).
    replace (size out + 1) with (size (out ++ [char_of (Z.lor 0xC0 (Z.shiftr cp 6))]))
      by same_size.
    rewrite continuation_step by exact H0. cbn [Utf8.continuation].
    f_equal; [rewrite S6, L0; lia | same_size].
  - assert (0 <= Z.shiftr cp 12 < 16) as Hlead
      by (rewrite S12, Z.div_div by lia;
          split; [apply Z.div_pos | apply Z.div_lt_upper_bound]; lia).
    destruct (lead_byte 3 0xE0 16 (Z.shiftr cp 12) ltac:(auto) Hlead) as (Hr & Hn & Hp).
    rewrite value_char_of by exact Hr. cbv zeta. rewrite Hn, Hp.
    change (3 =? 0) with false. cbv iota. change (Z.to_nat (3 - 1)) with 2%nat.
    rewrite (move_byte out _ (_ :: _ :: rest)).
    replace (size out + 1) with (size (out ++ [char_of (Z.lor 0xE0 (Z.shiftr cp 12))]))
      by same_size.
    rewrite continuation_step by exact H6.
    rewrite continuation_step by exact H0. cbn [Utf8.continuation].
    f_equal; [rewrite S12, L6, L0; lia | same_size].
  - assert (0 <= Z.shiftr cp 18 < 8) as Hlead
      by (rewrite S18, !Z.div_div by lia;
          split; [apply Z.div_pos | apply Z.div_lt_upper_bound]; lia).
    destruct (lead_byte 4 0xF0 8 (Z.shiftr cp 18) ltac:(auto) Hlead) as (Hr & Hn & Hp).
    rewrite value_char_of by exact Hr. cbv zeta. rewrite Hn, Hp.
    change (4 =? 0) with false. cbv iota. change (Z.to_nat (4 - 1)) with 3%nat.
    rewrite (move_byte out _ (_ :: _ :: _ :: rest)).
    replace (size out + 1) with (size (out ++ [char_of (Z.lor 0xF0 (Z.shiftr cp 18))]))
      by same_size.
    rewrite continuation_step by exact H12.
    rewrite continuation_step by exact H6.
    rewrite continuation_step by exact H0. cbn [Utf8.continuation].
    pose proof (Z.div_mod (cp / 64 / 64 / 64) 64 ltac:(lia)) as D18.
    f_equal; [rewrite S18, L12, L6, L0; lia | same_size].
Qed.

Lemma escaped_codepoint_round_trip_witness :
  Utf8.DecodeCodePoint (AppendUtf8FromCodePoint (literal "a") 0x2014 ++ literal "b")
    (size (literal "a")) =
  (0x2014, size (AppendUtf8FromCodePoint (literal "a") 0x2014)).
Proof.
  apply (escaped_codepoint_round_trip (literal "a") 0x2014 (literal "b")). lia.
Defined.

(** ** Escapes with hexadecimal digits *)





(** * Part X: properties of the look-up of Translation.cpp *)

Lemma bytes_eqb_eq (a b : bytes) : bytes_eqb a b = true <-> a = b.
Proof.
  unfold bytes_eqb. destruct (list_eq_dec byte_eq_dec a b); split; congruence.
Qed.

Lemma bytes_eqb_refl (a : bytes) : bytes_eqb a a = true.
Proof. apply bytes_eqb_eq. reflexivity. Qed.

Lemma Tr_or_not_key (files : bytes -> list bytes) (t : Translation) (key other : bytes) :
  other <> key -> fst (Tr_or files t key other) <> key.
Proof.
  intros Hother. unfold Tr_or.
  destruct (Tr files t key) as [value t']. cbn [fst].
  destruct (bytes_eqb value key) eqn:E; [exact Hother |].
  intros Hvalue. apply bytes_eqb_eq in Hvalue. congruence.
Qed.

Lemma prefix_differs (prefix name : bytes) : prefix <> [] -> name <> prefix ++ name.
Proof.
  intros Hprefix Hname. apply (f_equal (@List.length byte)) in Hname.
  rewrite length_app in Hname. destruct prefix; [contradiction | cbn in Hname; lia].
Qed.

Lemma Tr_or_nonempty_result (files : bytes -> list bytes) (t : Translation)
    (key other : bytes) :
  fst (Tr_or_nonempty files t key other) = other \/
  (fst (Tr_or_nonempty files t key other) <> key /\
   fst (Tr_or_nonempty files t key other) <> []).
Proof.
  unfold Tr_or_nonempty. destruct (Tr files t key) as [value t']. cbn [fst].
  destruct (bytes_eqb value key) eqn:E; cbn [orb]; [left; reflexivity |].
  destruct (Z.eqb_spec (size value) 0) as [Hempty | Hempty]; [left; reflexivity |].
  right. split.
  - intros Hvalue. apply bytes_eqb_eq in Hvalue. congruence.
  - intros ->. apply Hempty. reflexivity.
Qed.

(** X25.  Whatever the tables hold, [TrCategory], [TrFormation],
    [TrGovernment] and [TrSeries] never answer the dotted key that they
    look up: where [Tr] hands the key back for want of a translation, the
    caller gets the name it passed.  [TrShipDescription],
    [TrPlanetDescription] and [TrSpaceportDescription] answer the fallback
    that the caller passed, or a string that is neither the dotted key nor
    empty. *)
Theorem dotted_key_never_shown (files : bytes -> list bytes) (t : Translation)
    (name fallback : bytes) :
  (fst (TrCategory files t name) <> literal "category." ++ name /\
   fst (TrFormation files t name) <> literal "formation." ++ name /\
   fst (TrGovernment files t name) <> literal "government." ++ name /\
   fst (TrSeries files t name) <> literal "series." ++ name) /\
  (fst (TrShipDescription files t name fallback) = fallback \/
   (fst (TrShipDescription files t name fallback) <> literal "ship.desc." ++ name /\
    fst (TrShipDescription files t name fallback) <> [])) /\
  (fst (TrPlanetDescription files t name fallback) = fallback \/
   (fst (TrPlanetDescription files t name fallback) <> literal "planet.desc." ++ name /\
    fst (TrPlanetDescription files t name fallback) <> [])) /\
  (fst (TrSpaceportDescription files t name fallback) = fallback \/
   (fst (TrSpaceportDescription files t name fallback)
      <> literal "planet.spaceport." ++ name /\
    fst (TrSpaceportDescription files t name fallback) <> [])).
Proof.
  unfold TrCategory, TrFormation, TrGovernment, TrSeries,
    TrShipDescription, TrPlanetDescription, TrSpaceportDescription.
  split; [repeat split; apply Tr_or_not_key, prefix_differs; discriminate |].
  repeat split; apply Tr_or_nonempty_result.
Qed.

Lemma Tr_state (files : bytes -> list bytes) (t : Translation) (key : bytes) :
  snd (Tr files t key) = t \/
  (fallbackLoaded t = false /\ snd (Tr files t key) = with_fallback files t).
Proof.
  unfold Tr. destruct (map_find (currentStrings t) key); [left; reflexivity |].
  cbv zeta.
  destruct (fallbackLoaded t) eqn:Hloaded; cbn [negb andb].
  - left. destruct (map_find (fallbackStrings t) key); reflexivity.
  - destruct (bytes_eqb (currentLanguage t) (literal "en")); cbn [negb].
    + left. destruct (map_find (fallbackStrings t) key); reflexivity.
    + right. split; [reflexivity |].
      destruct (map_find _ key); reflexivity.
Qed.

(** X26.  Whatever keys are translated and in whatever order, [Tr] leaves
    the language and the table of the language as they are, and changes
    the other variables at most once: after any sequence of calls the
    variables are the initial ones, or the initial ones with the English
    table read and the flag [fallbackLoaded] set. *)
Theorem fallback_loaded_at_most_once (files : bytes -> list bytes) (t : Translation)
    (keys : list bytes) :
  Tr_all files t keys = t \/ Tr_all files t keys = with_fallback files t.
Proof.
  revert t. induction keys as [| key keys IH]; intros t; [left; reflexivity |].
  unfold Tr_all in *. cbn [fold_left].
  destruct (Tr_state files t key) as [-> | [Hloaded ->]]; [apply IH |].
  right. destruct (IH (with_fallback files t)) as [-> | ->]; reflexivity.
Qed.

(** ** Loading the tables *)

Lemma map_find_assign_same (m : strings) (key value : bytes) :
  map_find (map_assign m key value) key = Some value.
Proof.
  induction m as [| [k v] m IH]; cbn [map_assign map_find].
  - rewrite bytes_eqb_refl. reflexivity.
  - destruct (bytes_eqb k key) eqn:E; cbn [map_find]; rewrite E; [reflexivity | exact IH].
Qed.

Lemma map_find_assign_other (m : strings) (key value key' : bytes) :
  key' <> key -> map_find (map_assign m key value) key' = map_find m key'.
Proof.
  intros Hother. induction m as [| [k v] m IH]; cbn [map_assign map_find].
  - destruct (bytes_eqb key key') eqn:E; [| reflexivity].
    apply bytes_eqb_eq in E. congruence.
  - destruct (bytes_eqb k key) eqn:E; cbn [map_find].
    + apply bytes_eqb_eq in E. subst k.
      destruct (bytes_eqb key key') eqn:E'; [| reflexivity].
      apply bytes_eqb_eq in E'. congruence.
    + rewrite IH. reflexivity.
Qed.

Lemma map_assign_keys (m : strings) (key value key' : bytes) :
  In key' (map fst (map_assign m key value)) <-> key' = key \/ In key' (map fst m).
Proof.
  induction m as [| [k v] m IH]; cbn [map_assign map fst In].
  - intuition congruence.
  - destruct (bytes_eqb k key) eqn:E; cbn [map fst In].
    + apply bytes_eqb_eq in E. subst k. intuition congruence.
    + rewrite IH. intuition congruence.
Qed.

Lemma map_assign_NoDup (m : strings) (key value : bytes) :
  NoDup (map fst m) -> NoDup (map fst (map_assign m key value)).
Proof.
  induction m as [| [k v] m IH]; cbn [map_assign map fst]; intros Hm.
  - constructor; [intros [] | constructor].
  - inversion Hm as [| k' keys Hk Hkeys]; subst.
    destruct (bytes_eqb k key) eqn:E; cbn [map fst].
    + constructor; assumption.
    + constructor; [| apply IH; exact Hkeys].
      rewrite map_assign_keys. intros [-> | Hin]; [| contradiction].
      rewrite bytes_eqb_refl in E. discriminate.
Qed.

Lemma map_find_absent (m : strings) (key : bytes) :
  ~ In key (map fst m) -> map_find m key = None.
Proof.
  induction m as [| [k v] m IH]; cbn [map_find map fst In]; intros Habsent; [reflexivity |].
  destruct (bytes_eqb k key) eqn:E.
  - apply bytes_eqb_eq in E. exfalso. apply Habsent. left. exact E.
  - apply IH. intros Hin. apply Habsent. right. exact Hin.
Qed.

Lemma ParseFlatJson_turn_keys (data : bytes) (pos : Z) (out : strings)
    (pos' : Z) (out' : strings) :
  NoDup (map fst out) ->
  ParseFlatJson_turn data pos out = Again (pos', out') ->
  NoDup (map fst out').
Proof.
  intros Hout. unfold ParseFlatJson_turn. cbv zeta.
  destruct (byte_at data (skip_while is_space_or_comma data pos)) as [c |]; [| discriminate].
  destruct (c =? 0x7D); [discriminate |].
  destruct (ParseJsonString data (skip_while is_space_or_comma data pos)) as [[ok pos2] key].
  destruct ok; cbn [negb]; [| discriminate].
  destruct (byte_at data (skip_while is_space data pos2)) as [c' |]; [| discriminate].
  destruct (c' =? 0x3A); cbn [negb]; [| discriminate].
  destruct (ParseJsonString data (skip_while is_space data pos2 + 1)) as [[ok' pos4] val].
  destruct ok'; cbn [negb]; [| discriminate].
  intros [= _ <-]. apply map_assign_NoDup, Hout.
Qed.

Lemma ParseFlatJson_turn_out (data : bytes) (pos : Z) (out : strings)
    (r : bool * strings) :
  ParseFlatJson_turn data pos out = Return r -> snd r = out.
Proof.
  unfold ParseFlatJson_turn. cbv zeta.
  destruct (byte_at data (skip_while is_space_or_comma data pos)) as [c |];
    [| intros [= <-]; reflexivity].
  destruct (c =? 0x7D); [intros [= <-]; reflexivity |].
  destruct (ParseJsonString data (skip_while is_space_or_comma data pos)) as [[ok pos2] key].
  destruct ok; cbn [negb]; [| intros [= <-]; reflexivity].
  destruct (byte_at data (skip_while is_space data pos2)) as [c' |];
    [| intros [= <-]; reflexivity].
  destruct (c' =? 0x3A); cbn [negb]; [| intros [= <-]; reflexivity].
  destruct (ParseJsonString data (skip_while is_space data pos2 + 1)) as [[ok' pos4] val].
  destruct ok'; cbn [negb]; [discriminate | intros [= <-]; reflexivity].
Qed.

Lemma ParseFlatJson_loop_keys (data : bytes) (pos : Z) (out : strings) :
  NoDup (map fst out) -> NoDup (map fst (snd (ParseFlatJson_loop data pos out))).
Proof.
  funelim (ParseFlatJson_loop data pos out); intros Hout.
  - apply H. apply (ParseFlatJson_turn_keys _ _ _ _ _ Hout Hturn).
  - rewrite (ParseFlatJson_turn_out _ _ _ _ e). exact Hout.
Qed.

(** No key comes twice in what [ParseFlatJson] leaves in [out]. *)
Lemma ParseFlatJson_keys (data : bytes) : NoDup (map fst (snd (ParseFlatJson data))).
Proof.
  unfold ParseFlatJson. cbv zeta.
  destruct (byte_at data (skip_while is_space data 0)) as [c |]; [| constructor].
  destruct (c =? 0x7B); [| constructor].
  apply ParseFlatJson_loop_keys. constructor.
Qed.

(** Copying a table without repeated keys into another one. *)
Lemma merge_find (partial : strings) (key : bytes) :
  NoDup (map fst partial) ->
  forall target,
    map_find (fold_left (fun target p => map_assign target (fst p) (snd p)) partial target)
      key =
    match map_find partial key with
    | Some value => Some value
    | None => map_find target key
    end.
Proof.
  induction partial as [| [k v] partial IH]; intros Hkeys target; [reflexivity |].
  cbn [fold_left fst snd map_find]. cbn [map fst] in Hkeys.
  inversion Hkeys as [| k' keys Hk Hrest]; subst.
  rewrite IH by exact Hrest.
  destruct (bytes_eqb k key) eqn:E.
  - apply bytes_eqb_eq in E. subst k.
    rewrite (map_find_absent partial key Hk). apply map_find_assign_same.
  - destruct (map_find partial key); [reflexivity |].
    apply map_find_assign_other. intros ->. rewrite bytes_eqb_refl in E. discriminate.
Qed.

(** X27.  In the table that [LoadInto] builds for a language, a key has
    the value of the last file, in the order of the listing, whose flat
    object holds that key, as far as [ParseFlatJson] has read the file,
    and no value if no file holds it: later files override earlier ones,
    and a file that is cut short still gives the members read. *)
Theorem later_files_override (files : bytes -> list bytes) (languageCode key : bytes) :
  map_find (LoadInto files languageCode) key =
  fold_left
    (fun found data =>
       match map_find (snd (ParseFlatJson data)) key with
       | Some value => Some value
       | None => found
       end)
    (files languageCode) None.
Proof.
  unfold LoadInto. change (@None bytes) with (map_find [] key).
  generalize (@nil (bytes * bytes)) as target.
  induction (files languageCode) as [| data datas IH]; intros target; [reflexivity |].
  cbn [fold_left]. rewrite IH. f_equal.
  apply merge_find, ParseFlatJson_keys.
Qed.

(** ** The list of languages *)

Lemma sort_insert_In (code c : bytes) (sorted : list bytes) :
  In c (sort_insert code sorted) <-> c = code \/ In c sorted.
Proof.
  induction sorted as [| d sorted IH]; cbn [sort_insert].
  - cbn. intuition congruence.
  - destruct (bytes_ltb code d); cbn [In]; [intuition congruence |].
    rewrite IH. intuition congruence.
Qed.

Lemma sort_In (c : bytes) (codes : list bytes) : In c (sort codes) <-> In c codes.
Proof.
  induction codes as [| d codes IH]; cbn [sort fold_right In]; [reflexivity |].
  fold (sort codes). rewrite sort_insert_In, IH. intuition congruence.
Qed.

Lemma erase_first_In (code c : bytes) (codes : list bytes) :
  (In c (erase_first code codes) -> In c codes) /\
  (In c codes -> c <> code -> In c (erase_first code codes)).
Proof.
  induction codes as [| d codes [IH1 IH2]]; cbn [erase_first In]; [tauto |].
  destruct (bytes_eqb d code) eqn:E.
  - apply bytes_eqb_eq in E. subst d. split; [tauto |].
    intros [-> | H] Hc; [contradiction | exact H].
  - cbn [In]. split; [intros [-> | H]; auto |].
    intros [-> | H] Hc; auto.
Qed.

Lemma existsb_code (code : bytes) (codes : list bytes) :
  existsb (fun c => bytes_eqb c code) codes = true <-> In code codes.
Proof.
  rewrite existsb_exists. split.
  - intros (c & Hc & E). apply bytes_eqb_eq in E. subst c. exact Hc.
  - intros H. exists code. split; [exact H | apply bytes_eqb_refl].
Qed.

(** X28.  If the directory of the languages exists, the list that
    [AvailableLanguageCodes] answers starts with [en], whether or not an
    English directory is there, and its members are [en] and the names of
    the sub-directories that hold a [.json] file, no other. *)
Theorem english_listed_first (dirs : list (bytes * bool)) :
  hd_error (AvailableLanguageCodes true dirs) = Some (literal "en") /\
  forall code,
    In code (AvailableLanguageCodes true dirs) <->
    code = literal "en" \/ In (code, true) dirs.
Proof.
  unfold AvailableLanguageCodes. cbn [negb]. cbv zeta.
  set (codes := sort (map fst (filter snd dirs))).
  assert (forall code, In code codes <-> In (code, true) dirs) as Hcodes.
  { intros code. unfold codes. rewrite sort_In, in_map_iff. split.
    - intros ([c flag] & <- & Hin). apply filter_In in Hin. cbn [fst snd] in *.
      destruct Hin as [Hin ->]. exact Hin.
    - intros Hin. exists (code, true). split; [reflexivity |].
      apply filter_In. split; [exact Hin | reflexivity]. }
  destruct (existsb (fun c => bytes_eqb c (literal "en")) codes) eqn:Hen; cbn [negb].
  - apply existsb_code in Hen.
    destruct codes as [| c codes'] eqn:Hshape; [contradiction |].
    destruct (bytes_eqb c (literal "en")) eqn:Hc.
    + apply bytes_eqb_eq in Hc. split; [cbn [hd_error]; rewrite Hc; reflexivity |].
      intros code. rewrite Hcodes. split; [auto |].
      intros [-> | H]; [apply Hcodes; exact Hen | exact H].
    + split; [reflexivity |]. intros code. cbn [In].
      pose proof (erase_first_In (literal "en") code (c :: codes')) as [Hback Hkeep].
      split.
      * intros [<- | H]; [left; reflexivity | right; apply Hcodes, Hback, H].
      * intros [-> | H]; [left; reflexivity |].
        destruct (list_eq_dec byte_eq_dec code (literal "en")) as [-> | Hother];
          [left; reflexivity | right].
        apply Hkeep; [apply Hcodes; exact H | exact Hother].
  - split; [reflexivity |]. intros code. cbn [In]. rewrite Hcodes.
    split; intros [H | H]; auto.
Qed.

(** * Part XI: properties of FontSet.cpp *)

Lemma key_eqb_eq (a b : FontKey) : key_eqb a b = true <-> a = b.
Proof.
  unfold key_eqb. destruct a as [s l], b as [s' l']. cbn [fst snd].
  rewrite andb_true_iff, Z.eqb_eq, bytes_eqb_eq. split; [intros [-> ->] | intros [= -> ->]]; auto.
Qed.

Lemma fonts_find_assign (fonts : Fonts) (key : FontKey) (f : Font) :
  fonts_find (fonts_assign fonts key f) key = Some f.
Proof.
  assert (key_eqb key key = true) as Hrefl by (apply key_eqb_eq; reflexivity).
  induction fonts as [| [k g] fonts IH]; cbn [fonts_assign fonts_find].
  - rewrite Hrefl. reflexivity.
  - destruct (key_eqb k key) eqn:E; cbn [fonts_find].
    + rewrite E. reflexivity.
    + destruct (key_ltb key k); cbn [fonts_find]; [rewrite Hrefl; reflexivity |].
      rewrite E. exact IH.
Qed.

Lemma fonts_find_In (fonts : Fonts) (key : FontKey) (f : Font) :
  fonts_find fonts key = Some f -> In (key, f) fonts.
Proof.
  induction fonts as [| [k g] fonts IH]; cbn [fonts_find]; [discriminate |].
  destruct (key_eqb k key) eqn:E.
  - apply key_eqb_eq in E. intros [= ->]. left. congruence.
  - intros H. right. apply IH, H.
Qed.

(** X29.  The first [Add] for a size and a language decides: a second
    [Add] with the same size and language changes nothing, whatever atlas
    it brings, also when the first could not read its image and left the
    blank font in the map. *)
Theorem first_Add_decides (blank : Font) (fonts : Fonts)
    (image image' : option ImageBuffer) (size : Z) (languageCode : bytes) :
  Add blank (Add blank fonts image size languageCode) image' size languageCode =
  Add blank fonts image size languageCode.
Proof.
  unfold Add at 2 3. cbv zeta.
  destruct (fonts_find fonts (size, languageCode)) as [f |] eqn:Hfound.
  - unfold Add. rewrite Hfound. reflexivity.
  - unfold Add. rewrite fonts_find_assign. reflexivity.
Qed.

(** X30.  If a font is registered under the requested size, in whatever
    language, [Get] answers a font registered under that size: the one of
    the current language if there is one, else the English one if there
    is one, else another one of that size; it falls back on the first
    font of the map only when no font has the size. *)
Theorem Get_keeps_size (fonts : Fonts) (lang : bytes) (size : Z)
    (languageCode : bytes) (f : Font) :
  In ((size, languageCode), f) fonts ->
  exists languageCode' f',
    Get fonts lang size = Some f' /\
    In ((size, languageCode'), f') fonts /\
    (forall g, fonts_find fonts (size, lang) = Some g -> f' = g) /\
    (forall g, fonts_find fonts (size, lang) = None ->
       fonts_find fonts (size, literal "en") = Some g -> f' = g).
Proof.
  intros Hin. unfold Get.
  destruct (fonts_find fonts (size, lang)) as [g |] eqn:Hlang.
  - exists lang, g. split; [reflexivity |]. split; [apply fonts_find_In, Hlang |].
    split; [intros g' [= ->]; reflexivity | discriminate].
  - destruct (fonts_find fonts (size, literal "en")) as [g |] eqn:Hen.
    + exists (literal "en"), g. split; [reflexivity |].
      split; [apply fonts_find_In, Hen |].
      split; [discriminate | intros g' _ [= ->]; reflexivity].
    + destruct (List.find (fun p => fst (fst p) =? size) fonts) as [[[s l] g] |] eqn:Hfind.
      * apply find_some in Hfind. destruct Hfind as [Hg Hs]. cbn [fst snd] in *.
        apply Z.eqb_eq in Hs. subst s.
        exists l, g. split; [reflexivity |]. split; [exact Hg |].
        split; discriminate.
      * exfalso. apply (find_none _ _ Hfind) in Hin. cbn [fst] in Hin.
        rewrite Z.eqb_refl in Hin. discriminate.
Qed.

Lemma Get_keeps_size_witness :
  exists languageCode' f',
    Get [((14, literal "ru"), extended_font); ((18, literal "en"), latin_font)]
      (literal "de") 14 = Some f' /\
    In ((14, languageCode'), f')
      [((14, literal "ru"), extended_font); ((18, literal "en"), latin_font)] /\
    (forall g,
       fonts_find [((14, literal "ru"), extended_font); ((18, literal "en"), latin_font)]
         (14, literal "de") = Some g -> f' = g) /\
    (forall g,
       fonts_find [((14, literal "ru"), extended_font); ((18, literal "en"), latin_font)]
         (14, literal "de") = None ->
       fonts_find [((14, literal "ru"), extended_font); ((18, literal "en"), latin_font)]
         (14, literal "en") = Some g -> f' = g).
Proof.
  apply (Get_keeps_size
           [((14, literal "ru"), extended_font); ((18, literal "en"), latin_font)]
           (literal "de") 14 (literal "ru") extended_font).
  left. reflexivity.
Defined.
